(** * Metadata Downloader: boundary discovery, collection and enrichment

  A shallow embedding of the three pipeline steps
  [steps/0-find_last_pages.py], [steps/1-collect.py] and
  [steps/2-enrich.py].

  Conventions used throughout:
  - a network request is an oracle indexed by the number of requests issued
    so far in the run, so that a flaky service (a page that is empty now and
    full later) can be expressed; a deterministic service ignores the index;
  - [len(found)] is a [nat]; page numbers and partition ids are [Z];
  - Python [dict]s and [set]s whose iteration order is irrelevant are
    [gmap]s and [gset]s; the ones that are iterated (a page's [found], the
    taxonomy, the CSV files) are lists in insertion order;
  - text is modelled as ASCII strings. *)

From Stdlib Require Import ZArith List String Ascii Bool Lia.
From stdpp Require Import base option gmap sets list strings pretty sorting.
Import ListNotations.

Open Scope string_scope.
Open Scope list_scope.
Open Scope Z_scope.

(** ** Text helpers ([str.strip], [str.lower]) *)

Module Text.

(** [str.isspace] on ASCII: TAB, LF, VT, FF, CR, FS, GS, RS, US and SPACE. *)
Definition is_space (c : ascii) : bool :=
  let n := nat_of_ascii c in
  ((9 <=? n) && (n <=? 13) || (28 <=? n) && (n <=? 32))%nat.

Fixpoint lstrip (s : string) : string :=
  match s with
  | EmptyString => EmptyString
  | String c r => if is_space c then lstrip r else s
  end.

(** Drops trailing white space: a character is kept when it is not white
    space or when something is kept after it. *)
Fixpoint rstrip (s : string) : string :=
  match s with
  | EmptyString => EmptyString
  | String c r =>
      match rstrip r with
      | EmptyString => if is_space c then EmptyString else String c EmptyString
      | r' => String c r'
      end
  end.

Definition strip (s : string) : string := rstrip (lstrip s).

Definition lower_ascii (c : ascii) : ascii :=
  let n := nat_of_ascii c in
  if ((65 <=? n) && (n <=? 90))%nat then ascii_of_nat (n + 32) else c.

Fixpoint lower (s : string) : string :=
  match s with
  | EmptyString => EmptyString
  | String c r => String (lower_ascii c) (lower r)
  end.

(** [c in "0123456789abcdef"] *)
Definition is_hex (c : ascii) : bool :=
  let n := nat_of_ascii c in
  ((48 <=? n) && (n <=? 57) || (97 <=? n) && (n <=? 102))%nat.

Fixpoint filter_hex (s : string) : string :=
  match s with
  | EmptyString => EmptyString
  | String c r => if is_hex c then String c (filter_hex r) else filter_hex r
  end.

Fixpoint all_hex (s : string) : bool :=
  match s with
  | EmptyString => true
  | String c r => is_hex c && all_hex r
  end.

(** [s[-n:]] for [n <= len(s)]. *)
Definition last_n (n : nat) (s : string) : string :=
  String.substring (String.length s - n) n s.

Definition is_empty (s : string) : bool :=
  match s with EmptyString => true | _ => false end.

End Text.

(** ** Step 0: boundary discovery ([steps/0-find_last_pages.py]) *)

Module FindLastPages.

Definition PROBE_STEP : Z := 500.
Definition CONFIRM_ATTEMPTS : nat := 3.

(** The listing service as step 0 sees it: [fetch n page] is the number of
    record ids extracted from the answer to the request for [page] issued
    after [n] earlier requests ([0] when the request fails or the page has no
    data). *)
Definition oracle : Type := nat -> Z -> nat.

(** Computations that issue requests thread the request count. *)
Definition M (A : Type) : Type := nat -> A * nat.

Definition ret {A : Type} (a : A) : M A := fun n => (a, n).

Definition bind {A B : Type} (m : M A) (k : A -> M B) : M B :=
  fun n => let (a, n') := m n in k a n'.

Notation "x <- m ;; k" := (bind m (fun x => k))
  (at level 100, m at next level, right associativity).

Definition request (fetch : oracle) (page : Z) : M nat :=
  fun n => (fetch n page, S n).

(** A deterministic service: the answer depends on the page only. *)
Definition deterministic (f : Z -> nat) : oracle := fun _ page => f page.

(** [fetch_page_with_retries]: up to [max_attempts] requests, the first
    non-zero count wins, [0] otherwise. *)
Fixpoint fetch_page_with_retries (fetch : oracle) (page : Z)
    (max_attempts : nat) : M nat :=
  match max_attempts with
  | O => ret 0%nat
  | S k =>
      count <- request fetch page ;;
      if (0 <? count)%nat then ret count
      else fetch_page_with_retries fetch page k
  end.

(** [range(PROBE_STEP, max_page + 1, PROBE_STEP)] *)
Definition probe_pages (max_page : Z) : list Z :=
  map (fun k => PROBE_STEP * Z.of_nat k)
      (seq 1 (Z.to_nat (max_page / PROBE_STEP))).

Fixpoint phase1_loop (fetch : oracle) (probes : list Z) (max_page : Z) : M Z :=
  match probes with
  | [] => ret (max_page + PROBE_STEP)
  | p :: rest =>
      count <- fetch_page_with_retries fetch p 1 ;;
      if (count =? 0)%nat then ret p else phase1_loop fetch rest max_page
  end.

Definition phase1_first_empty (fetch : oracle) (max_page : Z) : M Z :=
  phase1_loop fetch (probe_pages max_page) max_page.

(** The inner [while low < high] loop.  [high - low] decreases at every
    iteration, so [Z.to_nat (high - low)] iterations are enough (see
    [binary_search_fuel]). *)
Fixpoint binary_search_loop (fetch : oracle) (fuel : nat) (low high : Z)
    : M (Z * Z) :=
  match fuel with
  | O => ret (low, high)
  | S k =>
      if low <? high then
        let mid := (low + high + 1) / 2 in
        count <- fetch_page_with_retries fetch mid 1 ;;
        if (0 <? count)%nat then binary_search_loop fetch k mid high
        else binary_search_loop fetch k low (mid - 1)
      else ret (low, high)
  end.

Definition binary_search (fetch : oracle) (low high : Z) : M (Z * Z) :=
  binary_search_loop fetch (Z.to_nat (high - low)) low high.

(** How the [for attempt in range(CONFIRM_ATTEMPTS)] loop is left. *)
Inductive confirm_exit : Type :=
| Return (r : option Z)          (* a [return] inside the loop *)
| Break (low high : Z)           (* [break], with the new search range *)
| Exhausted.                     (* the [else] clause of the loop *)

Fixpoint confirm_loop (fetch : oracle) (remaining attempt : nat)
    (candidate first_empty : Z) : M confirm_exit :=
  match remaining with
  | O => ret Exhausted
  | S k =>
      c_prev <- fetch_page_with_retries fetch candidate 1 ;;
      c_next <- fetch_page_with_retries fetch (candidate + 1) 1 ;;
      if (0 <? c_prev)%nat && (c_next =? 0)%nat then
        ret (Return (Some candidate))
      else if (c_prev =? 0)%nat && (attempt =? CONFIRM_ATTEMPTS - 1)%nat then
        ret (Return (if 1 <? candidate then Some (candidate - 1) else None))
      else if (0 <? c_next)%nat then
        ret (Break (candidate + 1) (first_empty - 1))
      else confirm_loop fetch k (S attempt) candidate first_empty
  end.

(** The [while outer_iters < max_outer] loop; [iters] counts the iterations
    that are left. *)
Fixpoint outer_loop (fetch : oracle) (iters : nat)
    (low high candidate first_empty : Z) : M (option Z) :=
  match iters with
  | O => ret (Some candidate)
  | S k =>
      range <- binary_search fetch low high ;;
      let candidate := fst range in
      ex <- confirm_loop fetch CONFIRM_ATTEMPTS 0 candidate first_empty ;;
      match ex with
      | Return r => ret r
      | Exhausted => ret (Some candidate)
      | Break low2 high2 =>
          if high2 <? low2 then ret (Some candidate)
          else outer_loop fetch k low2 high2 candidate first_empty
      end
  end.

Definition max_outer : nat := 20.

Definition phase2_binary_search_to_last (fetch : oracle) (first_empty : Z)
    : M (option Z) :=
  let low := 1 in
  let high := first_empty - 1 in
  if high <? 1 then ret None
  else outer_loop fetch max_outer low high low first_empty.

(** [find_last_page] of the design: both phases for one partition. *)
Definition find_last_page (fetch : oracle) (max_page : Z) : M (option Z) :=
  first_empty <- phase1_first_empty fetch max_page ;;
  phase2_binary_search_to_last fetch first_empty.

(** *** The boundary table *)

(** A row of [last_pages.csv] as [csv.DictReader] yields it.  The three
    integer columns hold the result of [int(row[...])], [None] when that
    raises [KeyError] or [ValueError]; a name is [None] when the file has no
    such column.  The lines of the table have a field for every column of
    the header: a shorter line, for which [csv.DictReader] fills in [None]
    and [int(None)] raises a [TypeError] that [except (KeyError, ValueError)]
    lets through, is not a [table_row]. *)
Record table_row : Type := TableRow {
  category_id : option Z;
  subcategory_id : option Z;
  category_name : option string;
  subcategory_name : option string;
  last_page : option Z
}.

Definition segment : Type := Z * Z.

(** A row as [csv.writer] writes it. *)
Definition written_row : Type := Z * Z * string * string * Z.

Definition load_row (out : gmap segment (string * string * Z)) (row : table_row)
    : gmap segment (string * string * Z) :=
  match category_id row, subcategory_id row, last_page row with
  | Some cid, Some sid, Some last =>
      let cat_name := default (pretty cid) (category_name row) in
      let sub_name :=
        default (if sid =? -1 then "all" else pretty sid) (subcategory_name row) in
      <[(cid, sid) := (cat_name, sub_name, last)]> out
  | _, _, _ => out
  end.

(** The partition a row is for, when its integer columns parse. *)
Definition row_segment (row : table_row) : option segment :=
  match category_id row, subcategory_id row, last_page row with
  | Some cid, Some sid, Some _ => Some (cid, sid)
  | _, _, _ => None
  end.

(** [file] is [None] when [os.path.isfile(path)] is false. *)
Definition load_existing_last_pages (file : option (list table_row))
    : gmap segment (string * string * Z) :=
  match file with
  | None => ∅
  | Some rows => fold_left load_row rows ∅
  end.

(** Tuple order on [(category_id, subcategory_id)], for [sorted]. *)
Definition segment_le (a b : segment) : Prop :=
  a.1 < b.1 \/ (a.1 = b.1 /\ a.2 <= b.2).

#[global] Instance segment_le_dec (a b : segment) : Decision (segment_le a b).
Proof. unfold segment_le. apply _. Defined.

Definition sorted_keys (m : gmap segment (string * string * Z)) : list segment :=
  merge_sort segment_le (map fst (map_to_list m)).

Definition write_table (m : gmap segment (string * string * Z))
    : list written_row :=
  omap (fun k => match m !! k with
                 | Some (cat_name, sub_name, last) =>
                     Some (k.1, k.2, cat_name, sub_name, last)
                 | None => None
                 end)
       (sorted_keys m).

Definition update_existing (existing : gmap segment (string * string * Z))
    (results : list written_row) : gmap segment (string * string * Z) :=
  fold_left
    (fun ex '(cid, sid, cat_name, sub_name, last) =>
       <[(cid, sid) := (cat_name, sub_name, last)]> ex)
    results existing.

(** [max_page] from the API total: [ceil(total / 150)] if [total] else 8750.
    The source divides in floating point; the integer ceiling is the same
    value for every total below [2 ^ 53]. *)
Definition max_page_estimate (total : option Z) : Z :=
  match total with
  | Some t => if t =? 0 then 8750 else (t + 149) / 150
  | None => 8750
  end.

(** The per-segment loop of [main] outside test mode.  [None] is
    [sys.exit(1)]: a segment for which phase 2 returns [None] aborts the run
    before the table is rewritten. *)
Fixpoint discover (fetch : nat -> segment -> Z -> nat)
    (api_total : segment -> option Z)
    (segments : list (Z * Z * string * string))
    (results : list written_row) : M (option (list written_row)) :=
  match segments with
  | [] => ret (Some results)
  | (category_id, subcategory_id, cat_name, sub_name) :: rest =>
      let seg := (category_id, subcategory_id) in
      let max_page := max_page_estimate (api_total seg) in
      last <- find_last_page (fun n page => fetch n seg page) max_page ;;
      match last with
      | None => ret None
      | Some l =>
          discover fetch api_total rest
            (results ++ [(category_id, subcategory_id, cat_name, sub_name, l)])
      end
  end.

Definition TEST_SEGMENTS : list (Z * Z * string * string) :=
  [(0, 5, "sprite", "object"); (1, -1, "audioclip", "all");
   (3, -1, "animationclip", "all"); (25, -1, "avataritem", "all")].

(** The partitions a run of [main] processes. *)
Definition processed (test : bool) (segments : list (Z * Z * string * string))
    : list segment :=
  map (fun '(c, s, _, _) => (c, s)) (if test then TEST_SEGMENTS else segments).

(** [main], from the segment list on.  [segments] is the result of
    [iter_all_segments] after the command-line filters.  In test mode the
    page-1 request of each segment only feeds the diagnostics: [last] is 1
    whatever it returns.  The result is the rewritten table, or [None] when
    the run exits before rewriting it. *)
Definition main (test : bool) (fetch : nat -> segment -> Z -> nat)
    (api_total : segment -> option Z)
    (segments : list (Z * Z * string * string))
    (file : option (list table_row)) : option (list written_row) :=
  let segments := if test then TEST_SEGMENTS else segments in
  match segments with
  | [] => None
  | _ =>
      let existing := load_existing_last_pages file in
      let results :=
        if test then
          Some (map (fun '(c, s, cn, sn) => (c, s, cn, sn, 1)) segments)
        else fst (discover fetch api_total segments [] 0%nat) in
      match results with
      | None => None
      | Some results => Some (write_table (update_existing existing results))
      end
  end.

End FindLastPages.

(** ** Step 1: collection ([steps/1-collect.py]) *)

Module Collect.

Definition CSV_COLUMNS : list string :=
  ["RUID"; "Category"; "Subcategory"; "Date"; "Format"; "Tags"]%string.
Definition MAX_PAGE_ATTEMPTS : nat := 2.
Definition INDEFINITE_RETRY_MAX_ATTEMPTS : nat := 5.
Definition RETRY_PAGE_BUFFER : Z := 20.
Definition SKEPTICAL_PAGE_BUFFER : Z := 10.
Definition MAX_ITEMS_PER_PAGE : nat := 150.

Definition segment : Type := Z * Z.

(** *** The taxonomy

    [CATEGORY_NAMES] and [SUBCATS_BY_CATEGORY] as [_load_category_data]
    returns them: the items of each [dict], in insertion order (keys are
    distinct). *)
Record taxonomy : Type := Taxonomy {
  CATEGORY_NAMES : list (Z * string);
  SUBCATS_BY_CATEGORY : list (Z * list (Z * string))
}.

(** [d.get(k)] on the items of a [dict]. *)
Fixpoint dict_get {V : Type} (k : Z) (d : list (Z * V)) : option V :=
  match d with
  | [] => None
  | (k', v) :: rest => if k =? k' then Some v else dict_get k rest
  end.

Definition dict_has {V : Type} (k : Z) (d : list (Z * V)) : bool :=
  match dict_get k d with Some _ => true | None => false end.

(** [SUBCATS_BY_CATEGORY.get(c) or {}] *)
Definition subs_of (tx : taxonomy) (c : Z) : list (Z * string) :=
  default [] (dict_get c (SUBCATS_BY_CATEGORY tx)).

Definition iter_segments (tx : taxonomy) (categories : list Z) (all_only : bool)
    : list segment :=
  flat_map
    (fun c =>
       let subs := subs_of tx c in
       let all := if dict_has (-1) subs then [(c, -1)] else [] in
       if all_only then all
       else
         let sub_ids := filter (fun sid => sid ≠ -1) (map fst subs) in
         map (fun sub => (c, sub)) (merge_sort Z.le sub_ids) ++ all)
    categories.

Definition get_category_and_subcategory_names (tx : taxonomy)
    (category subcategory : Z) : string * string :=
  let cat_name := default (pretty category) (dict_get category (CATEGORY_NAMES tx)) in
  if subcategory =? -1 then (cat_name, "all"%string)
  else
    let sub_name :=
      match dict_get subcategory (subs_of tx category) with
      | Some n => if Text.is_empty n then pretty subcategory else n
      | None => pretty subcategory
      end in
    (cat_name, sub_name).

Definition _name_to_segment (tx : taxonomy) : gmap (string * string) segment :=
  fold_left
    (fun out '(cat_id, cat_name) =>
       let out1 :=
         fold_left
           (fun o '(sub_id, sub_name) => <[(cat_name, sub_name) := (cat_id, sub_id)]> o)
           (subs_of tx cat_id) out in
       <[(cat_name, "all"%string) := (cat_id, -1)]>
         (<[(cat_name, ""%string) := (cat_id, -1)]> out1))
    (CATEGORY_NAMES tx) ∅.

(** *** CSV files

    A file is the list of rows [csv.reader] yields, header first; a row is the
    list of its fields. *)
Definition csv_row : Type := list string.
Definition csv_file : Type := list csv_row.

Definition record_key : Type := string * Z * Z.

(** The key of a data row as both [load_existing_ruids_from_csv] and the
    final merge compute it: [None] when the row is skipped ([len(row) < 3],
    or names unknown to [_name_to_segment]). *)
Definition row_key (name_to_seg : gmap (string * string) segment)
    (row : csv_row) : option (string * record_key) :=
  match row with
  | r0 :: r1 :: r2 :: _ =>
      let ruid := Text.strip r0 in
      let cat_name := Text.strip r1 in
      let sub_name := Text.strip r2 in
      match name_to_seg !! (cat_name, sub_name) with
      | Some (cat_id, sub_id) => Some (ruid, (Text.lower ruid, cat_id, sub_id))
      | None => None
      end
  | _ => None
  end.

Definition header_ok (header : csv_row) : bool :=
  bool_decide (take 3 header = take 3 CSV_COLUMNS).

Definition load_existing_ruids_from_csv (tx : taxonomy) (file : csv_file)
    : gset record_key :=
  let name_to_seg := _name_to_segment tx in
  match file with
  | [] => ∅
  | header :: rows =>
      if header_ok header then
        fold_left
          (fun seen row =>
             match row_key name_to_seg row with
             | Some (ruid, key) =>
                 if Text.is_empty ruid then seen else {[ key ]} ∪ seen
             | None => seen
             end)
          rows ∅
      else ∅
  end.

(** *** Deduplication state

    [seen], [seen_per_ruid_cat] and the rows appended to the temp file, all
    mutated together under [lock].  [attempts] is a history variable (no code
    reads it): every record id that reached the locked region, with its
    partition, in order. *)
Record dedup : Type := Dedup {
  seen : gset record_key;
  seen_per_ruid_cat : gset (string * Z);
  temp_rows : list csv_row;
  attempts : list (Z * Z * string)
}.

(** The body of [for ruid in found: ... with lock: ...], for one [ruid]. *)
Definition commit_ruid (tx : taxonomy) (category subcategory : Z)
    (ruid : string) (d : dedup) : dedup :=
  let names := get_category_and_subcategory_names tx category subcategory in
  let key := (ruid, category, subcategory) in
  let log := attempts d ++ [(category, subcategory, ruid)] in
  let skip := Dedup (seen d) (seen_per_ruid_cat d) (temp_rows d) log in
  let write :=
    Dedup ({[ key ]} ∪ seen d)
          ({[ (ruid, category) ]} ∪ seen_per_ruid_cat d)
          (temp_rows d ++ [[ruid; names.1; names.2; ""; ""; ""]%string])
          log in
  if subcategory =? -1 then
    if bool_decide ((ruid, category) ∈ seen_per_ruid_cat d) then skip else write
  else
    if bool_decide (key ∈ seen d) then skip else write.

Definition listing : Type := list (string * string).

Definition commit_found (tx : taxonomy) (category subcategory : Z)
    (found : listing) (d : dedup) : dedup :=
  fold_left (fun d '(ruid, _) => commit_ruid tx category subcategory ruid d) found d.

(** *** Shared run state *)

Definition ticket : Type := Z * Z * Z * nat.

(** The listing service: the answer to the request for a page of a partition
    issued after [n] earlier requests.  [None] is [fetch_page] returning
    [None]; [Some found] carries the extraction result, the items of the
    [found] dict in insertion order (record id, extension). *)
Definition oracle : Type := nat -> segment -> Z -> option listing.

Record cstate : Type := CState {
  dd : dedup;
  global_retry_list : list ticket;
  max_page_with_content : gmap segment Z;
  total_pages_fetched : Z;
  requests : list (segment * Z)     (* every request issued, oldest first *)
}.

Definition set_dd (f : dedup -> dedup) (st : cstate) : cstate :=
  CState (f (dd st)) (global_retry_list st) (max_page_with_content st)
         (total_pages_fetched st) (requests st).

Definition add_tickets (ts : list ticket) (st : cstate) : cstate :=
  CState (dd st) (global_retry_list st ++ ts) (max_page_with_content st)
         (total_pages_fetched st) (requests st).

(** [max_page_with_content[seg] = max(max_page_with_content.get(seg, 0), page)] *)
Definition note_content (seg : segment) (page : Z) (st : cstate) : cstate :=
  CState (dd st) (global_retry_list st)
         (<[seg := Z.max (default 0 (max_page_with_content st !! seg)) page]>
            (max_page_with_content st))
         (total_pages_fetched st) (requests st).

Definition bump_total (st : cstate) : cstate :=
  CState (dd st) (global_retry_list st) (max_page_with_content st)
         (total_pages_fetched st + 1) (requests st).

(** [fetch_page] followed by [_extract_ruids_from_listing_html]. *)
Definition do_request (fetch : oracle) (seg : segment) (page : Z) (st : cstate)
    : option listing * cstate :=
  (fetch (length (requests st)) seg page,
   CState (dd st) (global_retry_list st) (max_page_with_content st)
          (total_pages_fetched st) (requests st ++ [(seg, page)])).

(** The arguments of a partition walk that [main] chooses. *)
Record walk_args : Type := WalkArgs {
  category : Z;
  subcategory : Z;
  pages_per_category : option Z;
  max_total_pages : option Z;
  max_page_cap : option Z;
  step0_last_page : option Z
}.

Definition walk_segment (a : walk_args) : segment := (category a, subcategory a).

(** [is_last], as computed after a page with fewer than [MAX_ITEMS_PER_PAGE]
    records. *)
Definition is_last (a : walk_args) (page : Z) (n : nat) : bool :=
  match step0_last_page a with
  | None => true
  | Some last => bool_decide (last <= page)
  end
  && ((n =? 0)%nat || (n <? MAX_ITEMS_PER_PAGE)%nat).

Definition total_reached (a : walk_args) (st : cstate) : bool :=
  match max_total_pages a with
  | Some m => bool_decide (m <= total_pages_fetched st)
  | None => false
  end.

(** *** The sequential walk ([_process_one_segment]) *)

Inductive flow : Type := Continue | Stop.

Record seq_local : Type := SeqLocal {
  pages_done : Z;
  page : Z;
  retry_later : list (Z * nat)
}.

Definition at_least (limit : option Z) (x : Z) : bool :=
  match limit with
  | Some m => bool_decide (m <= x)
  | None => false
  end.

Definition above (limit : option Z) (x : Z) : bool :=
  match limit with
  | Some m => bool_decide (m < x)
  | None => false
  end.

(** One iteration of the [while True] loop. *)
Definition seq_iteration (tx : taxonomy) (fetch : oracle) (a : walk_args)
    (l : seq_local) (st : cstate) : flow * seq_local * cstate :=
  if total_reached a st then (Stop, l, st)
  else if at_least (pages_per_category a) (pages_done l) then (Stop, l, st)
  else if above (max_page_cap a) (page l) then (Stop, l, st)
  else
    let (r, st1) := do_request fetch (walk_segment a) (page l) st in
    let deferred :=
      (Continue,
       SeqLocal (pages_done l) (page l + 1) (retry_later l ++ [(page l, 1%nat)]),
       st1) in
    match r with
    | None => deferred
    | Some found =>
        if (length found =? 0)%nat then deferred
        else
          let done1 := pages_done l + 1 in
          let st2 := note_content (walk_segment a) (page l) st1 in
          let st3 :=
            match max_total_pages a with
            | Some _ => bump_total st2
            | None => st2
            end in
          if total_reached a st3 then
            (Stop, SeqLocal done1 (page l) (retry_later l), st3)
          else
            let st4 :=
              set_dd (commit_found tx (category a) (subcategory a) found) st3 in
            if (length found <? MAX_ITEMS_PER_PAGE)%nat
               && is_last a (page l) (length found)
            then (Stop, SeqLocal done1 (page l) (retry_later l), st4)
            else (Continue, SeqLocal done1 (page l + 1) (retry_later l), st4)
    end.

Fixpoint seq_loop (tx : taxonomy) (fetch : oracle) (a : walk_args) (fuel : nat)
    (l : seq_local) (st : cstate) : seq_local * cstate :=
  match fuel with
  | O => (l, st)
  | S k =>
      match seq_iteration tx fetch a l st with
      | (Stop, l', st') => (l', st')
      | (Continue, l', st') => seq_loop tx fetch a k l' st'
      end
  end.

(** The page number grows by one at every iteration that continues, so with a
    page cap [cap + 1] iterations are enough (see [seq_loop_fuel]).  [main]
    always passes a cap ([segment_args]); a walk without one, which the
    source leaves to its other exits, is cut here after one iteration and is
    not what the model is for. *)
Definition walk_fuel (a : walk_args) : nat :=
  S (Z.to_nat (default 0 (max_page_cap a))).

Definition _process_one_segment (tx : taxonomy) (fetch : oracle) (a : walk_args)
    (st : cstate) : Z * cstate :=
  let (l, st') := seq_loop tx fetch a (walk_fuel a) (SeqLocal 0 1 []) st in
  (pages_done l,
   add_tickets
     (map (fun '(p, _) => (category a, subcategory a, p, 1%nat)) (retry_later l))
     st').

(** *** The parallel walk ([_worker_fetch_next_page])

    A worker is at one of these points; between two of them it runs without
    reading shared state other than under a lock. *)
Inductive worker_pc : Type :=
| AtTop                                        (* start of [while True] *)
| Claimed (page : Z)                           (* after the claim under [lock] *)
| Fetched (page : Z) (r : option listing)      (* request answered *)
| Committing (page : Z) (n : nat) (rest : listing)  (* inside [for ruid in found] *)
| Returned.

Record pstate : Type := PState {
  shared : cstate;
  next_page : Z;
  segment_done : bool;
  workers_pc : list worker_pc
}.

(** One step of one worker from its current point to the next. *)
Definition worker_step (tx : taxonomy) (fetch : oracle) (a : walk_args)
    (pc : worker_pc) (ps : pstate) : worker_pc * pstate :=
  let st := shared ps in
  let finish := (Returned, PState st (next_page ps) true (workers_pc ps)) in
  match pc with
  | AtTop =>
      if segment_done ps then (Returned, ps)
      else if total_reached a st then finish
      else if above (pages_per_category a) (next_page ps) then finish
      else if above (max_page_cap a) (next_page ps) then finish
      else (Claimed (next_page ps),
            PState st (next_page ps + 1) (segment_done ps) (workers_pc ps))
  | Claimed page =>
      if segment_done ps then (Returned, ps)
      else
        let (r, st1) := do_request fetch (walk_segment a) page st in
        (Fetched page r, PState st1 (next_page ps) (segment_done ps) (workers_pc ps))
  | Fetched page r =>
      if segment_done ps then (Returned, ps)
      else
        let deferred :=
          (AtTop,
           PState (add_tickets [(category a, subcategory a, page, 1%nat)] st)
                  (next_page ps) (segment_done ps) (workers_pc ps)) in
        match r with
        | None => deferred
        | Some found =>
            if (length found =? 0)%nat then deferred
            else
              let st2 := note_content (walk_segment a) page st in
              let st3 :=
                match max_total_pages a with
                | Some _ => bump_total st2
                | None => st2
                end in
              (Committing page (length found) found,
               PState st3 (next_page ps)
                      (segment_done ps || total_reached a st3) (workers_pc ps))
        end
  | Committing page n ((ruid, _) :: rest) =>
      (Committing page n rest,
       PState (set_dd (commit_ruid tx (category a) (subcategory a) ruid) st)
              (next_page ps) (segment_done ps) (workers_pc ps))
  | Committing page n [] =>
      (AtTop,
       PState st (next_page ps)
              (segment_done ps
               || (n <? MAX_ITEMS_PER_PAGE)%nat && is_last a page n)
              (workers_pc ps))
  | Returned => (Returned, ps)
  end.

(** Worker [w] is scheduled for one step. *)
Definition schedule_step (tx : taxonomy) (fetch : oracle) (a : walk_args)
    (ps : pstate) (w : nat) : pstate :=
  match workers_pc ps !! w with
  | None => ps
  | Some pc =>
      let (pc', ps') := worker_step tx fetch a pc ps in
      PState (shared ps') (next_page ps') (segment_done ps')
             (<[w := pc']> (workers_pc ps'))
  end.

Definition run_schedule (tx : taxonomy) (fetch : oracle) (a : walk_args)
    (sched : list nat) (ps : pstate) : pstate :=
  fold_left (schedule_step tx fetch a) sched ps.

Definition all_returned (ps : pstate) : bool :=
  forallb (fun pc => match pc with Returned => true | _ => false end)
          (workers_pc ps).

(** [_process_segment_parallel_pages]: [workers] workers run until each has
    returned.  [sched] is the interleaving of their steps; the result is
    [None] when the schedule ends before every worker has returned. *)
Definition _process_segment_parallel_pages (tx : taxonomy) (fetch : oracle)
    (a : walk_args) (workers : nat) (sched : list nat) (st : cstate)
    : option cstate :=
  let ps := run_schedule tx fetch a sched
              (PState st 1 false (replicate workers AtTop)) in
  if all_returned ps then Some (shared ps) else None.

(** *** The global retry pass *)

Definition indefinite_retry_set (st : cstate) : gset (Z * Z * Z) :=
  list_to_set
    (omap (fun t : ticket =>
             match t with
             | (cat, sub, p, _) =>
                 if bool_decide (p < default 0 (max_page_with_content st !! (cat, sub)))
                 then Some (cat, sub, p) else None
             end)
          (global_retry_list st)).

Record rstate : Type := RState {
  rs : cstate;
  retry_queue : list ticket;
  failed_indefinite_segments : gset segment
}.

(** One iteration of [while retry_queue]. *)
Definition retry_iteration (tx : taxonomy) (fetch : oracle)
    (indefinite : gset (Z * Z * Z)) (r : rstate) : rstate :=
  match retry_queue r with
  | [] => r
  | (category, subcategory, p, attempts) :: rest =>
      let st := rs r in
      let max_p := default 0 (max_page_with_content st !! (category, subcategory)) in
      if bool_decide (max_p + RETRY_PAGE_BUFFER < p) then
        RState st rest (failed_indefinite_segments r)
      else
        let is_indefinite := bool_decide ((category, subcategory, p) ∈ indefinite) in
        let max_attempts :=
          if is_indefinite then INDEFINITE_RETRY_MAX_ATTEMPTS else MAX_PAGE_ATTEMPTS in
        let (res, st1) := do_request fetch (category, subcategory) p st in
        let again :=
          if (attempts + 1 <? max_attempts)%nat then
            RState st1 (rest ++ [(category, subcategory, p, (attempts + 1)%nat)])
                   (failed_indefinite_segments r)
          else
            RState st1 rest
                   (if is_indefinite
                    then {[ (category, subcategory) ]} ∪ failed_indefinite_segments r
                    else failed_indefinite_segments r) in
        match res with
        | None => again
        | Some found =>
            if (length found =? 0)%nat then again
            else
              RState (set_dd (commit_found tx category subcategory found) st1)
                     rest (failed_indefinite_segments r)
        end
  end.

Fixpoint retry_loop (tx : taxonomy) (fetch : oracle)
    (indefinite : gset (Z * Z * Z)) (fuel : nat) (r : rstate) : rstate :=
  match fuel with
  | O => r
  | S k =>
      match retry_queue r with
      | [] => r
      | _ => retry_loop tx fetch indefinite k (retry_iteration tx fetch indefinite r)
      end
  end.

(** A ticket with [attempts] attempts behind it is dequeued at most
    [INDEFINITE_RETRY_MAX_ATTEMPTS - attempts] times, and at least once. *)
Definition ticket_budget (t : ticket) : nat :=
  Nat.max 1 (INDEFINITE_RETRY_MAX_ATTEMPTS - t.2).

Definition retry_fuel (queue : list ticket) : nat :=
  fold_right (fun t n => (ticket_budget t + n)%nat) 0%nat queue.

Definition global_retry_pass (tx : taxonomy) (fetch : oracle) (st : cstate)
    : rstate :=
  retry_loop tx fetch (indefinite_retry_set st)
             (retry_fuel (global_retry_list st))
             (RState st (global_retry_list st) ∅).

(** *** The final merge *)

Definition merge_step (name_to_seg : gmap (string * string) segment)
    (acc : gset record_key * csv_file) (row : csv_row)
    : gset record_key * csv_file :=
  match row_key name_to_seg row with
  | Some (_, k) =>
      if bool_decide (k ∈ acc.1) then acc else ({[ k ]} ∪ acc.1, acc.2 ++ [row])
  | None => acc
  end.

(** [existing] is the output file, [temp] the temp file of this run. *)
Definition merge_output (tx : taxonomy) (existing temp : csv_file) : csv_file :=
  let name_to_seg := _name_to_segment tx in
  let head_rows :=
    match existing with
    | [] => []
    | header :: _ => match header with [] => [] | _ => [header] end
    end in
  let acc1 := fold_left (merge_step name_to_seg) (tail existing) (∅, head_rows) in
  let acc2 := fold_left (merge_step name_to_seg) (tail temp) acc1 in
  acc2.2.

(** *** [main] with [--out] *)

Record arguments : Type := Args {
  categories : list Z;
  all_only : bool;
  test : bool;                 (* [--test] *)
  custom_last_pages : bool;    (* [--last-pages] given *)
  workers : Z                  (* [--workers] *)
}.

Definition segments_list (tx : taxonomy) (args : arguments)
    (last_pages : gmap segment Z) : list segment :=
  if test args && custom_last_pages args then
    merge_sort FindLastPages.segment_le
      (filter (fun s : segment => s.1 ∈ categories args)
              (map fst (map_to_list last_pages)))
  else iter_segments tx (categories args) (all_only args).

Definition segment_args (args : arguments) (seg : segment) (last : Z) : walk_args :=
  WalkArgs seg.1 seg.2 (if test args then Some 1 else None) None
           (Some (last + SKEPTICAL_PAGE_BUFFER)) (Some last).

Definition effective_workers (args : arguments) : Z :=
  Z.max 1 (Z.min (workers args) 32).

(** The loop over [segments_list]; [scheds] gives the interleaving of the
    workers for each partition and is only read when there are two or more
    workers. *)
Fixpoint walk_segments (tx : taxonomy) (fetch : oracle) (args : arguments)
    (last_pages : gmap segment Z) (scheds : segment -> list nat)
    (segs : list segment) (st : cstate) : option cstate :=
  match segs with
  | [] => Some st
  | seg :: rest =>
      match last_pages !! seg with
      | None => None
      | Some last =>
          let a := segment_args args seg last in
          let st' :=
            if bool_decide (effective_workers args <= 1) then
              Some (snd (_process_one_segment tx fetch a st))
            else
              _process_segment_parallel_pages tx fetch a
                (Z.to_nat (effective_workers args)) (scheds seg) st in
          match st' with
          | None => None
          | Some st' => walk_segments tx fetch args last_pages scheds rest st'
          end
      end
  end.

(** [{(r, c) for (r, c, s) in seen}] *)
Definition ruid_cat_pairs (seen : gset record_key) : gset (string * Z) :=
  set_map (fun k : record_key => (k.1.1, k.1.2)) seen.

(** [seen] at start-up: loaded from the output file when it exists. *)
Definition initial_seen (tx : taxonomy) (existing : option csv_file)
    : gset record_key :=
  match existing with
  | Some file => load_existing_ruids_from_csv tx file
  | None => ∅
  end.

Definition initial_state (tx : taxonomy) (existing : option csv_file) : cstate :=
  let seen0 := initial_seen tx existing in
  CState (Dedup seen0 (ruid_cat_pairs seen0) [] []) [] ∅ 0 [].

Record run : Type := Run {
  output : csv_file;             (* the output file when [main] returns *)
  primary : cstate;              (* state after the primary walks *)
  retried : rstate               (* state after the global retry pass *)
}.

(** [main] in CSV mode.  [last_pages] is what [load_last_pages] returned and
    [existing] the output file found at start-up, if any.  [None] is
    [sys.exit(1)] (or a schedule that stops short). *)
Definition main_csv (tx : taxonomy) (fetch : oracle) (args : arguments)
    (last_pages : gmap segment Z) (scheds : segment -> list nat)
    (existing : option csv_file) : option run :=
  let segs := segments_list tx args last_pages in
  if negb (forallb (fun s => bool_decide (is_Some (last_pages !! s))) segs) then None
  else if negb (forallb (fun s => bool_decide (1 <= default 0 (last_pages !! s))) segs)
  then None
  else
    match walk_segments tx fetch args last_pages scheds segs
            (initial_state tx existing) with
    | None => None
    | Some st =>
        let r := global_retry_pass tx fetch st in
        let temp := CSV_COLUMNS :: temp_rows (dd (rs r)) in
        let out :=
          match existing with
          | Some file => merge_output tx file temp
          | None => temp
          end in
        Some (Run out st r)
    end.

(** *** [main] without [--out] (stdout mode) *)

Record stdout_state : Type := StdoutState {
  all_ruids : gmap string string;
  stdout_requests : list (segment * Z)
}.

Definition note_ruid (all : gmap string string) (item : string * string)
    : gmap string string :=
  let (ruid, ext) := item in
  match all !! ruid with
  | None => <[ruid := ext]> all
  | Some old =>
      if Text.is_empty old && negb (Text.is_empty ext) then <[ruid := ext]> all
      else all
  end.

(** The [while True] loop for one partition.  Nothing bounds the page number
    here, so the loop is unrolled [fuel] times and [None] stands for a loop
    that is still running. *)
Fixpoint stdout_loop (fetch : oracle) (seg : segment)
    (pages_per_category : option Z) (fuel : nat) (pages_done page : Z)
    (s : stdout_state) : option stdout_state :=
  match fuel with
  | O => None
  | S k =>
      if at_least pages_per_category pages_done then Some s
      else
        let r := fetch (length (stdout_requests s)) seg page in
        let s1 := StdoutState (all_ruids s) (stdout_requests s ++ [(seg, page)]) in
        match r with
        | None => Some s1
        | Some found =>
            if (length found =? 0)%nat then Some s1
            else
              let s2 :=
                StdoutState (fold_left note_ruid found (all_ruids s1))
                            (stdout_requests s1) in
              if (length found <? MAX_ITEMS_PER_PAGE)%nat then Some s2
              else stdout_loop fetch seg pages_per_category k
                               (pages_done + 1) (page + 1) s2
        end
  end.

(** The [for category, subcategory in segments_list] loop of lines 1144 to
    1170, over a given list of partitions. *)
Fixpoint stdout_segments (fetch : oracle) (test_mode : bool) (fuel : nat)
    (segs : list segment) (s : stdout_state) : option stdout_state :=
  match segs with
  | [] => Some s
  | seg :: rest =>
      match stdout_loop fetch seg (if test_mode then Some 1 else None) fuel 0 1 s with
      | None => None
      | Some s' => stdout_segments fetch test_mode fuel rest s'
      end
  end.

(** An exception that leaves [main]. *)
Inductive exception : Type :=
| UnboundLocalError (name : string).

(** [main] without [--out], from line 1139 on: the state when [main] is left,
    and the exception that leaves it, if any; [None] is a walk that is still
    running when the fuel is spent.  [segments_list] is a local variable of
    [main] that only the [if csv_mode:] block assigns (lines 855 and 857).
    Without [--out] that block is skipped, so the name is still unbound when
    line 1144 reads it: Python raises [UnboundLocalError] there, with
    [all_ruids] empty and no request issued, and the loop over the
    partitions is not entered. *)
Definition main_stdout (fetch : oracle) (test_mode : bool) (fuel : nat)
    : option (stdout_state * option exception) :=
  let all_ruids0 := StdoutState ∅ [] in
  let segments_list : option (list segment) := None in
  match segments_list with
  | None => Some (all_ruids0, Some (UnboundLocalError "segments_list"))
  | Some segs =>
      match stdout_segments fetch test_mode fuel segs all_ruids0 with
      | Some s => Some (s, None)
      | None => None
      end
  end.

End Collect.

(** ** Step 2: enrichment ([steps/2-enrich.py]) *)

Module Enrich.

Definition CSV_COLUMNS : list string :=
  ["RUID"; "Category"; "Subcategory"; "Date"; "Format"; "Tags"]%string.

Definition _normalize_ruid (ruid : string) : string :=
  if Text.is_empty ruid then ""%string
  else
    let hex_only := Text.filter_hex (Text.lower (Text.strip ruid)) in
    if (32 <=? String.length hex_only)%nat then Text.last_n 32 hex_only
    else hex_only.

(** A row as the code holds it: [{k: row.get(k, "") for k in CSV_COLUMNS}].
    A value that [csv.DictReader] leaves at [None] (short line) is read and
    written like the empty string everywhere, and is modelled by it. *)
Record row : Type := Row {
  RUID : string;
  Category : string;
  Subcategory : string;
  Date : string;
  Format : string;
  Tags : string
}.

Definition detail : Type := string * string * string.   (* date, format, tags *)
Definition row_id : Type := string * string * string.   (* ruid, category, subcategory *)

Definition _row_key (r : row) : row_id :=
  (_normalize_ruid (RUID r), Text.strip (Category r), Text.strip (Subcategory r)).

(** [a or b]: the first operand unless it is empty. *)
Definition or_else (a b : string) : string := if Text.is_empty a then b else a.

Definition _row_has_enrichment (r : row) : bool :=
  negb (Text.is_empty
          (Text.strip (or_else (Date r) (or_else (Format r) (or_else (Tags r) ""))))).

(** *** Files

    A file is the list of lines [csv.reader] yields, each the list of its
    fields; [csv.DictReader] takes the first as [fieldnames], skips empty
    lines and pairs the fields of the others with the field names. *)
Definition csv_file : Type := list (list string).

Definition field (i : nat) (line : list string) : string := default ""%string (line !! i).

Definition dict_row (line : list string) : row :=
  Row (field 0 line) (field 1 line) (field 2 line)
      (field 3 line) (field 4 line) (field 5 line).

Definition line_of (r : row) : list string :=
  [RUID r; Category r; Subcategory r; Date r; Format r; Tags r].

(** [None] when [fieldnames] is not [CSV_COLUMNS]. *)
Definition dict_reader (file : csv_file) : option (list row) :=
  match file with
  | header :: lines =>
      if bool_decide (header = CSV_COLUMNS) then
        Some (map dict_row (filter (fun l => l ≠ []) lines))
      else None
  | [] => None
  end.

Definition _load_existing_output (file : option csv_file)
    : gset row_id * gmap row_id row :=
  match file with
  | None => (∅, ∅)
  | Some f =>
      match dict_reader f with
      | None => (∅, ∅)
      | Some rows =>
          fold_left
            (fun acc r =>
               let key := _row_key r in
               (if _row_has_enrichment r then {[ key ]} ∪ acc.1 else acc.1,
                <[key := r]> acc.2))
            rows (∅, ∅)
      end
  end.

(** The row [_write_row] hands to [csv.writer].  A 3-tuple is truthy whatever
    it holds, so [if info] only tells [None] from a tuple. *)
Definition _write_row (r : row) (info : option detail)
    (output_rows_dict : gmap row_id row) : row :=
  match info with
  | Some (date_str, format_str, tags_str) =>
      Row (RUID r) (Category r) (Subcategory r) date_str format_str tags_str
  | None =>
      match output_rows_dict !! _row_key r with
      | Some existing => if _row_has_enrichment existing then existing else r
      | None => r
      end
  end.

(** *** The writer thread *)

Record writer_state : Type := WriterState {
  enriched : gmap string detail;
  next_row : nat;
  written : list row          (* rows handed to [csv.writer], oldest first *)
}.

(** The inner [while next_row < len(rows)] loop; [pending] is
    [rows[next_row:]]. *)
Fixpoint drain (output_rows_dict : gmap row_id row) (pending : list row)
    (w : writer_state) : writer_state :=
  match pending with
  | [] => w
  | r :: rest =>
      match enriched w !! _normalize_ruid (RUID r) with
      | None => w
      | Some info =>
          drain output_rows_dict rest
            (WriterState (enriched w) (S (next_row w))
               (written w ++ [_write_row r (Some info) output_rows_dict]))
      end
  end.

(** The final [while next_row < len(rows)] loop, after the sentinel. *)
Fixpoint flush_rest (output_rows_dict : gmap row_id row) (pending : list row)
    (w : writer_state) : writer_state :=
  match pending with
  | [] => w
  | r :: rest =>
      flush_rest output_rows_dict rest
        (WriterState (enriched w) (S (next_row w))
           (written w
            ++ [_write_row r (enriched w !! _normalize_ruid (RUID r)) output_rows_dict]))
  end.

(** The queue as the writer consumes it: [Some item] is a result dict,
    [None] the sentinel [_WRITER_DONE].  The result is [None] when the queue
    runs dry before the sentinel (the writer blocks in [get]). *)
Fixpoint consume (rows : list row) (output_rows_dict : gmap row_id row)
    (queue : list (option (gmap string detail))) (w : writer_state)
    : option writer_state :=
  match queue with
  | [] => None
  | None :: _ => Some (flush_rest output_rows_dict (drop (next_row w) rows) w)
  | Some item :: rest =>
      let w1 := WriterState (item ∪ enriched w) (next_row w) (written w) in
      consume rows output_rows_dict rest
        (drain output_rows_dict (drop (next_row w1) rows) w1)
  end.

(** *** File-system effects *)

Inductive fs_op : Type :=
| Create (path : string)                        (* [mkstemp] / [open(path, "w")] *)
| Append (path : string) (line : list string)   (* [writer.writerow] *)
| Replace (src dst : string)                    (* [os.replace] *)
| Unlink (path : string).

Definition file_system : Type := gmap string csv_file.

Definition apply_op (fs : file_system) (op : fs_op) : file_system :=
  match op with
  | Create p => <[p := []]> fs
  | Append p line => <[p := default [] (fs !! p) ++ [line]]> fs
  | Replace src dst =>
      match fs !! src with
      | Some content => <[dst := content]> (delete src fs)
      | None => fs
      end
  | Unlink p => delete p fs
  end.

Definition apply_ops (fs : file_system) (ops : list fs_op) : file_system :=
  fold_left apply_op ops fs.

(** [_writer_worker]: the effects on the file system, in order.  [temp_path]
    is the name [mkstemp] picked. *)
Definition _writer_worker (queue : list (option (gmap string detail)))
    (rows : list row) (temp_path output_path : string)
    (output_rows_dict : gmap row_id row) : option (list fs_op) :=
  match consume rows output_rows_dict queue (WriterState ∅ 0 []) with
  | None => None
  | Some w =>
      Some (Create temp_path :: Append temp_path CSV_COLUMNS
            :: map (fun r => Append temp_path (line_of r)) (written w)
            ++ [Replace temp_path output_path])
  end.

(** *** [main] *)

Record options : Type := Options {
  force : bool;
  limit : option nat;
  limit_per_category : option Z
}.

Record loading : Type := Loading {
  rows : list row;
  unique_needed : list string;
  seen_ruid : gset string;
  category_counts : gmap string Z;
  stopped : bool                    (* the [break] on [--limit] was taken *)
}.

(** The body of [for row in reader] over the input file. *)
Definition load_input_row (opts : options) (already_enriched : gset row_id)
    (acc : loading) (r : row) : loading :=
  if stopped acc then acc
  else if match limit opts with
          | Some n => (n <=? length (rows acc))%nat
          | None => false
          end
  then Loading (rows acc) (unique_needed acc) (seen_ruid acc) (category_counts acc) true
  else
    let cat := Text.strip (Category r) in
    let count := default 0 (category_counts acc !! cat) in
    if match limit_per_category opts with
       | Some n => bool_decide (n <= count)
       | None => false
       end
    then acc
    else
      let counts :=
        match limit_per_category opts with
        | Some _ => <[cat := count + 1]> (category_counts acc)
        | None => category_counts acc
        end in
      let rows1 := rows acc ++ [r] in
      let ruid := _normalize_ruid (RUID r) in
      let keep := Loading rows1 (unique_needed acc) (seen_ruid acc) counts false in
      let need :=
        if bool_decide (ruid ∈ seen_ruid acc) then keep
        else Loading rows1 (unique_needed acc ++ [ruid]) ({[ ruid ]} ∪ seen_ruid acc)
                     counts false in
      if Text.is_empty ruid || (String.length ruid <? 32)%nat then keep
      else if force opts then need
      else if bool_decide (_row_key r ∈ already_enriched) then keep
      else need.

Definition load_input (opts : options) (already_enriched : gset row_id)
    (input : list row) : loading :=
  fold_left (load_input_row opts already_enriched) input (Loading [] [] ∅ ∅ false).

(** The detail API for one record id: [None] when [fetch_one] ends with an
    empty result. *)
Definition fetch_one (api : string -> option detail) (ruid : string)
    : gmap string detail :=
  if Text.is_empty ruid || (String.length (_normalize_ruid ruid) <? 32)%nat then ∅
  else
    match api ruid with
    | Some info => {[ _normalize_ruid ruid := info ]}
    | None => ∅
    end.

(** What reaches the queue with a single fetcher: the non-empty results in the
    order of [unique_needed], then the sentinel. *)
Definition sequential_queue (api : string -> option detail)
    (unique_needed : list string) : list (option (gmap string detail)) :=
  map Some (filter (fun item : gmap string detail => item ≠ ∅)
                   (map (fetch_one api) unique_needed))
  ++ [None].

(** [main] from the loading of the output file on.  [input] is the input file
    (its header is [CSV_COLUMNS], checked before), [queue] what the fetchers
    and [main] put on the result queue.  The result is the list of effects on
    the file system, [None] when the writer never gets the sentinel. *)
Definition main (opts : options) (input : list row) (fs : file_system)
    (temp_path output_path : string)
    (queue : list (option (gmap string detail))) : option (list fs_op) :=
  let existing := fs !! output_path in
  let (already_enriched, output_rows_dict) := _load_existing_output existing in
  let l := load_input opts already_enriched input in
  match unique_needed l with
  | [] =>
      match existing with
      | Some _ => Some []
      | None =>
          Some (Create output_path :: Append output_path CSV_COLUMNS
                :: map (fun r => Append output_path (line_of r)) (rows l))
      end
  | _ => _writer_worker queue (rows l) temp_path output_path output_rows_dict
  end.

End Enrich.

(** ** Vocabulary of the properties *)

Module Notions.

(** What a page request came back with, as the end-of-partition policy sees
    it: a failed fetch or no record at all, fewer records than the nominal
    page size, or a full page. *)
Inductive page_kind : Type := Bad | Partial | Full.

Definition kind_of (r : option Collect.listing) : page_kind :=
  match r with
  | None => Bad
  | Some found =>
      if (length found =? 0)%nat then Bad
      else if (length found <? Collect.MAX_ITEMS_PER_PAGE)%nat then Partial
      else Full
  end.

Definition is_stop (f : Collect.flow) : bool :=
  match f with Collect.Stop => true | Collect.Continue => false end.

(** The pages [page], [page + 1], ..., [page + k - 1] of a partition. *)
Definition pages_from (seg : Collect.segment) (page : Z) (k : nat)
    : list (Collect.segment * Z) :=
  map (fun i => (seg, page + Z.of_nat i)) (seq 0 k).

(** The locked region run for a list of (category, subcategory, record id),
    in order. *)
Definition replay (tx : Collect.taxonomy) (cs : list (Z * Z * string))
    (d : Collect.dedup) : Collect.dedup :=
  fold_left (fun d '(c, s, r) => Collect.commit_ruid tx c s r d) cs d.

(** The row written for a key. *)
Definition row_of (tx : Collect.taxonomy) (k : Collect.record_key)
    : Collect.csv_row :=
  let names := Collect.get_category_and_subcategory_names tx k.1.2 k.2 in
  [k.1.1; names.1; names.2; ""; ""; ""]%string.

(** The deduplication state [d] of a run that started with [seen0] and wrote
    the rows of the keys [ks], in this order. *)
Record consistent (tx : Collect.taxonomy) (seen0 : gset Collect.record_key)
    (d : Collect.dedup) (ks : list Collect.record_key) : Prop := Consistent {
  pairs_follow : Collect.seen_per_ruid_cat d = Collect.ruid_cat_pairs (Collect.seen d);
  rows_follow : Collect.temp_rows d = map (row_of tx) ks;
  written_once : NoDup ks;
  seen_grows : Collect.seen d = seen0 ∪ list_to_set ks;
  written_new : forall k, k ∈ ks -> k ∉ seen0;
  attempts_seen : forall c s r,
    (c, s, r) ∈ Collect.attempts d ->
    if s =? -1 then (r, c) ∈ Collect.seen_per_ruid_cat d
    else (r, c, s) ∈ Collect.seen d;
  written_attempted : forall r c s,
    (r, c, s) ∈ ks -> (c, s, r) ∈ Collect.attempts d;
  catch_all_first : forall r c,
    (r, c, -1) ∈ ks ->
    exists pre post,
      Collect.attempts d = pre ++ (c, -1, r) :: post
      /\ forall s', (c, s', r) ∉ pre
}.

(** The run state [st] with the deduplication state replaced by [d]. *)
Definition with_dd (d : Collect.dedup) (st : Collect.cstate) : Collect.cstate :=
  Collect.CState d (Collect.global_retry_list st) (Collect.max_page_with_content st)
                 (Collect.total_pages_fetched st) (Collect.requests st).

(** The state [ps] of a parallel walk with the deduplication state replaced
    by [d]. *)
Definition ps_with_dd (d : Collect.dedup) (ps : Collect.pstate) : Collect.pstate :=
  Collect.PState (with_dd d (Collect.shared ps)) (Collect.next_page ps)
                 (Collect.segment_done ps) (Collect.workers_pc ps).

(** The record id that a step of a worker at [pc] takes to the locked
    region, if any. *)
Definition step_attempt (a : Collect.walk_args) (pc : Collect.worker_pc)
    : list (Z * Z * string) :=
  match pc with
  | Collect.Committing _ _ ((ruid, _) :: _) =>
      [(Collect.category a, Collect.subcategory a, ruid)]
  | _ => []
  end.

(** A record id as the extraction yields it: 32 lower-case hex digits. *)
Definition ruid_ok (r : string) : bool :=
  Text.all_hex r && (String.length r =? 32)%nat.

Definition listing_ok (found : Collect.listing) : Prop :=
  Forall (fun it : string * string => ruid_ok it.1 = true) found.

Definition oracle_ok (fetch : Collect.oracle) : Prop :=
  forall n seg page found, fetch n seg page = Some found -> listing_ok found.

(** A record id reaches the locked region under a partition of the run. *)
Definition attempt_ok (segs : list Collect.segment) (a : Z * Z * string) : Prop :=
  (a.1.1, a.1.2) ∈ segs /\ ruid_ok a.2 = true.

Definition tickets_ok (segs : list Collect.segment) (ts : list Collect.ticket)
    : Prop :=
  Forall (fun t : Collect.ticket => (t.1.1.1, t.1.1.2) ∈ segs) ts.

(** The listing a worker holds comes from the service. *)
Definition pc_ok (pc : Collect.worker_pc) : Prop :=
  match pc with
  | Collect.Fetched _ (Some found) => listing_ok found
  | Collect.Committing _ _ rest => listing_ok rest
  | _ => True
  end.

(** The key under which the final merge files a row of a CSV file. *)
Definition key_of (tx : Collect.taxonomy) (row : Collect.csv_row)
    : option Collect.record_key :=
  snd <$> Collect.row_key (Collect._name_to_segment tx) row.

(** The number of rows of a file with a given key. *)
Definition count_key (tx : Collect.taxonomy) (k : Collect.record_key)
    (rows : list (list string)) : nat :=
  length (filter (fun row => key_of tx row = Some k) rows).

(** The names written for a partition are free of surrounding white space
    and lead back to the partition. *)
Definition names_ok (tx : Collect.taxonomy) (seg : Collect.segment) : Prop :=
  let names := Collect.get_category_and_subcategory_names tx seg.1 seg.2 in
  Text.strip names.1 = names.1
  /\ Text.strip names.2 = names.2
  /\ Collect._name_to_segment tx !! names = Some seg.

Definition taxonomy_ok (tx : Collect.taxonomy) (segs : list Collect.segment)
    : Prop :=
  forall seg, seg ∈ segs -> names_ok tx seg.

(** The output file found at start-up, if any, begins with the header. *)
Definition valid_output (existing : option Collect.csv_file) : Prop :=
  match existing with
  | None => True
  | Some file => exists h rows, file = h :: rows /\ Collect.header_ok h = true
  end.

(** The keys of the data rows of the output file found at start-up. *)
Definition existing_keys (tx : Collect.taxonomy) (existing : option Collect.csv_file)
    : list Collect.record_key :=
  match existing with
  | Some file => omap (key_of tx) (tail file)
  | None => []
  end.

(** The locked region skips this record id in the state [d]. *)
Definition covered (d : Collect.dedup) (a : Z * Z * string) : Prop :=
  if a.1.2 =? -1 then (a.2, a.1.1) ∈ Collect.seen_per_ruid_cat d
  else (a.2, a.1.1, a.1.2) ∈ Collect.seen d.

(** How many of date, format and tags a row has non-empty. *)
Definition filled (r : Enrich.row) : nat :=
  length (filter (fun v : string => v ≠ ""%string)
                 [Enrich.Date r; Enrich.Format r; Enrich.Tags r]).

(** The queue of the writer: results in their order of arrival, then the
    sentinel, then whatever else. *)
Definition arrivals (items : list (gmap string Enrich.detail))
    (rest : list (option (gmap string Enrich.detail)))
    : list (option (gmap string Enrich.detail)) :=
  map Some items ++ None :: rest.

(** The detail used for a row arrived on the queue, under the normalised
    record id of the row. *)
Definition sourced (items : list (gmap string Enrich.detail)) (r : Enrich.row)
    (info : option Enrich.detail) : Prop :=
  forall v, info = Some v ->
    exists item, item ∈ items /\ item !! Enrich._normalize_ruid (Enrich.RUID r) = Some v.

(** An output row stands for an input row: it is what [_write_row] makes of
    it for a detail that arrived (or for none), and it has the same key. *)
Definition written_for (d : gmap Enrich.row_id Enrich.row)
    (items : list (gmap string Enrich.detail)) (r o : Enrich.row) : Prop :=
  (exists info, o = Enrich._write_row r info d /\ sourced items r info)
  /\ Enrich._row_key o = Enrich._row_key r.

(** Every entry of the writer's [enriched] dict arrived on the queue. *)
Definition from_items (items : list (gmap string Enrich.detail))
    (m : gmap string Enrich.detail) : Prop :=
  forall k v, m !! k = Some v -> exists item, item ∈ items /\ item !! k = Some v.

(** Every row of the dict loaded from the output file sits under its own
    key. *)
Definition keyed (d : gmap Enrich.row_id Enrich.row) : Prop :=
  forall k e, d !! k = Some e -> Enrich._row_key e = k.

(** The rows before [next_row] are written, one output row each, in order. *)
Definition in_step (d : gmap Enrich.row_id Enrich.row)
    (items : list (gmap string Enrich.detail)) (rows : list Enrich.row)
    (w : Enrich.writer_state) : Prop :=
  exists done pending,
    rows = done ++ pending
    /\ length done = Enrich.next_row w
    /\ Forall2 (written_for d items) done (Enrich.written w)
    /\ from_items items (Enrich.enriched w).

(** An effect that touches the file at [p] and no other. *)
Definition touches_only (p : string) (op : Enrich.fs_op) : Prop :=
  match op with
  | Enrich.Create q | Enrich.Append q _ | Enrich.Unlink q => q = p
  | Enrich.Replace _ _ => False
  end.

End Notions.

(** ** Example inputs *)

Module Fixtures.

(** The example of the design: pages 1 to 42 have data, the others none. *)
Definition pages_1_to_42 (page : Z) : nat := if page <=? 42 then 7%nat else 0%nat.

(** A boundary table with one row, for a partition that is not re-run. *)
Definition audioclip_row : FindLastPages.table_row :=
  FindLastPages.TableRow (Some 1) (Some (-1)) (Some "audioclip") (Some "all") (Some 9).

(** A taxonomy with one category, one specific subcategory and the
    catch-all. *)
Definition sprites : Collect.taxonomy :=
  Collect.Taxonomy [(0, "sprite")] [(0, [(5, "object"); (-1, "all")])].

Definition ruid_a : string := "0123456789abcdef0123456789abcdef".
Definition ruid_b : string := "1123456789abcdef0123456789abcdef".

(** A run with two workers over the partitions of [sprites]. *)
Definition two_workers : Collect.arguments := Collect.Args [0] false false false 2.
Definition one_worker : Collect.arguments := Collect.Args [0] false false false 1.

(** A service whose partition (0, 5) has one record on page 1 and fails on
    page 2. *)
Definition second_page_fails : Collect.oracle :=
  fun _ seg page =>
    if bool_decide (seg = (0, 5)) && (page =? 1) then Some [(ruid_a, "png")]
    else None.

(** Worker 0 claims page 1, worker 1 claims and requests page 2; worker 0
    then requests page 1, commits it and marks the partition done before
    worker 1 looks at its answer. *)
Definition page_1_finishes_first : list nat :=
  [0; 1; 1; 0; 0; 0; 0; 0; 1]%nat.

(** A service whose partition (0, 5) has one record on each of its two pages
    and whose catch-all partition lists the first of them again. *)
Definition two_pages : Collect.oracle :=
  fun _ seg page =>
    if bool_decide (seg = (0, 5)) then
      if page =? 1 then Some [(ruid_a, "png")]
      else if page =? 2 then Some [(ruid_b, "png")]
      else Some []
    else if page =? 1 then Some [(ruid_a, "png")] else Some [].

(** The same records on one page per partition, the first request of the
    run failing. *)
Definition first_request_fails : Collect.oracle :=
  fun n seg page =>
    if (n =? 0)%nat then None
    else if page =? 1 then Some [(ruid_a, "png")] else Some [].

(** Boundaries of the discovery phase for the two services. *)
Definition two_page_hints : gmap Collect.segment Z := <[(0, 5) := 2]> (<[(0, -1) := 1]> ∅).
Definition one_page_hints : gmap Collect.segment Z := <[(0, 5) := 1]> (<[(0, -1) := 1]> ∅).

(** Round-robin between two workers. *)
Definition round_robin : list nat :=
  [0; 1; 0; 1; 0; 1; 0; 1; 0; 1; 0; 1; 0; 1; 0; 1]%nat.

(** Two workers claim pages 1 and 2 of a partition; in the first schedule
    page 2 is committed before the answer of page 1 is looked at, in the
    second page 1 is committed first. *)
Definition page_2_commits_first : Collect.segment -> list nat :=
  fun _ => ([0; 1; 0; 1; 1; 1; 1] ++ round_robin)%nat.
Definition page_1_commits_first : Collect.segment -> list nat :=
  fun _ => ([0; 1; 0; 0; 0; 0] ++ round_robin)%nat.

(** Two workers claim pages 1 and 2 of a partition.  In the first schedule
    page 2 is requested, then page 1 is requested, committed and ends the
    partition before the answer of page 2 is looked at.  In the second both
    answers are looked at before either page is committed. *)
Definition later_page_in_flight : Collect.segment -> list nat :=
  fun _ => ([0; 1; 1; 0; 0; 0; 0] ++ round_robin)%nat.
Definition both_pages_examined : Collect.segment -> list nat :=
  fun _ => ([0; 1; 0; 1; 1; 0; 1; 0; 1; 0] ++ round_robin)%nat.

(** An input with the same record id under two categories, and an output
    file in which the first of the two rows is enriched. *)
Definition two_categories : list Enrich.row :=
  [Enrich.Row ruid_a "sprite" "object" "" "" "";
   Enrich.Row ruid_a "audioclip" "all" "" "" ""].

Definition enriched_line : list string :=
  [ruid_a; "sprite"; "object"; "2020-01-01"; "png"; "tree"].

Definition disk : Enrich.file_system :=
  {[ "out.csv"%string := [Enrich.CSV_COLUMNS; enriched_line] ]}.

Definition defaults : Enrich.options := Enrich.Options false None None.

(** What the writer writes for [two_categories] when the detail of the
    record carries a date only. *)
Definition date_only_lines : list (list string) :=
  [[ruid_a; "sprite"; "object"; "2021-05-05"; ""; ""];
   [ruid_a; "audioclip"; "all"; "2021-05-05"; ""; ""]].

Definition date_only_effects : list Enrich.fs_op :=
  Enrich.Create "tmp.csv" :: Enrich.Append "tmp.csv" Enrich.CSV_COLUMNS
  :: map (Enrich.Append "tmp.csv") date_only_lines
  ++ [Enrich.Replace "tmp.csv" "out.csv"].

(** A run with [--force] over the enriched row alone, and what it writes
    when the detail of the record carries a date only. *)
Definition forced : Enrich.options := Enrich.Options true None None.

Definition one_category : list Enrich.row :=
  [Enrich.Row ruid_a "sprite" "object" "" "" ""].

Definition refetched_line : list string :=
  [ruid_a; "sprite"; "object"; "2021-05-05"; ""; ""].

Definition refetched_effects : list Enrich.fs_op :=
  [Enrich.Create "tmp.csv"; Enrich.Append "tmp.csv" Enrich.CSV_COLUMNS;
   Enrich.Append "tmp.csv" refetched_line; Enrich.Replace "tmp.csv" "out.csv"].

(** The detail API now knows the modification time of the record only. *)
Definition date_only : string -> option Enrich.detail :=
  fun _ => Some ("2021-05-05"%string, ""%string, ""%string).

End Fixtures.

(** ** The boundary table between step 0 and step 1 *)

Module LastPages.
Import FindLastPages.

(** What [csv.DictReader] yields for a line that step 0 wrote with
    [csv.writer]: the five columns are present and the three integers read
    back as written. *)
Definition read_back (w : written_row) : table_row :=
  let '(cid, sid, cat_name, sub_name, last) := w in
  TableRow (Some cid) (Some sid) (Some cat_name) (Some sub_name) (Some last).

(** The exceptions [load_last_pages] of [1-collect.py] raises. *)
Inductive error : Type :=
| FileNotFound                                   (* [FileNotFoundError] *)
| InvalidRow (row : table_row)                   (* [ValueError], row not parsed *)
| InvalidLastPage (last cid sid : Z).            (* [ValueError], [last < 1] *)

(** The body of [for row in r]; the first offending row raises. *)
Fixpoint load_rows (rows : list table_row) (out : gmap segment Z)
    : error + gmap segment Z :=
  match rows with
  | [] => inr out
  | row :: rest =>
      match category_id row, subcategory_id row, last_page row with
      | Some cid, Some sid, Some last =>
          if last <? 1 then inl (InvalidLastPage last cid sid)
          else load_rows rest (<[(cid, sid) := last]> out)
      | _, _, _ => inl (InvalidRow row)
      end
  end.

(** [load_last_pages]; [file] is [None] when [os.path.isfile(path)] is
    false. *)
Definition load_last_pages (file : option (list table_row))
    : error + gmap segment Z :=
  match file with
  | None => inl FileNotFound
  | Some rows => load_rows rows ∅
  end.

End LastPages.

(** ** More vocabulary of the properties *)

Module Shapes.

(** The partitions of one category, as the body of the loop of
    [iter_segments] appends them. *)
Definition category_block (tx : Collect.taxonomy) (c : Z) (all_only : bool)
    : list Collect.segment :=
  let subs := Collect.subs_of tx c in
  let all := if Collect.dict_has (-1) subs then [(c, -1)] else [] in
  if all_only then all
  else
    map (fun sub => (c, sub))
        (merge_sort Z.le (filter (fun sid => sid ≠ -1) (map fst subs)))
    ++ all.

(** A taxonomy as a well-formed [category_subcategories.json] gives it: ids
    are distinct (they are [dict] keys), names are distinct and free of
    surrounding white space, and a specific subcategory is not named like
    the catch-all. *)
Record well_formed (tx : Collect.taxonomy) : Prop := WellFormed {
  category_ids_distinct : NoDup (map fst (Collect.CATEGORY_NAMES tx));
  category_names_distinct : NoDup (map snd (Collect.CATEGORY_NAMES tx));
  category_names_stripped :
    forall c n, (c, n) ∈ Collect.CATEGORY_NAMES tx -> Text.strip n = n;
  sub_ids_distinct : forall c, NoDup (map fst (Collect.subs_of tx c));
  sub_names_distinct : forall c, NoDup (map snd (Collect.subs_of tx c));
  sub_names_stripped :
    forall c s n, (s, n) ∈ Collect.subs_of tx c -> Text.strip n = n;
  sub_names_specific :
    forall c s n, (s, n) ∈ Collect.subs_of tx c -> s ≠ -1 ->
                  n ≠ ""%string /\ n ≠ "all"%string
}.

(** The page a worker has claimed and not yet requested. *)
Definition claimed_page (pc : Collect.worker_pc) : option Z :=
  match pc with
  | Collect.Claimed p => Some p
  | _ => None
  end.

(** The state of a parallel walk that started with the requests [before]:
    [pages] are the pages requested since, in order. *)
Definition walked (a : Collect.walk_args) (before : list (Collect.segment * Z))
    (pages : list Z) (ps : Collect.pstate) : Prop :=
  Collect.requests (Collect.shared ps)
  = before ++ map (fun p => (Collect.walk_segment a, p)) pages
  /\ 1 <= Collect.next_page ps
  /\ NoDup (pages ++ omap claimed_page (Collect.workers_pc ps))
  /\ forall p, p ∈ pages ++ omap claimed_page (Collect.workers_pc ps) ->
        1 <= p < Collect.next_page ps
        /\ Collect.above (Collect.max_page_cap a) p = false
        /\ Collect.above (Collect.pages_per_category a) p = false.

(** The ids to fetch follow the rows taken from the input so far. *)
Definition needed_for (opts : Enrich.options) (already_enriched : gset Enrich.row_id)
    (acc : Enrich.loading) : Prop :=
  (forall u, u ∈ Enrich.seen_ruid acc <-> u ∈ Enrich.unique_needed acc)
  /\ NoDup (Enrich.unique_needed acc)
  /\ forall u,
       u ∈ Enrich.unique_needed acc
       <-> exists r,
             r ∈ Enrich.rows acc
             /\ u = Enrich._normalize_ruid (Enrich.RUID r)
             /\ (32 <= String.length u)%nat
             /\ (Enrich.force opts = true \/ Enrich._row_key r ∉ already_enriched).

End Shapes.

(** ** More example inputs *)

Module Samples.

(** The start of a run in which page 1 of partition (0, 5) was deferred. *)
Definition deferred_page : Collect.cstate :=
  Collect.add_tickets [(0, 5, 1, 1%nat)] (Collect.initial_state Fixtures.sprites None).

(** A taxonomy with two categories, the second with a catch-all only. *)
Definition two_kinds : Collect.taxonomy :=
  Collect.Taxonomy [(0, "sprite"); (1, "audioclip")]
                   [(0, [(5, "object"); (-1, "all")]); (1, [(-1, "all")])].

(** A boundary table with one row. *)
Definition one_row_table : list FindLastPages.table_row :=
  [FindLastPages.TableRow (Some 0) (Some 5) (Some "sprite") (Some "object") (Some 42)].

End Samples.

(** ** Formats from API paths ([_format_from_path] of [steps/2-enrich.py]) *)

Module Paths.

(** [c in s] for a one-character [c]. *)
Fixpoint contains (c : ascii) (s : string) : bool :=
  match s with
  | EmptyString => false
  | String d r => Ascii.eqb c d || contains c r
  end.

(** [s.split(c)[-1]], which is also [s.rsplit(c, 1)[-1]]: the text after the
    last [c], all of [s] when it has none. *)
Fixpoint after_last (c : ascii) (s : string) : string :=
  match s with
  | EmptyString => EmptyString
  | String d r =>
      if contains c r then after_last c r
      else if Ascii.eqb c d then r
      else String d r
  end.

Definition _format_from_path (path : string) : string :=
  if Text.is_empty path then ""%string
  else
    let segment := after_last "/" path in
    if contains "." segment then Text.lower (after_last "." segment)
    else ""%string.

End Paths.

(** * Properties *)

(** ** Text *)

Section TextFacts.
Import Text.

Lemma is_empty_true s : is_empty s = true <-> s = "".
Proof. destruct s; simpl; split; congruence. Qed.

Lemma is_hex_not_space c : is_hex c = true -> is_space c = false.
Proof.
  unfold is_hex, is_space. intros H.
  apply orb_true_iff in H.
  apply orb_false_iff; split; apply andb_false_iff;
    destruct H as [H|H]; apply andb_true_iff in H as [H1 H2];
    apply Nat.leb_le in H1, H2;
    ((left; apply Nat.leb_gt; lia) || (right; apply Nat.leb_gt; lia)).
Qed.

Lemma is_hex_lower c : is_hex c = true -> lower_ascii c = c.
Proof.
  unfold is_hex, lower_ascii. intros H.
  destruct (((65 <=? nat_of_ascii c) && (nat_of_ascii c <=? 90))%nat) eqn:E;
    [|reflexivity].
  apply andb_true_iff in E as [E1 E2]. apply Nat.leb_le in E1, E2.
  apply orb_true_iff in H as [H|H]; apply andb_true_iff in H as [H1 H2];
    apply Nat.leb_le in H1, H2; lia.
Qed.

Lemma all_hex_lower s : all_hex s = true -> lower s = s.
Proof.
  induction s as [|c r IH]; simpl; [reflexivity|].
  intros H. apply andb_true_iff in H as [Hc Hr].
  rewrite (is_hex_lower c Hc), (IH Hr). reflexivity.
Qed.

Lemma all_hex_lstrip s : all_hex s = true -> lstrip s = s.
Proof.
  destruct s as [|c r]; simpl; [reflexivity|].
  intros H. apply andb_true_iff in H as [Hc _].
  rewrite (is_hex_not_space c Hc). reflexivity.
Qed.

Lemma all_hex_rstrip s : all_hex s = true -> rstrip s = s.
Proof.
  induction s as [|c r IH]; simpl; [reflexivity|].
  intros H. apply andb_true_iff in H as [Hc Hr].
  rewrite (IH Hr). destruct r; [|reflexivity].
  rewrite (is_hex_not_space c Hc). reflexivity.
Qed.

Lemma all_hex_strip s : all_hex s = true -> strip s = s.
Proof.
  intros H. unfold strip. rewrite (all_hex_lstrip s H). apply all_hex_rstrip, H.
Qed.

End TextFacts.

(** ** Boundary discovery *)

Section Discovery.
Import FindLastPages.

Variable f : Z -> nat.

Lemma single_attempt_deterministic page n :
  fetch_page_with_retries (deterministic f) page 1 n = (f page, S n).
Proof.
  unfold fetch_page_with_retries, bind, request, ret, deterministic.
  destruct (f page); reflexivity.
Qed.

(** With a deterministic service the binary search ends on a page [c] of the
    range that either is the lower end or has data, and either is the upper
    end or is followed by an empty page. *)
Lemma binary_search_loop_deterministic fuel : forall low high n,
  low <= high -> (Z.to_nat (high - low) <= fuel)%nat ->
  exists c n',
    binary_search_loop (deterministic f) fuel low high n = ((c, c), n')
    /\ low <= c <= high
    /\ (c = low \/ (0 < f c)%nat)
    /\ (c = high \/ f (c + 1) = 0%nat).
Proof.
  induction fuel as [|k IH]; intros low high n Hle Hfuel.
  - assert (low = high) by lia. subst. exists high, n. simpl.
    repeat split; auto; lia.
  - cbn [binary_search_loop]. destruct (low <? high) eqn:Hlt.
    + apply Z.ltb_lt in Hlt.
      set (mid := (low + high + 1) / 2).
      assert (low < mid <= high) as Hmid.
      { unfold mid. split.
        - apply Z.lt_le_trans with (low + 1); [lia|].
          apply Z.div_le_lower_bound; lia.
        - apply Z.div_le_upper_bound; lia. }
      unfold bind. rewrite single_attempt_deterministic.
      destruct (0 <? f mid)%nat eqn:Hdata.
      * apply Nat.ltb_lt in Hdata.
        destruct (IH mid high (S n)) as (c & n' & Heq & Hc & Hlo & Hhi); [lia|lia|].
        exists c, n'. rewrite Heq. repeat split; try lia; auto.
        right. destruct Hlo as [->|]; auto.
      * apply Nat.ltb_ge in Hdata.
        destruct (IH low (mid - 1) (S n)) as (c & n' & Heq & Hc & Hlo & Hhi); [lia|lia|].
        exists c, n'. rewrite Heq. repeat split; try lia; auto.
        right. destruct Hhi as [->|]; auto.
        replace (mid - 1 + 1) with mid by lia. lia.
    + apply Z.ltb_ge in Hlt. assert (low = high) by lia. subst.
      exists high, n. unfold ret. repeat split; auto; lia.
Qed.

Lemma confirm_loop_step k attempt c first_empty n :
  confirm_loop (deterministic f) (S k) attempt c first_empty n
  = if (0 <? f c)%nat && (f (c + 1) =? 0)%nat then
      (Return (Some c), S (S n))
    else if (f c =? 0)%nat && (attempt =? CONFIRM_ATTEMPTS - 1)%nat then
      (Return (if 1 <? c then Some (c - 1) else None), S (S n))
    else if (0 <? f (c + 1))%nat then
      (Break (c + 1) (first_empty - 1), S (S n))
    else confirm_loop (deterministic f) k (S attempt) c first_empty (S (S n)).
Proof.
  cbn [confirm_loop]. unfold bind.
  rewrite !single_attempt_deterministic.
  destruct ((0 <? f c)%nat && (f (c + 1) =? 0)%nat); [reflexivity|].
  destruct ((f c =? 0)%nat && (attempt =? CONFIRM_ATTEMPTS - 1)%nat); [reflexivity|].
  destruct (0 <? f (c + 1))%nat; reflexivity.
Qed.

(** The three ways the confirmation loop ends with a deterministic service. *)
Lemma confirm_loop_deterministic c first_empty n :
  exists n',
    confirm_loop (deterministic f) CONFIRM_ATTEMPTS 0 c first_empty n
    = (if (0 <? f c)%nat && (f (c + 1) =? 0)%nat then Return (Some c)
       else if (0 <? f (c + 1))%nat then Break (c + 1) (first_empty - 1)
       else Return (if 1 <? c then Some (c - 1) else None),
       n').
Proof.
  unfold CONFIRM_ATTEMPTS. rewrite confirm_loop_step.
  destruct ((0 <? f c)%nat && (f (c + 1) =? 0)%nat) eqn:Hok;
    [eexists; reflexivity|].
  change (0 =? CONFIRM_ATTEMPTS - 1)%nat with false. rewrite andb_false_r.
  destruct (0 <? f (c + 1))%nat eqn:Hnext; [eexists; reflexivity|].
  rewrite confirm_loop_step, Hok, Hnext.
  change (1 =? CONFIRM_ATTEMPTS - 1)%nat with false. rewrite andb_false_r.
  rewrite confirm_loop_step, Hok, Hnext.
  change (2 =? CONFIRM_ATTEMPTS - 1)%nat with true. rewrite andb_true_r.
  apply Nat.ltb_ge in Hnext. assert (f (c + 1) = 0%nat) as Hn0 by lia.
  rewrite Hn0, andb_true_r in Hok. apply Nat.ltb_ge in Hok.
  replace (f c =? 0)%nat with true by (symmetry; apply Nat.eqb_eq; lia).
  eexists; reflexivity.
Qed.

(** C2 (amended).  With a deterministic service, a page [L] returned by
    [phase2_binary_search_to_last] either is confirmed (it has data and
    [L + 1] has none) or is the upper end [first_empty - 1] of the search
    range, whose successor [first_empty] answered with data. *)
Theorem phase2_deterministic_result first_empty n L n' :
  phase2_binary_search_to_last (deterministic f) first_empty n = (Some L, n') ->
  ((0 < f L)%nat /\ f (L + 1) = 0%nat)
  \/ (L = first_empty - 1 /\ (0 < f first_empty)%nat).
Proof.
  unfold phase2_binary_search_to_last.
  destruct (first_empty - 1 <? 1) eqn:Hhigh; [discriminate|].
  apply Z.ltb_ge in Hhigh.
  unfold max_outer. cbn [outer_loop]. unfold bind, binary_search.
  destruct (binary_search_loop_deterministic
              (Z.to_nat (first_empty - 1 - 1)) 1 (first_empty - 1) n)
    as (c & n1 & Heq & Hc & Hlo & Hhi); [lia|lia|].
  rewrite Heq. cbn [fst].
  destruct (confirm_loop_deterministic c first_empty n1) as (n2 & Hconf).
  rewrite Hconf. clear Hconf Heq.
  destruct ((0 <? f c)%nat && (f (c + 1) =? 0)%nat) eqn:Hok.
  - unfold ret. intros [= <- _]. left.
    apply andb_true_iff in Hok as [H1 H2].
    apply Nat.ltb_lt in H1. apply Nat.eqb_eq in H2. auto.
  - destruct (0 <? f (c + 1))%nat eqn:Hnext.
    + apply Nat.ltb_lt in Hnext.
      destruct Hhi as [->|Hz]; [|lia].
      replace (first_empty - 1 <? first_empty - 1 + 1) with true
        by (symmetry; apply Z.ltb_lt; lia).
      unfold ret. intros [= <- _]. right. split; [reflexivity|].
      replace (first_empty - 1 + 1) with first_empty in Hnext by lia. exact Hnext.
    + apply Nat.ltb_ge in Hnext.
      assert (f (c + 1) = 0%nat) as Hn0 by lia.
      rewrite Hn0 in Hok. rewrite andb_true_r in Hok. apply Nat.ltb_ge in Hok.
      destruct Hlo as [->|Hpos]; [|lia].
      unfold ret. cbn. discriminate.
Qed.

End Discovery.

Lemma phase2_deterministic_result_witness :
  ((0 < Fixtures.pages_1_to_42 42)%nat /\ Fixtures.pages_1_to_42 (42 + 1) = 0%nat)
  \/ (42 = 500 - 1 /\ (0 < Fixtures.pages_1_to_42 500)%nat).
Proof.
  apply (phase2_deterministic_result Fixtures.pages_1_to_42 500 0 42 11).
  vm_compute. reflexivity.
Defined.

(** C2 as stated fails: on a partition whose pages all have data and whose
    size estimate is one page, phase 1 finds no empty probe and reports
    [max_page + PROBE_STEP = 501]; phase 2 then returns 500 although the
    confirming fetch of 501 yielded a record. *)
Lemma phase2_unconfirmed_boundary :
  FindLastPages.find_last_page (FindLastPages.deterministic (fun _ => 1%nat)) 1 0%nat
    = (Some 500, 11%nat)
  /\ ~ (forall (f : Z -> nat) (first_empty : Z) (n : nat) (L : Z) (n' : nat),
          FindLastPages.phase2_binary_search_to_last (FindLastPages.deterministic f) first_empty n
            = (Some L, n') ->
          (0 < f L)%nat /\ f (L + 1) = 0%nat).
Proof.
  split; [vm_compute; reflexivity|].
  intros H.
  destruct (H (fun _ => 1%nat) 501 0%nat 500 11%nat) as [_ Hnext].
  - vm_compute. reflexivity.
  - discriminate Hnext.
Qed.

(** ** The boundary table *)

Section BoundaryTable.
Import FindLastPages.

Lemma load_row_other m r k :
  row_segment r ≠ Some k -> load_row m r !! k = m !! k.
Proof.
  unfold load_row, row_segment.
  destruct (category_id r) as [cid|], (subcategory_id r) as [sid|],
    (last_page r) as [last|]; try reflexivity.
  intros Hne. apply lookup_insert_ne. intros Heq. apply Hne. rewrite Heq. reflexivity.
Qed.

Lemma load_rows_lookup rows : forall m cid sid cn sn last,
  let r := TableRow (Some cid) (Some sid) (Some cn) (Some sn) (Some last) in
  r ∈ rows ->
  (forall r', r' ∈ rows -> row_segment r' = Some (cid, sid) -> r' = r) ->
  fold_left load_row rows m !! (cid, sid) = Some (cn, sn, last).
Proof.
  induction rows as [|x l IH] using rev_ind; intros m cid sid cn sn last r Hin Huniq.
  - inversion Hin.
  - rewrite fold_left_app. cbn [fold_left].
    destruct (decide (row_segment x = Some (cid, sid))) as [Hx|Hx].
    + assert (x = r) as -> by (apply Huniq; [set_solver|exact Hx]).
      unfold load_row, r. cbn. apply lookup_insert_eq.
    + rewrite load_row_other by exact Hx.
      apply IH.
      * apply elem_of_app in Hin as [Hin|Hin]; [exact Hin|].
        apply list_elem_of_singleton in Hin. subst x. exfalso. apply Hx. reflexivity.
      * intros r' Hr'. apply Huniq. set_solver.
Qed.

Lemma update_existing_other results : forall m k,
  k ∉ map (fun '(c, s, _, _, _) => (c, s)) results ->
  update_existing m results !! k = m !! k.
Proof.
  unfold update_existing.
  induction results as [|[[[[c s] cn] sn] l] rest IH]; intros m k Hk; [reflexivity|].
  cbn [fold_left]. rewrite IH by set_solver.
  apply lookup_insert_ne. set_solver.
Qed.

Lemma discover_keys fetch api_total segs : forall results n res n',
  discover fetch api_total segs results n = (Some res, n') ->
  map (fun '(c, s, _, _, _) => (c, s)) res
  = map (fun '(c, s, _, _, _) => (c, s)) results
    ++ map (fun '(c, s, _, _) => (c, s)) segs.
Proof.
  induction segs as [|[[[c s] cn] sn] rest IH]; intros results n res n' H.
  - cbn in H. unfold ret in H. injection H as <- _. rewrite app_nil_r. reflexivity.
  - cbn [discover] in H. unfold bind in H.
    destruct (find_last_page _ _ n) as [[l|] n1]; [|discriminate].
    apply IH in H. rewrite H, map_app, <- app_assoc. reflexivity.
Qed.

Lemma write_table_lookup m k cn sn last :
  m !! k = Some (cn, sn, last) -> (k.1, k.2, cn, sn, last) ∈ write_table m.
Proof.
  intros Hk. unfold write_table. apply list_elem_of_omap.
  exists k. rewrite Hk. split; [|reflexivity].
  unfold sorted_keys. rewrite merge_sort_Permutation.
  apply list_elem_of_fmap. exists (k, (cn, sn, last)). split; [reflexivity|].
  apply elem_of_map_to_list. exact Hk.
Qed.

(** C9.  When [main] rewrites the boundary table, the row of the previous
    table for a partition that this run does not process is in the new table,
    with the same names and the same last page. *)
Theorem rewrite_keeps_unrelated_rows test fetch api_total segments rows new
    cid sid cn sn last :
  main test fetch api_total segments (Some rows) = Some new ->
  TableRow (Some cid) (Some sid) (Some cn) (Some sn) (Some last) ∈ rows ->
  (forall r', r' ∈ rows -> row_segment r' = Some (cid, sid) ->
              r' = TableRow (Some cid) (Some sid) (Some cn) (Some sn) (Some last)) ->
  (cid, sid) ∉ processed test segments ->
  (cid, sid, cn, sn, last) ∈ new.
Proof.
  intros Hmain Hin Huniq Hout.
  unfold main in Hmain.
  set (segs := if test then TEST_SEGMENTS else segments) in *.
  assert (exists results,
             map (fun '(c, s, _, _, _) => (c, s)) results
             = map (fun '(c, s, _, _) => (c, s)) segs
             /\ new = write_table
                        (update_existing (load_existing_last_pages (Some rows)) results))
    as (results & Hkeys & ->).
  { destruct test.
    - exists (map (fun '(c, s, cn, sn) => (c, s, cn, sn, 1)) segs). split.
      + rewrite map_map. apply map_ext. intros [[[c s] a] b]. reflexivity.
      + destruct segs; [discriminate|]. injection Hmain as <-. reflexivity.
    - destruct (discover fetch api_total segs [] 0%nat) as [[res|] n'] eqn:Hd.
      + exists res. split; [apply discover_keys in Hd; exact Hd|].
        destruct segs; [discriminate|]. cbn [fst] in Hmain.
        injection Hmain as <-. reflexivity.
      + destruct segs; discriminate. }
  apply (write_table_lookup _ (cid, sid)).
  rewrite update_existing_other.
  - cbn [load_existing_last_pages]. apply load_rows_lookup; assumption.
  - rewrite Hkeys. exact Hout.
Qed.

End BoundaryTable.

Lemma rewrite_keeps_unrelated_rows_witness :
  (1, -1, "audioclip", "all", 9)
  ∈ [(0, 5, "sprite", "object", 42); (1, -1, "audioclip", "all", 9)].
Proof.
  apply (rewrite_keeps_unrelated_rows false
           (fun _ _ => Fixtures.pages_1_to_42) (fun _ => Some 100)
           [(0, 5, "sprite", "object")] [Fixtures.audioclip_row]).
  - vm_compute. reflexivity.
  - apply list_elem_of_singleton. reflexivity.
  - intros r' Hr' _. apply list_elem_of_singleton in Hr'. exact Hr'.
  - vm_compute. intros H. apply list_elem_of_singleton in H. discriminate H.
Defined.

(** ** The retry pass *)

Section RetryPass.
Import Collect.

(** C3 (amended).  A dequeued ticket for page [p] is dropped, with no request
    and no other change, exactly when [p] exceeds the largest page of its
    partition that yielded records in the primary walk by more than
    [RETRY_PAGE_BUFFER] = 20; any other ticket costs exactly one request for
    [p].  The retry pass never updates the largest page with content. *)
Theorem retry_ticket_dropped_iff tx fetch indefinite st c s p attempts rest failed :
  let r' := retry_iteration tx fetch indefinite
              (RState st ((c, s, p, attempts) :: rest) failed) in
  let max_p := default 0 (max_page_with_content st !! (c, s)) in
  RETRY_PAGE_BUFFER = 20
  /\ (r' = RState st rest failed <-> max_p + RETRY_PAGE_BUFFER < p)
  /\ requests (rs r')
     = requests st
       ++ (if bool_decide (max_p + RETRY_PAGE_BUFFER < p) then [] else [((c, s), p)])
  /\ max_page_with_content (rs r') = max_page_with_content st.
Proof.
  cbn zeta. unfold retry_iteration. cbn [retry_queue rs failed_indefinite_segments].
  set (max_p := default 0 (max_page_with_content st !! (c, s))).
  split; [reflexivity|].
  destruct (bool_decide (max_p + RETRY_PAGE_BUFFER < p)) eqn:Hdrop.
  - apply bool_decide_eq_true in Hdrop. cbn [rs]. rewrite app_nil_r. tauto.
  - apply bool_decide_eq_false in Hdrop.
    unfold do_request.
    set (st1 := CState _ _ _ _ _).
    assert (forall r'' : rstate,
               requests (rs r'') = requests st ++ [((c, s), p)] ->
               max_page_with_content (rs r'') = max_page_with_content st ->
               (r'' = RState st rest failed <-> max_p + RETRY_PAGE_BUFFER < p)
               /\ requests (rs r'') = requests st ++ [((c, s), p)]
               /\ max_page_with_content (rs r'') = max_page_with_content st) as Hgen.
    { intros r'' Hreq Hmax.
      repeat split; try tauto; try congruence.
      intros ->. cbn in Hreq. apply (f_equal length) in Hreq.
      rewrite length_app in Hreq. cbn in Hreq. lia. }
    destruct (fetch (length (requests st)) (c, s) p) as [found|].
    + destruct (length found =? 0)%nat.
      * destruct (attempts + 1 <? _)%nat; apply Hgen; reflexivity.
      * apply Hgen; reflexivity.
    + destruct (attempts + 1 <? _)%nat; apply Hgen; reflexivity.
Qed.

End RetryPass.

(** C3 as stated fails: the buffer of the retry pass is not the skeptical
    buffer of 10 pages.  A ticket for page 15 of a partition without any page
    with content is retried. *)
Lemma retry_buffer_counterexample :
  ~ (forall tx fetch indefinite st c s p attempts rest failed,
        Collect.retry_iteration tx fetch indefinite
          (Collect.RState st ((c, s, p, attempts) :: rest) failed)
        = Collect.RState st rest failed
        <-> default 0 (Collect.max_page_with_content st !! (c, s))
            + Collect.SKEPTICAL_PAGE_BUFFER < p).
Proof.
  intros H.
  pose proof (proj2 (H Fixtures.sprites (fun _ _ _ => None) ∅
                       (Collect.initial_state Fixtures.sprites None)
                       0 5 15 1%nat [] ∅)) as Hdrop.
  assert (default 0 (Collect.max_page_with_content
                       (Collect.initial_state Fixtures.sprites None) !! (0, 5))
          + Collect.SKEPTICAL_PAGE_BUFFER < 15) as Hlt by (vm_compute; reflexivity).
  apply Hdrop in Hlt.
  apply (f_equal (fun r => length (Collect.requests (Collect.rs r)))) in Hlt.
  vm_compute in Hlt. discriminate Hlt.
Qed.

(** ** The end-of-partition policy *)

Section PagePolicy.
Import Collect Notions.

(** C1 (amended).  In a run with an output file, with [last] the discovery
    hint of partition [(c, s)]:
    - in the sequential walk, a page whose fetch fails or yields no record is
      put on the retry list and the walk goes on with the next page number; a
      page with 1 to 149 records ends the walk exactly when its number is at
      least [last]; a full page never ends it;
    - a worker of the parallel walk that examines an answer while the
      partition is not marked done does the same: a failed or empty page gives
      a ticket and the worker goes back to claim the next page, and after
      committing a page with 1 to 149 records it marks the partition done
      exactly when the page number is at least [last].
    Nothing is said of an answer that arrives after the partition was marked
    done. *)
Theorem page_outcome tx fetch args c s last l st ps wpage wr :
  at_least (if test args then Some 1 else None) (pages_done l) = false ->
  page l <= last + SKEPTICAL_PAGE_BUFFER ->
  segment_done ps = false ->
  let a := segment_args args (c, s) last in
  let it := seq_iteration tx fetch a l st in
  match kind_of (fetch (length (requests st)) (c, s) (page l)) with
  | Bad =>
      it = (Continue,
            SeqLocal (pages_done l) (page l + 1) (retry_later l ++ [(page l, 1%nat)]),
            (do_request fetch (c, s) (page l) st).2)
  | Partial => is_stop it.1.1 = bool_decide (last <= page l)
  | Full => is_stop it.1.1 = false
  end
  /\ match kind_of wr with
     | Bad =>
         worker_step tx fetch a (Fetched wpage wr) ps
         = (AtTop,
            PState (add_tickets [(c, s, wpage, 1%nat)] (shared ps))
                   (next_page ps) false (workers_pc ps))
     | Partial =>
         exists found ps',
           wr = Some found
           /\ worker_step tx fetch a (Fetched wpage wr) ps
              = (Committing wpage (length found) found, ps')
           /\ segment_done ps' = false
           /\ segment_done
                (worker_step tx fetch a (Committing wpage (length found) []) ps).2
              = bool_decide (last <= wpage)
     | Full =>
         exists found ps',
           wr = Some found
           /\ worker_step tx fetch a (Fetched wpage wr) ps
              = (Committing wpage (length found) found, ps')
           /\ segment_done ps' = false
           /\ segment_done
                (worker_step tx fetch a (Committing wpage (length found) []) ps).2
              = false
     end.
Proof.
  intros Hppc Hcap Hdone a it. split.
  - subst it. unfold seq_iteration, kind_of.
    change (total_reached a st) with false. cbn iota.
    change (pages_per_category a) with (if test args then Some 1 else None).
    rewrite Hppc.
    change (max_page_cap a) with (Some (last + SKEPTICAL_PAGE_BUFFER)).
    unfold above. rewrite bool_decide_eq_false_2 by lia.
    change (walk_segment a) with (c, s).
    unfold do_request. cbn [snd].
    destruct (fetch (length (requests st)) (c, s) (page l)) as [found|];
      [|reflexivity].
    destruct (length found =? 0)%nat eqn:Hzero; [reflexivity|].
    change (max_total_pages a) with (@None Z). cbn iota.
    match goal with |- context [total_reached a ?x] =>
      change (total_reached a x) with false end.
    cbn iota.
    unfold is_last. change (step0_last_page a) with (Some last).
    rewrite Hzero. cbn [orb].
    destruct (length found <? MAX_ITEMS_PER_PAGE)%nat eqn:Hlt; cbn [andb].
    + destruct (bool_decide (last <= page l)); reflexivity.
    + reflexivity.
  - unfold kind_of.
    destruct wr as [found|]; [|unfold worker_step; rewrite Hdone; reflexivity].
    destruct (length found =? 0)%nat eqn:Hzero;
      [unfold worker_step; rewrite Hdone, Hzero; reflexivity|].
    assert (worker_step tx fetch a (Fetched wpage (Some found)) ps
            = (Committing wpage (length found) found,
               PState (note_content (c, s) wpage (shared ps)) (next_page ps)
                      false (workers_pc ps))) as Hstep.
    { unfold worker_step. rewrite Hdone, Hzero. reflexivity. }
    assert (segment_done
              (worker_step tx fetch a (Committing wpage (length found) []) ps).2
            = (length found <? MAX_ITEMS_PER_PAGE)%nat && bool_decide (last <= wpage))
      as Hfinal.
    { unfold worker_step, is_last. cbn [snd segment_done]. rewrite Hdone, Hzero.
      change (step0_last_page a) with (Some last). cbn [orb].
      destruct (length found <? MAX_ITEMS_PER_PAGE)%nat,
        (bool_decide (last <= wpage)); reflexivity. }
    destruct (length found <? MAX_ITEMS_PER_PAGE)%nat eqn:Hlt;
      eexists found, _; (split; [reflexivity|]); (split; [exact Hstep|]);
      (split; [reflexivity|]); rewrite Hfinal; reflexivity.
Qed.

End PagePolicy.

Lemma page_outcome_witness :
  (Notions.is_stop
     (Collect.seq_iteration Fixtures.sprites Fixtures.second_page_fails
        (Collect.segment_args Fixtures.one_worker (0, 5) 1)
        (Collect.SeqLocal 0 1 []) (Collect.initial_state Fixtures.sprites None)).1.1
   = true)
  /\ Collect.worker_step Fixtures.sprites Fixtures.second_page_fails
       (Collect.segment_args Fixtures.one_worker (0, 5) 1)
       (Collect.Fetched 2 None)
       (Collect.PState (Collect.initial_state Fixtures.sprites None) 3 false [])
     = (Collect.AtTop,
        Collect.PState
          (Collect.add_tickets [(0, 5, 2, 1%nat)]
             (Collect.initial_state Fixtures.sprites None))
          3 false []).
Proof.
  apply (page_outcome Fixtures.sprites Fixtures.second_page_fails
           Fixtures.one_worker 0 5 1 (Collect.SeqLocal 0 1 [])
           (Collect.initial_state Fixtures.sprites None)
           (Collect.PState (Collect.initial_state Fixtures.sprites None) 3 false [])
           2 None).
  - reflexivity.
  - vm_compute. discriminate.
  - reflexivity.
Defined.

(** C1 as stated fails in the parallel walk: page 2 is requested, its fetch
    fails, and the worker drops the answer without a ticket because the
    partition was marked done while the request was in flight. *)
Lemma in_flight_page_dropped :
  ~ (forall tx fetch a workers sched st st',
        Collect._process_segment_parallel_pages tx fetch a workers sched st = Some st' ->
        forall (i : nat) page,
          Collect.requests st' !! i = Some (Collect.walk_segment a, page) ->
          (length (Collect.requests st) <= i)%nat ->
          Notions.kind_of (fetch i (Collect.walk_segment a) page) = Notions.Bad ->
          (Collect.category a, Collect.subcategory a, page, 1%nat)
          ∈ Collect.global_retry_list st').
Proof.
  intros H.
  specialize (H Fixtures.sprites Fixtures.second_page_fails
                (Collect.segment_args Fixtures.two_workers (0, 5) 1)
                2%nat Fixtures.page_1_finishes_first
                (Collect.initial_state Fixtures.sprites None)).
  vm_compute Collect._process_segment_parallel_pages in H.
  specialize (H _ eq_refl 0%nat 2).
  cbn in H. specialize (H eq_refl (Nat.le_refl 0) eq_refl).
  inversion H.
Qed.

(** ** Stdout mode *)

Section StdoutMode.
Import Collect Notions.

Variable fetch : oracle.
Variable seg : segment.
Variable per_category : option Z.

Lemma pages_from_S page k :
  pages_from seg page (S k) = (seg, page) :: pages_from seg (page + 1) k.
Proof.
  unfold pages_from. cbn [seq map]. rewrite Z.add_0_r. f_equal.
  rewrite <- seq_shift, map_map. apply map_ext. intros i. f_equal. lia.
Qed.

(** The [while True] loop of stdout mode for one partition (lines 1145 to
    1170) has no retry list and requests consecutive pages.  When it
    returns, a requested page whose fetch failed or yielded no record is the
    last page it requested; as long as it has not returned, every page
    requested so far was a full page, so the loop does return at the first
    failed or empty page.  [main] never gets to this loop, see
    [main_stdout]. *)
Lemma stdout_loop_ends_at_bad_page fuel : forall pages_done page s,
  match stdout_loop fetch seg per_category fuel pages_done page s with
  | Some s' =>
      exists k,
        stdout_requests s' = stdout_requests s ++ pages_from seg page k
        /\ forall i, (i < k)%nat ->
             kind_of (fetch (length (stdout_requests s) + i)%nat seg
                            (page + Z.of_nat i)) = Bad ->
             S i = k
  | None =>
      forall i, (i < fuel)%nat ->
        kind_of (fetch (length (stdout_requests s) + i)%nat seg
                       (page + Z.of_nat i)) = Full
  end.
Proof.
  induction fuel as [|k IH]; intros pages_done page s.
  - cbn. intros i Hi. lia.
  - cbn [stdout_loop].
    destruct (at_least per_category pages_done) eqn:Hppc.
    { exists 0%nat. split; [unfold pages_from; cbn; rewrite app_nil_r; reflexivity|].
      intros i Hi. lia. }
    assert (forall s1 : stdout_state,
               stdout_requests s1 = stdout_requests s ++ [(seg, page)] ->
               exists k0,
                 stdout_requests s1 = stdout_requests s ++ pages_from seg page k0
                 /\ forall i, (i < k0)%nat ->
                      kind_of (fetch (length (stdout_requests s) + i)%nat seg
                                     (page + Z.of_nat i)) = Bad ->
                      S i = k0) as Hone.
    { intros s1 Hreq. exists 1%nat. split.
      - rewrite Hreq, pages_from_S. reflexivity.
      - intros i Hi _. lia. }
    destruct (fetch (length (stdout_requests s)) seg page) as [found|] eqn:Hfetch;
      [|apply Hone; reflexivity].
    destruct (length found =? 0)%nat eqn:Hzero; [apply Hone; reflexivity|].
    destruct (length found <? MAX_ITEMS_PER_PAGE)%nat eqn:Hlt;
      [apply Hone; reflexivity|].
    assert (kind_of (fetch (length (stdout_requests s) + 0)%nat seg
                           (page + Z.of_nat 0)) = Full) as Hfull.
    { cbn [Z.of_nat]. rewrite Nat.add_0_r, Z.add_0_r, Hfetch.
      unfold kind_of. rewrite Hzero, Hlt. reflexivity. }
    set (s2 := StdoutState _ _).
    assert (forall j,
               kind_of (fetch (length (stdout_requests s2) + j)%nat seg
                              (page + 1 + Z.of_nat j))
               = kind_of (fetch (length (stdout_requests s) + S j)%nat seg
                                (page + Z.of_nat (S j)))) as Hshift.
    { intros j. subst s2. cbn [stdout_requests]. rewrite length_app. cbn [length].
      replace (length (stdout_requests s) + 1 + j)%nat
        with (length (stdout_requests s) + S j)%nat by lia.
      replace (page + 1 + Z.of_nat j) with (page + Z.of_nat (S j)) by lia.
      reflexivity. }
    specialize (IH (pages_done + 1) (page + 1) s2).
    destruct (stdout_loop fetch seg per_category k (pages_done + 1) (page + 1) s2)
      as [s'|] eqn:Hrec.
    + destruct IH as (k' & Hreq & Hbad).
      exists (S k'). split.
      * rewrite Hreq, pages_from_S. subst s2. cbn [stdout_requests].
        rewrite <- app_assoc. reflexivity.
      * intros i Hi Hkind. destruct i as [|j]; [congruence|].
        rewrite <- Hshift in Hkind. apply Hbad in Hkind; lia.
    + intros i Hi. destruct i as [|j]; [exact Hfull|].
      rewrite <- Hshift. apply IH. lia.
Qed.

End StdoutMode.

(** C10.  A run without [--out] ends in [UnboundLocalError] on
    [segments_list], whatever the service would answer and with or without
    [--test]: no page has been requested and no record id collected, and no
    partition is walked, although the loop that follows would stop at the
    first failed or empty page ([stdout_loop_ends_at_bad_page]). *)
Theorem stdout_mode_raises (fetch : Collect.oracle) (test_mode : bool) (fuel : nat) :
  exists s,
    Collect.main_stdout fetch test_mode fuel
    = Some (s, Some (Collect.UnboundLocalError "segments_list"))
    /\ Collect.stdout_requests s = []
    /\ Collect.all_ruids s = ∅.
Proof.
  exists (Collect.StdoutState ∅ []). split; [reflexivity|]. split; reflexivity.
Qed.

(** ** The enrichment writer *)

Section Writer.
Import Enrich Notions.

Lemma keyed_empty : keyed ∅.
Proof. intros k e H. rewrite lookup_empty in H. discriminate. Qed.

Lemma load_existing_output_keyed file : keyed (_load_existing_output file).2.
Proof.
  unfold _load_existing_output.
  destruct file as [f|]; [|exact keyed_empty].
  destruct (dict_reader f) as [rows|]; [|exact keyed_empty].
  assert (forall (acc : gset row_id * gmap row_id row),
             keyed acc.2 ->
             keyed (fold_left
                      (fun acc r =>
                         let key := _row_key r in
                         (if _row_has_enrichment r then {[ key ]} ∪ acc.1 else acc.1,
                          <[key := r]> acc.2))
                      rows acc).2) as Hfold.
  { induction rows as [|r rest IH]; intros acc Hacc; [exact Hacc|].
    cbn [fold_left]. apply IH. cbn [snd]. intros k e Hk.
    destruct (decide (_row_key r = k)) as [<-|Hne].
    - rewrite lookup_insert_eq in Hk. congruence.
    - rewrite lookup_insert_ne in Hk by exact Hne. apply Hacc. exact Hk. }
  apply Hfold. exact keyed_empty.
Qed.

(** The dict loaded from the output file holds, for each key, the last row of
    the file with that key. *)
Lemma load_existing_output_last file out_rows k :
  dict_reader file = Some out_rows ->
  (_load_existing_output (Some file)).2 !! k
  = last (filter (fun x => _row_key x = k) out_rows).
Proof.
  intros Hread. unfold _load_existing_output. rewrite Hread.
  assert (forall (acc : gset row_id * gmap row_id row),
             (fold_left
                (fun acc r =>
                   let key := _row_key r in
                   (if _row_has_enrichment r then {[ key ]} ∪ acc.1 else acc.1,
                    <[key := r]> acc.2))
                out_rows acc).2 !! k
             = match last (filter (fun x => _row_key x = k) out_rows) with
               | Some e => Some e
               | None => acc.2 !! k
               end) as Hfold.
  { clear Hread. induction out_rows as [|r rest IH]; intros acc; [reflexivity|].
    cbn [fold_left]. rewrite IH. cbn [snd]. rewrite filter_cons.
    destruct (decide (_row_key r = k)) as [Hk|Hk].
    - destruct (filter (fun x => _row_key x = k) rest) as [|x l] eqn:Hrest.
      + cbn. rewrite <- Hk. apply lookup_insert_eq.
      + change (last (r :: x :: l)) with (last (x :: l)).
        destruct (last (x :: l)) as [e|] eqn:Hlast; [reflexivity|].
        apply last_None in Hlast. discriminate Hlast.
    - destruct (last (filter (fun x => _row_key x = k) rest)); [reflexivity|].
      apply lookup_insert_ne. exact Hk. }
  rewrite Hfold. cbn [snd]. rewrite lookup_empty.
  destruct (last (filter (fun x => _row_key x = k) out_rows)); reflexivity.
Qed.

Lemma write_row_key d r info : keyed d -> _row_key (_write_row r info d) = _row_key r.
Proof.
  intros Hd. unfold _write_row.
  destruct info as [[[date fmt] tags]|]; [reflexivity|].
  destruct (d !! _row_key r) as [e|] eqn:He; [|reflexivity].
  destruct (_row_has_enrichment e); [|reflexivity].
  apply Hd. exact He.
Qed.

Lemma write_row_written_for d items r info :
  keyed d -> sourced items r info -> written_for d items r (_write_row r info d).
Proof.
  intros Hd Hsrc. split; [exists info; split; [reflexivity|exact Hsrc]|].
  apply write_row_key, Hd.
Qed.

Lemma from_items_lookup items (w : writer_state) r :
  from_items items (enriched w) ->
  sourced items r (enriched w !! _normalize_ruid (RUID r)).
Proof. intros Hfrom v Hv. apply Hfrom. exact Hv. Qed.

Lemma in_step_pending (rows : list row) (w : writer_state) done pending :
  rows = done ++ pending -> length done = next_row w ->
  drop (next_row w) rows = pending.
Proof. intros -> <-. apply drop_app_length. Qed.

Lemma drain_in_step d items pending : forall done w,
  keyed d ->
  length done = next_row w ->
  Forall2 (written_for d items) done (written w) ->
  from_items items (enriched w) ->
  in_step d items (done ++ pending) (drain d pending w).
Proof.
  induction pending as [|r rest IH]; intros done w Hd Hlen Hall Hfrom.
  - exists done, []. auto.
  - cbn [drain].
    destruct (enriched w !! _normalize_ruid (RUID r)) as [info|] eqn:Hinfo.
    + replace (done ++ r :: rest) with ((done ++ [r]) ++ rest)
        by (rewrite <- app_assoc; reflexivity).
      apply IH; [exact Hd| | |exact Hfrom].
      * cbn [next_row]. rewrite length_app. cbn. lia.
      * cbn [written]. apply Forall2_app; [exact Hall|].
        constructor; [|constructor].
        apply write_row_written_for; [exact Hd|].
        rewrite <- Hinfo. apply from_items_lookup, Hfrom.
    + exists done, (r :: rest). auto.
Qed.

Lemma flush_rest_all d items pending : forall done w,
  keyed d ->
  length done = next_row w ->
  Forall2 (written_for d items) done (written w) ->
  from_items items (enriched w) ->
  let w' := flush_rest d pending w in
  next_row w' = length (done ++ pending)
  /\ Forall2 (written_for d items) (done ++ pending) (written w').
Proof.
  induction pending as [|r rest IH]; intros done w Hd Hlen Hall Hfrom.
  - cbn. rewrite app_nil_r. auto.
  - cbn [flush_rest].
    replace (done ++ r :: rest) with ((done ++ [r]) ++ rest)
      by (rewrite <- app_assoc; reflexivity).
    apply IH; [exact Hd| | |exact Hfrom].
    + cbn [next_row]. rewrite length_app. cbn. lia.
    + cbn [written]. apply Forall2_app; [exact Hall|].
      constructor; [|constructor].
      apply write_row_written_for; [exact Hd|apply from_items_lookup, Hfrom].
Qed.

Lemma from_items_update items item m :
  item ∈ items -> from_items items m -> from_items items (item ∪ m).
Proof.
  intros Hin Hm k v Hk. apply lookup_union_Some_raw in Hk as [Hk|[_ Hk]].
  - exists item. auto.
  - apply Hm, Hk.
Qed.

Lemma consume_all d all rows todo rest : forall w,
  keyed d -> (forall item, item ∈ todo -> item ∈ all) ->
  in_step d all rows w ->
  exists w',
    consume rows d (arrivals todo rest) w = Some w'
    /\ next_row w' = length rows
    /\ Forall2 (written_for d all) rows (written w').
Proof.
  unfold arrivals.
  induction todo as [|item todo IH];
    intros w Hd Hsub (done & pending & Hrows & Hlen & Hall & Hfrom).
  - cbn [map app consume]. eexists. split; [reflexivity|].
    rewrite (in_step_pending rows w done pending Hrows Hlen). subst rows.
    apply flush_rest_all; assumption.
  - cbn [map app consume]. apply IH; [exact Hd| |].
    { intros it Hit. apply Hsub. right. exact Hit. }
    cbn [next_row].
    rewrite (in_step_pending rows w done pending Hrows Hlen). subst rows.
    apply drain_in_step; try assumption.
    cbn [enriched]. apply from_items_update; [|exact Hfrom].
    apply Hsub. left.
Qed.

Lemma consume_from_start d rows items rest :
  keyed d ->
  exists w',
    consume rows d (arrivals items rest) (WriterState ∅ 0 []) = Some w'
    /\ next_row w' = length rows
    /\ Forall2 (written_for d items) rows (written w').
Proof.
  intros Hd. apply consume_all; [exact Hd|auto|].
  exists [], rows. repeat split; try constructor.
  intros k v H. cbn in H. rewrite lookup_empty in H. discriminate.
Qed.

(** C6.  Whatever results arrive, and in whatever order, once the sentinel is
    consumed the writer has written exactly one row for each input row, in
    the order of the input: the i-th row written is what [_write_row] makes
    of the i-th input row and has its key.  The effects on the file system
    are these rows appended to the temp file, then the rename. *)
Theorem writer_keeps_input_order rows existing items rest temp_path output_path :
  let d := (_load_existing_output existing).2 in
  exists out_rows,
    _writer_worker (arrivals items rest) rows temp_path output_path d
    = Some (Create temp_path :: Append temp_path CSV_COLUMNS
            :: map (fun r => Append temp_path (line_of r)) out_rows
            ++ [Replace temp_path output_path])
    /\ length out_rows = length rows
    /\ Forall2 (written_for d items) rows out_rows.
Proof.
  intros d. unfold _writer_worker.
  destruct (consume_from_start d rows items rest) as (w & Hrun & Hnext & Hall).
  - apply load_existing_output_keyed.
  - rewrite Hrun. exists (written w). split; [reflexivity|]. split; [|exact Hall].
    symmetry. eapply Forall2_length. exact Hall.
Qed.

End Writer.

(** ** Enrichment: merge and crash safety *)

Section EnrichRun.
Import Enrich Notions.

(** C5 (amended).  The output file found at start-up has the header of the
    code, and the last of its rows with the key of an input row passes the
    enrichment test of the code.  When no detail arrives for the record id
    of the input row during the run, the row is written with that existing
    row: its date, format and tags are the existing ones. *)
Theorem existing_enrichment_kept rows file out_rows items rest i r e :
  dict_reader file = Some out_rows ->
  rows !! i = Some r ->
  last (filter (fun x => _row_key x = _row_key r) out_rows) = Some e ->
  _row_has_enrichment e = true ->
  (forall item, item ∈ items -> item !! _normalize_ruid (RUID r) = None) ->
  exists w o,
    consume rows (_load_existing_output (Some file)).2 (arrivals items rest)
            (WriterState ∅ 0 []) = Some w
    /\ written w !! i = Some o
    /\ _row_key o = _row_key r
    /\ (Date o, Format o, Tags o) = (Date e, Format e, Tags e)
    /\ (filled e <= filled o)%nat.
Proof.
  intros Hread Hi Hlast Henr Hnone.
  set (d := (_load_existing_output (Some file)).2).
  assert (d !! _row_key r = Some e) as He.
  { subst d. rewrite (load_existing_output_last file out_rows _ Hread). exact Hlast. }
  destruct (consume_from_start d rows items rest) as (w & Hrun & _ & Hall).
  { apply load_existing_output_keyed. }
  destruct (Forall2_lookup_l _ _ _ _ _ Hall Hi)
    as (o & Ho & (info & Hinfo & Hsrc) & Hkey).
  assert (o = e) as ->.
  { subst o. destruct info as [v|].
    - destruct (Hsrc v eq_refl) as (item & Hin & Hv).
      rewrite (Hnone item Hin) in Hv. discriminate.
    - unfold _write_row. rewrite He, Henr. reflexivity. }
  exists w, e. repeat split; auto.
Qed.

Lemma apply_ops_app fs ops1 ops2 :
  apply_ops fs (ops1 ++ ops2) = apply_ops (apply_ops fs ops1) ops2.
Proof. unfold apply_ops. apply fold_left_app. Qed.

Lemma apply_ops_elsewhere p q ops : forall fs,
  p <> q -> Forall (touches_only p) ops -> apply_ops fs ops !! q = fs !! q.
Proof.
  induction ops as [|op ops IH]; intros fs Hne Hall; [reflexivity|].
  inversion Hall as [|? ? Hop Hrest]; subst.
  change (apply_ops fs (op :: ops)) with (apply_ops (apply_op fs op) ops).
  rewrite IH by assumption.
  destruct op as [x|x line|x y|x]; cbn in Hop; try contradiction; subst x; cbn.
  - apply lookup_insert_ne, Hne.
  - apply lookup_insert_ne, Hne.
  - apply lookup_delete_ne, Hne.
Qed.

(** C8.  When the output file exists, every effect of an enrichment run
    before the final rename touches the temp file only: a run that stops
    after any number of effects short of the rename, with or without the
    clean-up of the exception handler, leaves the content of the output file
    as it was. *)
Theorem crash_before_rename_keeps_output opts input fs temp_path output_path
    queue ops content n :
  fs !! output_path = Some content ->
  fs !! temp_path = None ->
  main opts input fs temp_path output_path queue = Some ops ->
  (n < length ops)%nat ->
  apply_ops fs (take n ops) !! output_path = Some content
  /\ apply_ops fs (take n ops ++ [Unlink temp_path]) !! output_path = Some content.
Proof.
  intros Hout Htmp Hmain Hn.
  assert (temp_path <> output_path) as Hne by congruence.
  assert (Forall (touches_only temp_path) (take n ops)) as Hprefix.
  { unfold main in Hmain. rewrite Hout in Hmain.
    destruct (_load_existing_output (Some content)) as [already d].
    destruct (unique_needed (load_input opts already input)).
    - injection Hmain as <-. cbn in Hn. lia.
    - unfold _writer_worker in Hmain.
      destruct (consume _ d queue _) as [w|]; [|discriminate].
      injection Hmain as <-.
      set (body := map (fun r => Append temp_path (line_of r)) (written w)) in *.
      change (Create temp_path :: Append temp_path CSV_COLUMNS
              :: body ++ [Replace temp_path output_path])
        with ((Create temp_path :: Append temp_path CSV_COLUMNS :: body)
              ++ [Replace temp_path output_path]) in *.
      rewrite length_app in Hn. cbn [length] in Hn.
      rewrite take_app_le by (cbn [length]; lia).
      apply Forall_take.
      constructor; [reflexivity|]. constructor; [reflexivity|].
      subst body. apply Forall_forall. intros op Hop.
      apply list_elem_of_fmap in Hop as (r & -> & _). reflexivity. }
  split.
  - rewrite apply_ops_elsewhere with (p := temp_path); assumption.
  - rewrite apply_ops_elsewhere with (p := temp_path); [assumption|assumption|].
    apply Forall_app. split; [assumption|]. constructor; [reflexivity|constructor].
Qed.

End EnrichRun.

Lemma existing_enrichment_kept_witness :
  exists w o,
    Enrich.consume [Enrich.Row Fixtures.ruid_a "sprite" "object" "" "" ""]
      (Enrich._load_existing_output
         (Some [Enrich.CSV_COLUMNS; Fixtures.enriched_line])).2
      (Notions.arrivals [] []) (Enrich.WriterState ∅ 0 [])
    = Some w
    /\ Enrich.written w !! 0%nat = Some o
    /\ Enrich._row_key o
       = Enrich._row_key (Enrich.Row Fixtures.ruid_a "sprite" "object" "" "" "")
    /\ (Enrich.Date o, Enrich.Format o, Enrich.Tags o)
       = ("2020-01-01"%string, "png"%string, "tree"%string)
    /\ (Notions.filled (Enrich.dict_row Fixtures.enriched_line)
        <= Notions.filled o)%nat.
Proof.
  apply (existing_enrichment_kept
           [Enrich.Row Fixtures.ruid_a "sprite" "object" "" "" ""]
           [Enrich.CSV_COLUMNS; Fixtures.enriched_line]
           [Enrich.dict_row Fixtures.enriched_line] [] [] 0%nat
           (Enrich.Row Fixtures.ruid_a "sprite" "object" "" "" "")
           (Enrich.dict_row Fixtures.enriched_line)).
  - vm_compute. reflexivity.
  - reflexivity.
  - vm_compute. reflexivity.
  - vm_compute. reflexivity.
  - intros item Hitem. inversion Hitem.
Defined.

(** C5 as stated fails under [--force]: every record id is fetched again,
    the detail that arrives for an enriched row has a date only, and the
    writer prefers it to the existing row, which had date, format and
    tags. *)
Lemma forced_refetch_downgrades :
  ~ (forall opts input fs temp_path output_path api ops old new e o,
        fs !! temp_path = None ->
        Enrich.main opts input fs temp_path output_path
          (Enrich.sequential_queue api
             (Enrich.unique_needed
                (Enrich.load_input opts
                   (Enrich._load_existing_output (fs !! output_path)).1 input)))
        = Some ops ->
        fs !! output_path = Some old ->
        Enrich.apply_ops fs ops !! output_path = Some new ->
        e ∈ map Enrich.dict_row (tail old) ->
        o ∈ map Enrich.dict_row (tail new) ->
        Enrich._row_key e = Enrich._row_key o ->
        (1 <= Notions.filled e)%nat ->
        (Notions.filled e <= Notions.filled o)%nat).
Proof.
  intros H.
  specialize (H Fixtures.forced Fixtures.one_category Fixtures.disk
                "tmp.csv"%string "out.csv"%string Fixtures.date_only
                Fixtures.refetched_effects
                [Enrich.CSV_COLUMNS; Fixtures.enriched_line]
                [Enrich.CSV_COLUMNS; Fixtures.refetched_line]
                (Enrich.dict_row Fixtures.enriched_line)
                (Enrich.dict_row Fixtures.refetched_line)).
  assert (3 <= 1)%nat as Habs; [|lia].
  apply H.
  - reflexivity.
  - vm_compute. reflexivity.
  - reflexivity.
  - vm_compute. reflexivity.
  - left.
  - left.
  - vm_compute. reflexivity.
  - vm_compute. lia.
Qed.

(** Without [--force] an enriched row is rewritten as well when its record
    id also occurs under a key that is not enriched yet: the id is fetched
    for that other row, and the writer, whose [enriched] dict is keyed by
    record id alone, hands the detail to both rows.  The source does not
    mean this to happen (the comment where the row is skipped reads: do not
    fetch, writer will preserve it). *)
Lemma shared_record_id_downgrades :
  Enrich.unique_needed
    (Enrich.load_input Fixtures.defaults
       (Enrich._load_existing_output (Fixtures.disk !! "out.csv"%string)).1
       Fixtures.two_categories)
  = [Fixtures.ruid_a]
  /\ Enrich.main Fixtures.defaults Fixtures.two_categories Fixtures.disk
       "tmp.csv" "out.csv"
       (Enrich.sequential_queue Fixtures.date_only [Fixtures.ruid_a])
     = Some Fixtures.date_only_effects
  /\ Enrich.apply_ops Fixtures.disk Fixtures.date_only_effects !! "out.csv"%string
     = Some (Enrich.CSV_COLUMNS :: Fixtures.date_only_lines)
  /\ (Notions.filled (Enrich.dict_row [Fixtures.ruid_a; "sprite"; "object";
                                       "2021-05-05"; ""; ""])
      < Notions.filled (Enrich.dict_row Fixtures.enriched_line))%nat.
Proof.
  split; [vm_compute; reflexivity|]. split; [vm_compute; reflexivity|].
  split; [vm_compute; reflexivity|]. vm_compute. lia.
Qed.

Lemma crash_before_rename_keeps_output_witness :
  Enrich.apply_ops Fixtures.disk (take 3 Fixtures.date_only_effects)
    !! "out.csv"%string
  = Some [Enrich.CSV_COLUMNS; Fixtures.enriched_line]
  /\ Enrich.apply_ops Fixtures.disk
       (take 3 Fixtures.date_only_effects ++ [Enrich.Unlink "tmp.csv"])
       !! "out.csv"%string
     = Some [Enrich.CSV_COLUMNS; Fixtures.enriched_line].
Proof.
  apply (crash_before_rename_keeps_output Fixtures.defaults Fixtures.two_categories
           Fixtures.disk "tmp.csv"%string "out.csv"%string
           (Enrich.sequential_queue Fixtures.date_only [Fixtures.ruid_a])).
  - reflexivity.
  - reflexivity.
  - vm_compute. reflexivity.
  - cbn. lia.
Defined.

(** ** Deduplication *)

Section Dedup.
Import Collect Notions.

Variable tx : taxonomy.

Lemma replay_app cs1 cs2 d : replay tx (cs1 ++ cs2) d = replay tx cs2 (replay tx cs1 d).
Proof. unfold replay. apply fold_left_app. Qed.

Lemma commit_found_replay c s found d :
  commit_found tx c s found d = replay tx (map (fun it => (c, s, it.1)) found) d.
Proof.
  unfold commit_found, replay. revert d.
  induction found as [|[r e] rest IH]; intros d; [reflexivity|].
  cbn [fold_left map fst]. apply IH.
Qed.

Lemma commit_ruid_attempts c s r d :
  attempts (commit_ruid tx c s r d) = attempts d ++ [(c, s, r)].
Proof.
  unfold commit_ruid.
  destruct (s =? -1); [destruct (bool_decide _)|destruct (bool_decide _)]; reflexivity.
Qed.

Lemma replay_attempts cs : forall d, attempts (replay tx cs d) = attempts d ++ cs.
Proof.
  induction cs as [|[[c s] r] rest IH]; intros d.
  - cbn. rewrite app_nil_r. reflexivity.
  - change (replay tx (((c, s), r) :: rest) d)
      with (replay tx rest (commit_ruid tx c s r d)).
    rewrite IH, commit_ruid_attempts, <- app_assoc. reflexivity.
Qed.

Lemma ruid_cat_pairs_spec seen r c :
  (r, c) ∈ ruid_cat_pairs seen <-> exists s, (r, c, s) ∈ seen.
Proof.
  unfold ruid_cat_pairs. rewrite elem_of_map. split.
  - intros ([[r' c'] s] & Heq & Hin). cbn in Heq. injection Heq as -> ->. eauto.
  - intros (s & Hin). exists (r, c, s). auto.
Qed.

Lemma consistent_start seen0 :
  consistent tx seen0 (Dedup seen0 (ruid_cat_pairs seen0) [] []) [].
Proof.
  constructor; cbn; try reflexivity.
  - constructor.
  - set_solver.
  - intros k Hk. inversion Hk.
  - intros c s r H. inversion H.
  - intros r c s H. inversion H.
  - intros r c H. inversion H.
Qed.

(** A skipped record id leaves everything but the history as it is. *)
Lemma consistent_skip seen0 d ks c s r :
  consistent tx seen0 d ks ->
  (if s =? -1 then (r, c) ∈ seen_per_ruid_cat d else (r, c, s) ∈ seen d) ->
  consistent tx seen0
    (Dedup (seen d) (seen_per_ruid_cat d) (temp_rows d) (attempts d ++ [(c, s, r)])) ks.
Proof.
  intros [Hp Hr Hn Hs Hw Ha Hwa Hf] Hin. constructor; cbn; auto.
  - intros c' s' r' H. apply elem_of_app in H as [H|H]; [apply Ha, H|].
    apply list_elem_of_singleton in H. injection H as -> -> ->. exact Hin.
  - intros r' c' s' H. apply elem_of_app. left. apply Hwa, H.
  - intros r' c' H. destruct (Hf r' c' H) as (pre & post & Heq & Hpre).
    exists pre, (post ++ [(c, s, r)]). split; [|exact Hpre].
    rewrite Heq, <- app_assoc. reflexivity.
Qed.

(** A record id that is written extends the keys by its own. *)
Lemma consistent_write seen0 d ks c s r :
  consistent tx seen0 d ks ->
  (r, c, s) ∉ seen d ->
  (s = -1 -> (r, c) ∉ seen_per_ruid_cat d) ->
  consistent tx seen0
    (Dedup ({[ (r, c, s) ]} ∪ seen d) ({[ (r, c) ]} ∪ seen_per_ruid_cat d)
           (temp_rows d
            ++ [[r; (get_category_and_subcategory_names tx c s).1;
                 (get_category_and_subcategory_names tx c s).2; ""; ""; ""]%string])
           (attempts d ++ [(c, s, r)]))
    (ks ++ [(r, c, s)]).
Proof.
  intros [Hp Hr Hn Hs Hw Ha Hwa Hf] Hnew Hall. constructor; cbn.
  - rewrite Hp. unfold ruid_cat_pairs. rewrite set_map_union_L, set_map_singleton_L.
    reflexivity.
  - rewrite Hr, map_app. reflexivity.
  - apply NoDup_app. split; [exact Hn|]. split; [|apply NoDup_singleton].
    intros k Hk Hk'. apply list_elem_of_singleton in Hk'. subst k.
    apply Hnew. rewrite Hs. set_solver.
  - rewrite Hs, list_to_set_app_L. set_solver.
  - intros k Hk. apply elem_of_app in Hk as [Hk|Hk]; [apply Hw, Hk|].
    apply list_elem_of_singleton in Hk. subst k.
    intros H0. apply Hnew. rewrite Hs. set_solver.
  - intros c' s' r' H. apply elem_of_app in H as [H|H].
    + specialize (Ha c' s' r' H). destruct (s' =? -1); set_solver.
    + apply list_elem_of_singleton in H. injection H as -> -> ->.
      destruct (s =? -1); set_solver.
  - intros r' c' s' H. apply elem_of_app in H as [H|H].
    + apply elem_of_app. left. apply Hwa, H.
    + apply list_elem_of_singleton in H. injection H as -> -> ->.
      apply elem_of_app. right. left.
  - intros r' c' H. apply elem_of_app in H as [H|H].
    + destruct (Hf r' c' H) as (pre & post & Heq & Hpre).
      exists pre, (post ++ [(c, s, r)]). split; [|exact Hpre].
      rewrite Heq, <- app_assoc. reflexivity.
    + apply list_elem_of_singleton in H. injection H as -> -> <-.
      exists (attempts d), []. split; [reflexivity|].
      intros s' Hs'. specialize (Ha c s' r Hs').
      apply (Hall eq_refl).
      destruct (s' =? -1); [exact Ha|].
      rewrite Hp. apply ruid_cat_pairs_spec. eauto.
Qed.

Lemma consistent_commit seen0 d ks c s r :
  consistent tx seen0 d ks ->
  exists ks', consistent tx seen0 (commit_ruid tx c s r d) ks'
              /\ (ks' = ks \/ ks' = ks ++ [(r, c, s)]).
Proof.
  intros Hc. unfold commit_ruid.
  destruct (s =? -1) eqn:Hs.
  - apply Z.eqb_eq in Hs. subst s.
    destruct (bool_decide ((r, c) ∈ seen_per_ruid_cat d)) eqn:Hin.
    + apply bool_decide_eq_true in Hin.
      exists ks. split; [|auto]. apply consistent_skip; [exact Hc|exact Hin].
    + apply bool_decide_eq_false in Hin.
      exists (ks ++ [(r, c, -1)]). split; [|auto].
      apply consistent_write; [exact Hc| |auto].
      intros Hk. apply Hin. rewrite (pairs_follow _ _ _ _ Hc).
      apply ruid_cat_pairs_spec. eauto.
  - destruct (bool_decide ((r, c, s) ∈ seen d)) eqn:Hin.
    + apply bool_decide_eq_true in Hin.
      exists ks. split; [|auto]. apply consistent_skip; [exact Hc|].
      rewrite Hs. exact Hin.
    + apply bool_decide_eq_false in Hin.
      exists (ks ++ [(r, c, s)]). split; [|auto].
      apply consistent_write; [exact Hc|exact Hin|].
      intros ->. discriminate Hs.
Qed.

Lemma consistent_replay seen0 cs : forall d ks,
  consistent tx seen0 d ks ->
  exists ks', consistent tx seen0 (replay tx cs d) ks'.
Proof.
  induction cs as [|[[c s] r] rest IH]; intros d ks Hc; [eauto|].
  destruct (consistent_commit seen0 d ks c s r Hc) as (ks' & Hc' & _).
  apply (IH _ ks' Hc').
Qed.

End Dedup.

(** ** The walks and the retry pass only touch the deduplication state
       through the locked region *)

Section Parametric.
Import Collect Notions.

Variable tx : taxonomy.
Variable fetch : oracle.
Variable segs : list segment.
Hypothesis fetch_ok : oracle_ok fetch.

Local Ltac split3 := split; [|split].

Lemma with_dd_id st : with_dd (dd st) st = st.
Proof. destruct st. reflexivity. Qed.

Lemma listing_attempts_ok c s found :
  (c, s) ∈ segs -> listing_ok found ->
  Forall (attempt_ok segs) (map (fun it : string * string => (c, s, it.1)) found).
Proof.
  intros Hseg Hok. apply Forall_fmap. eapply Forall_impl; [exact Hok|].
  intros [r e] Hr. split; [exact Hseg|exact Hr].
Qed.

(** One iteration of the sequential walk. *)
Lemma seq_iteration_param a l st :
  walk_segment a ∈ segs ->
  exists fl l' cs st',
    Forall (attempt_ok segs) cs
    /\ global_retry_list st' = global_retry_list st
    /\ forall d, seq_iteration tx fetch a l (with_dd d st)
                 = (fl, l', with_dd (replay tx cs d) st').
Proof.
  intros Hseg. unfold seq_iteration.
  change (forall d, total_reached a (with_dd d st) = total_reached a st)
    with (forall d : dedup, total_reached a st = total_reached a st) || idtac.
  destruct (total_reached a st) eqn:Htot.
  { exists Stop, l, [], st. split3; [constructor|reflexivity|].
    intros d. change (total_reached a (with_dd d st)) with (total_reached a st).
    rewrite Htot. reflexivity. }
  destruct (at_least (pages_per_category a) (pages_done l)) eqn:Hppc.
  { exists Stop, l, [], st. split3; [constructor|reflexivity|].
    intros d. change (total_reached a (with_dd d st)) with (total_reached a st).
    rewrite Htot. reflexivity. }
  destruct (above (max_page_cap a) (page l)) eqn:Hcap.
  { exists Stop, l, [], st. split3; [constructor|reflexivity|].
    intros d. change (total_reached a (with_dd d st)) with (total_reached a st).
    rewrite Htot. reflexivity. }
  set (st1 := (do_request fetch (walk_segment a) (page l) st).2).
  assert (forall d, do_request fetch (walk_segment a) (page l) (with_dd d st)
                    = (fetch (length (requests st)) (walk_segment a) (page l),
                       with_dd d st1)) as Hreq by reflexivity.
  assert (global_retry_list st1 = global_retry_list st) as Hst1 by reflexivity.
  destruct (fetch (length (requests st)) (walk_segment a) (page l))
    as [found|] eqn:Hfetch.
  2: { eexists Continue, _, [], st1. split3; [constructor|exact Hst1|].
       intros d. change (total_reached a (with_dd d st)) with (total_reached a st).
       rewrite Htot, Hreq. reflexivity. }
  destruct (length found =? 0)%nat eqn:Hzero.
  { eexists Continue, _, [], st1. split3; [constructor|exact Hst1|].
    intros d. change (total_reached a (with_dd d st)) with (total_reached a st).
    rewrite Htot, Hreq, Hzero. reflexivity. }
  set (st2 := note_content (walk_segment a) (page l) st1).
  set (st3 := match max_total_pages a with Some _ => bump_total st2 | None => st2 end).
  assert (forall d,
             match max_total_pages a with
             | Some _ => bump_total (note_content (walk_segment a) (page l) (with_dd d st1))
             | None => note_content (walk_segment a) (page l) (with_dd d st1)
             end = with_dd d st3) as Hst3.
  { intros d. subst st3 st2. destruct (max_total_pages a); reflexivity. }
  assert (global_retry_list st3 = global_retry_list st) as Hgrl.
  { subst st3 st2. destruct (max_total_pages a); reflexivity. }
  assert (forall d, total_reached a (with_dd d st3) = total_reached a st3) as Htot3
    by reflexivity.
  destruct (total_reached a st3) eqn:Hreached.
  { eexists Stop, _, [], st3. split3; [constructor|exact Hgrl|].
    intros d. change (total_reached a (with_dd d st)) with (total_reached a st).
    rewrite Htot, Hreq, Hzero, Hst3, Htot3, ?Hreached. reflexivity. }
  set (cs := map (fun it : string * string => (category a, subcategory a, it.1)) found).
  assert (Forall (attempt_ok segs) cs) as Hcs.
  { apply listing_attempts_ok; [exact Hseg|]. eapply fetch_ok. exact Hfetch. }
  assert (forall d,
             set_dd (commit_found tx (category a) (subcategory a) found) (with_dd d st3)
             = with_dd (replay tx cs d) st3) as Hcommit.
  { intros d. unfold set_dd, with_dd. cbn. rewrite commit_found_replay. reflexivity. }
  destruct ((length found <? MAX_ITEMS_PER_PAGE)%nat
            && is_last a (page l) (length found)) eqn:Hlast.
  - eexists Stop, _, cs, st3. split3; [exact Hcs|exact Hgrl|].
    intros d. change (total_reached a (with_dd d st)) with (total_reached a st).
    rewrite Htot, Hreq, Hzero, Hst3, Htot3, ?Hreached, Hcommit, Hlast. reflexivity.
  - eexists Continue, _, cs, st3. split3; [exact Hcs|exact Hgrl|].
    intros d. change (total_reached a (with_dd d st)) with (total_reached a st).
    rewrite Htot, Hreq, Hzero, Hst3, Htot3, ?Hreached, Hcommit, Hlast. reflexivity.
Qed.

Lemma seq_loop_param a fuel : forall l st,
  walk_segment a ∈ segs ->
  exists l' cs st',
    Forall (attempt_ok segs) cs
    /\ global_retry_list st' = global_retry_list st
    /\ forall d, seq_loop tx fetch a fuel l (with_dd d st)
                 = (l', with_dd (replay tx cs d) st').
Proof.
  induction fuel as [|k IH]; intros l st Hseg.
  - exists l, [], st. split3; [constructor|reflexivity|intros d; reflexivity].
  - destruct (seq_iteration_param a l st Hseg) as (fl & l1 & cs1 & st1 & Hcs1 & Hg1 & H1).
    destruct fl.
    + destruct (IH l1 st1 Hseg) as (l2 & cs2 & st2 & Hcs2 & Hg2 & H2).
      exists l2, (cs1 ++ cs2), st2. split; [apply Forall_app; auto|].
      split; [congruence|].
      intros d. cbn [seq_loop]. rewrite H1, H2, replay_app. reflexivity.
    + exists l1, cs1, st1. split3; [exact Hcs1|exact Hg1|].
      intros d. cbn [seq_loop]. rewrite H1. reflexivity.
Qed.

Lemma process_one_segment_param a st :
  walk_segment a ∈ segs ->
  exists cs st',
    Forall (attempt_ok segs) cs
    /\ (tickets_ok segs (global_retry_list st) -> tickets_ok segs (global_retry_list st'))
    /\ forall d, (_process_one_segment tx fetch a (with_dd d st)).2
                 = with_dd (replay tx cs d) st'.
Proof.
  intros Hseg. unfold _process_one_segment.
  destruct (seq_loop_param a (walk_fuel a) (SeqLocal 0 1 []) st Hseg)
    as (l' & cs & st' & Hcs & Hg & H).
  set (new := map (fun '(p, _) => (category a, subcategory a, p, 1%nat)) (retry_later l')).
  exists cs, (add_tickets new st'). split; [exact Hcs|]. split.
  - intros Hok. cbn [add_tickets global_retry_list]. rewrite Hg.
    apply Forall_app. split; [exact Hok|].
    subst new. apply Forall_fmap, Forall_forall. intros [p n] _. exact Hseg.
  - intros d. rewrite H. reflexivity.
Qed.

(** One iteration of the retry pass. *)
Lemma retry_iteration_param indefinite st queue failed :
  tickets_ok segs queue ->
  exists cs st' queue' failed',
    Forall (attempt_ok segs) cs
    /\ tickets_ok segs queue'
    /\ forall d, retry_iteration tx fetch indefinite (RState (with_dd d st) queue failed)
                 = RState (with_dd (replay tx cs d) st') queue' failed'.
Proof.
  intros Hq. unfold retry_iteration. cbn [retry_queue rs failed_indefinite_segments].
  destruct queue as [|[[[c s] p] n] rest].
  { exists [], st, [], failed. split3; [constructor|constructor|intros d; reflexivity]. }
  inversion Hq as [|? ? Hseg Hrest]; subst. cbn in Hseg.
  change (forall d, max_page_with_content (with_dd d st) = max_page_with_content st)
    with True || idtac.
  cbn [max_page_with_content with_dd].
  destruct (bool_decide (default 0 (max_page_with_content st !! (c, s))
                         + RETRY_PAGE_BUFFER < p)).
  { exists [], st, rest, failed. split3; [constructor|exact Hrest|intros d; reflexivity]. }
  set (st1 := (do_request fetch (c, s) p st).2).
  assert (forall d, do_request fetch (c, s) p (with_dd d st)
                    = (fetch (length (requests st)) (c, s) p, with_dd d st1))
    as Hreq by reflexivity.
  set (max_attempts :=
         if bool_decide ((c, s, p) ∈ indefinite)
         then INDEFINITE_RETRY_MAX_ATTEMPTS else MAX_PAGE_ATTEMPTS).
  assert (exists queue' failed',
             tickets_ok segs queue'
             /\ forall d,
                 (if (n + 1 <? max_attempts)%nat
                  then RState (with_dd d st1) (rest ++ [(c, s, p, (n + 1)%nat)]) failed
                  else RState (with_dd d st1) rest
                         (if bool_decide ((c, s, p) ∈ indefinite)
                          then {[ (c, s) ]} ∪ failed else failed))
                 = RState (with_dd (replay tx [] d) st1) queue' failed') as Hagain.
  { destruct (n + 1 <? max_attempts)%nat.
    - eexists _, _. split; [|intros d; reflexivity].
      apply Forall_app. split; [exact Hrest|]. constructor; [exact Hseg|constructor].
    - eexists _, _. split; [exact Hrest|intros d; reflexivity]. }
  destruct Hagain as (q' & f' & Hq' & Hagain).
  destruct (fetch (length (requests st)) (c, s) p) as [found|] eqn:Hfetch.
  2: { exists [], st1, q', f'. split3; [constructor|exact Hq'|].
       intros d. rewrite Hreq. apply Hagain. }
  destruct (length found =? 0)%nat eqn:Hzero.
  { exists [], st1, q', f'. split3; [constructor|exact Hq'|].
    intros d. rewrite Hreq, Hzero. apply Hagain. }
  exists (map (fun it : string * string => (c, s, it.1)) found), st1, rest, failed.
  split; [apply listing_attempts_ok; [exact Hseg|eapply fetch_ok; exact Hfetch]|].
  split; [exact Hrest|].
  intros d. rewrite Hreq, Hzero. unfold set_dd, with_dd. cbn.
  rewrite commit_found_replay. reflexivity.
Qed.

Lemma retry_loop_param indefinite fuel : forall st queue failed,
  tickets_ok segs queue ->
  exists cs st' queue' failed',
    Forall (attempt_ok segs) cs
    /\ forall d, retry_loop tx fetch indefinite fuel (RState (with_dd d st) queue failed)
                 = RState (with_dd (replay tx cs d) st') queue' failed'.
Proof.
  induction fuel as [|k IH]; intros st queue failed Hq.
  - exists [], st, queue, failed. split; [constructor|]. intros d. reflexivity.
  - destruct queue as [|t rest] eqn:Hqueue.
    + exists [], st, [], failed. split; [constructor|]. intros d. reflexivity.
    + rewrite <- Hqueue in *.
      destruct (retry_iteration_param indefinite st queue failed Hq)
        as (cs1 & st1 & q1 & f1 & Hcs1 & Hq1 & H1).
      destruct (IH st1 q1 f1 Hq1) as (cs2 & st2 & q2 & f2 & Hcs2 & H2).
      exists (cs1 ++ cs2), st2, q2, f2. split; [apply Forall_app; auto|].
      intros d. cbn [retry_loop retry_queue]. rewrite Hqueue, <- Hqueue.
      rewrite H1, H2, replay_app. reflexivity.
Qed.

Lemma global_retry_pass_param st :
  tickets_ok segs (global_retry_list st) ->
  exists cs r',
    Forall (attempt_ok segs) cs
    /\ forall d, dd (rs (global_retry_pass tx fetch (with_dd d st)))
                 = replay tx cs d
                 /\ global_retry_pass tx fetch (with_dd d st)
                    = RState (with_dd (replay tx cs d) (rs r'))
                             (retry_queue r') (failed_indefinite_segments r').
Proof.
  intros Hq. unfold global_retry_pass.
  destruct (retry_loop_param (indefinite_retry_set st)
              (retry_fuel (global_retry_list st)) st (global_retry_list st) ∅ Hq)
    as (cs & st' & q' & f' & Hcs & H).
  exists cs, (RState st' q' f'). split; [exact Hcs|].
  intros d.
  change (indefinite_retry_set (with_dd d st)) with (indefinite_retry_set st).
  change (global_retry_list (with_dd d st)) with (global_retry_list st).
  rewrite H. split; reflexivity.
Qed.

(** A step of a worker of the parallel walk. *)
Lemma worker_step_summary a pc ps :
  walk_segment a ∈ segs -> pc_ok pc ->
  pc_ok (worker_step tx fetch a pc ps).1
  /\ workers_pc (worker_step tx fetch a pc ps).2 = workers_pc ps
  /\ exists cs,
       Forall (attempt_ok segs) cs
       /\ dd (shared (worker_step tx fetch a pc ps).2) = replay tx cs (dd (shared ps))
       /\ (tickets_ok segs (global_retry_list (shared ps))
           -> tickets_ok segs
                (global_retry_list (shared (worker_step tx fetch a pc ps).2))).
Proof.
  intros Hseg Hpc.
  assert (forall pc' ps',
             pc_ok pc' -> workers_pc ps' = workers_pc ps ->
             shared ps' = shared ps ->
             pc_ok (pc', ps').1
             /\ workers_pc (pc', ps').2 = workers_pc ps
             /\ exists cs,
                  Forall (attempt_ok segs) cs
                  /\ dd (shared (pc', ps').2) = replay tx cs (dd (shared ps))
                  /\ (tickets_ok segs (global_retry_list (shared ps))
                      -> tickets_ok segs (global_retry_list (shared (pc', ps').2))))
    as Hsame.
  { intros pc' ps' Hok Hw Hs. split3; [exact Hok|exact Hw|].
    exists []. cbn [snd]. rewrite Hs. split3; [constructor|reflexivity|auto]. }
  unfold worker_step. destruct pc as [|page|page r|page n rest|].
  - destruct (segment_done ps); [apply Hsame; auto; exact I|].
    destruct (total_reached a (shared ps)); [apply Hsame; auto; exact I|].
    destruct (above (pages_per_category a) (next_page ps)); [apply Hsame; auto; exact I|].
    destruct (above (max_page_cap a) (next_page ps)); apply Hsame; auto; exact I.
  - destruct (segment_done ps); [apply Hsame; auto; exact I|].
    unfold do_request. cbn [fst snd workers_pc shared].
    split3; [|reflexivity|].
    + destruct (fetch _ _ page) as [found|] eqn:Hf; [|exact I].
      cbn. eapply fetch_ok. exact Hf.
    + exists []. split3; [constructor|reflexivity|auto].
  - destruct (segment_done ps); [apply Hsame; auto; exact I|].
    destruct r as [found|].
    + destruct (length found =? 0)%nat.
      * cbn [fst snd workers_pc shared]. split3; [exact I|reflexivity|].
        exists []. split3; [constructor|reflexivity|].
        intros Hok. cbn. apply Forall_app. split; [exact Hok|].
        constructor; [exact Hseg|constructor].
      * cbn [fst snd workers_pc shared]. split3; [exact Hpc|reflexivity|].
        exists []. split3; [constructor| |].
        -- destruct (max_total_pages a); reflexivity.
        -- destruct (max_total_pages a); auto.
    + cbn [fst snd workers_pc shared]. split3; [exact I|reflexivity|].
      exists []. split3; [constructor|reflexivity|].
      intros Hok. cbn. apply Forall_app. split; [exact Hok|].
      constructor; [exact Hseg|constructor].
  - destruct rest as [|[ruid ext] rest]; [apply Hsame; auto; exact I|].
    cbn [fst snd workers_pc shared]. inversion Hpc as [|? ? Hr Hrest]; subst.
    split3; [exact Hrest|reflexivity|].
    exists [(category a, subcategory a, ruid)].
    split3; [|reflexivity|auto].
    constructor; [|constructor]. split; [exact Hseg|exact Hr].
  - apply Hsame; auto.
Qed.

Lemma run_schedule_summary a sched : forall ps,
  walk_segment a ∈ segs ->
  Forall pc_ok (workers_pc ps) ->
  exists cs,
    Forall (attempt_ok segs) cs
    /\ dd (shared (run_schedule tx fetch a sched ps)) = replay tx cs (dd (shared ps))
    /\ (tickets_ok segs (global_retry_list (shared ps))
        -> tickets_ok segs (global_retry_list (shared (run_schedule tx fetch a sched ps)))).
Proof.
  intros ps Hseg. revert ps.
  induction sched as [|w rest IH]; intros ps Hpcs.
  - exists []. split3; [constructor|reflexivity|auto].
  - change (run_schedule tx fetch a (w :: rest) ps)
      with (run_schedule tx fetch a rest (schedule_step tx fetch a ps w)).
    assert (Forall pc_ok (workers_pc (schedule_step tx fetch a ps w))
            /\ exists cs,
                 Forall (attempt_ok segs) cs
                 /\ dd (shared (schedule_step tx fetch a ps w))
                    = replay tx cs (dd (shared ps))
                 /\ (tickets_ok segs (global_retry_list (shared ps))
                     -> tickets_ok segs
                          (global_retry_list (shared (schedule_step tx fetch a ps w)))))
      as (Hpcs1 & cs1 & Hcs1 & Hdd1 & Ht1).
    { unfold schedule_step.
      destruct (workers_pc ps !! w) as [pc|] eqn:Hpc.
      - assert (pc_ok pc) as Hok by (eapply Forall_lookup_1; eauto).
        destruct (worker_step_summary a pc ps Hseg Hok) as (Hok' & Hw & cs & Hcs & Hdd & Ht).
        destruct (worker_step tx fetch a pc ps) as [pc' ps']. cbn [fst snd] in *.
        cbn [workers_pc shared]. split.
        + rewrite Hw. apply Forall_insert; assumption.
        + exists cs. auto.
      - split; [exact Hpcs|]. exists []. split3; [constructor|reflexivity|auto]. }
    destruct (IH _ Hpcs1) as (cs2 & Hcs2 & Hdd2 & Ht2).
    exists (cs1 ++ cs2). split3; [apply Forall_app; auto| |auto].
    rewrite Hdd2, Hdd1, replay_app. reflexivity.
Qed.

(** The loop over the partitions, with one worker or several. *)
Lemma walk_segments_summary args last_pages scheds : forall todo st st',
  (forall seg, seg ∈ todo -> seg ∈ segs) ->
  walk_segments tx fetch args last_pages scheds todo st = Some st' ->
  exists cs,
    Forall (attempt_ok segs) cs
    /\ dd st' = replay tx cs (dd st)
    /\ (tickets_ok segs (global_retry_list st) -> tickets_ok segs (global_retry_list st')).
Proof.
  induction todo as [|seg rest IH]; intros st st' Hsub Hrun.
  - injection Hrun as <-. exists []. split3; [constructor|reflexivity|auto].
  - cbn [walk_segments] in Hrun.
    destruct (last_pages !! seg) as [last|]; [|discriminate].
    assert (walk_segment (segment_args args seg last) ∈ segs) as Hseg.
    { destruct seg as [c s]. apply Hsub. left. }
    assert (exists st1 cs1,
               walk_segments tx fetch args last_pages scheds rest st1 = Some st'
               /\ Forall (attempt_ok segs) cs1
               /\ dd st1 = replay tx cs1 (dd st)
               /\ (tickets_ok segs (global_retry_list st)
                   -> tickets_ok segs (global_retry_list st1)))
      as (st1 & cs1 & Hrest & Hcs1 & Hdd1 & Ht1).
    { destruct (bool_decide (effective_workers args <= 1)).
      - destruct (process_one_segment_param (segment_args args seg last) st Hseg)
          as (cs1 & st1 & Hcs1 & Ht1 & H1).
        specialize (H1 (dd st)). rewrite with_dd_id in H1. rewrite H1 in Hrun.
        exists (with_dd (replay tx cs1 (dd st)) st1), cs1. auto.
      - unfold _process_segment_parallel_pages in Hrun.
        set (ps0 := PState st 1 false _) in Hrun.
        destruct (all_returned (run_schedule tx fetch (segment_args args seg last)
                                  (scheds seg) ps0)); [|discriminate].
        destruct (run_schedule_summary (segment_args args seg last) (scheds seg) ps0 Hseg)
          as (cs1 & Hcs1 & Hdd1 & Ht1).
        { subst ps0. cbn [workers_pc]. apply Forall_replicate. exact I. }
        eexists _, cs1. split; [exact Hrun|]. auto. }
    destruct (IH st1 st') as (cs2 & Hcs2 & Hdd2 & Ht2); [|exact Hrest|].
    { intros s Hs. apply Hsub. right. exact Hs. }
    exists (cs1 ++ cs2). split3; [apply Forall_app; auto| |auto].
    rewrite Hdd2, Hdd1, replay_app. reflexivity.
Qed.

End Parametric.
(** ** The parallel walk and the deduplication state *)

Section ParametricParallel.
Import Collect Notions.

Variable tx : taxonomy.
Variable fetch : oracle.
Variable segs : list segment.
Hypothesis fetch_ok : oracle_ok fetch.

Local Ltac split3 := split; [|split].

(** A step of a worker reads the deduplication state in the locked region
    only: with another state it goes to the same point and leaves the same
    shared state, but for the record id it commits. *)
Lemma worker_step_param a pc ps d :
  worker_step tx fetch a pc (ps_with_dd d ps)
  = ((worker_step tx fetch a pc ps).1,
     ps_with_dd (replay tx (step_attempt a pc) d) (worker_step tx fetch a pc ps).2).
Proof.
  destruct ps as [st np done pcs]. unfold worker_step, ps_with_dd.
  cbn [shared next_page segment_done workers_pc].
  change (total_reached a (with_dd d st)) with (total_reached a st).
  destruct pc as [|page|page r|page n rest|]; cbn [step_attempt].
  - destruct done; [reflexivity|].
    destruct (total_reached a st); [reflexivity|].
    destruct (above (pages_per_category a) np); [reflexivity|].
    destruct (above (max_page_cap a) np); reflexivity.
  - destruct done; reflexivity.
  - destruct done; [reflexivity|].
    destruct r as [found|]; [|reflexivity].
    destruct (length found =? 0)%nat; [reflexivity|].
    destruct (max_total_pages a); reflexivity.
  - destruct rest as [|[ruid ext] rest]; reflexivity.
  - reflexivity.
Qed.

Lemma step_attempt_ok a pc :
  walk_segment a ∈ segs -> pc_ok pc -> Forall (attempt_ok segs) (step_attempt a pc).
Proof.
  intros Hseg Hpc. destruct pc as [|page|page r|page n [|[ruid ext] rest]|];
    cbn [step_attempt]; try constructor; [|constructor].
  inversion Hpc as [|? ? Hr _]; subst. split; [exact Hseg|exact Hr].
Qed.

Lemma schedule_step_param a ps w :
  walk_segment a ∈ segs -> Forall pc_ok (workers_pc ps) ->
  exists cs,
    Forall (attempt_ok segs) cs
    /\ forall d, schedule_step tx fetch a (ps_with_dd d ps) w
                 = ps_with_dd (replay tx cs d) (schedule_step tx fetch a ps w).
Proof.
  intros Hseg Hpcs. unfold schedule_step.
  change (workers_pc (ps_with_dd ?d ps)) with (workers_pc ps).
  destruct (workers_pc ps !! w) as [pc|] eqn:Hpc.
  - exists (step_attempt a pc). split.
    + apply step_attempt_ok; [exact Hseg|]. eapply Forall_lookup_1; eauto.
    + intros d. rewrite worker_step_param.
      destruct (worker_step tx fetch a pc ps) as [pc' ps']. reflexivity.
  - exists []. split; [constructor|]. intros d. reflexivity.
Qed.

Lemma schedule_step_pcs_ok a ps w :
  walk_segment a ∈ segs -> Forall pc_ok (workers_pc ps) ->
  Forall pc_ok (workers_pc (schedule_step tx fetch a ps w)).
Proof.
  intros Hseg Hpcs. unfold schedule_step.
  destruct (workers_pc ps !! w) as [pc|] eqn:Hpc; [|exact Hpcs].
  assert (pc_ok pc) as Hok by (eapply Forall_lookup_1; eauto).
  destruct (worker_step_summary tx fetch segs fetch_ok a pc ps Hseg Hok)
    as (Hok' & Hw & _).
  destruct (worker_step tx fetch a pc ps) as [pc' ps']. cbn [fst snd] in *.
  cbn [workers_pc]. rewrite Hw. apply Forall_insert; assumption.
Qed.

Lemma run_schedule_param a sched : forall ps,
  walk_segment a ∈ segs -> Forall pc_ok (workers_pc ps) ->
  exists cs,
    Forall (attempt_ok segs) cs
    /\ forall d, run_schedule tx fetch a sched (ps_with_dd d ps)
                 = ps_with_dd (replay tx cs d) (run_schedule tx fetch a sched ps).
Proof.
  induction sched as [|w rest IH]; intros ps Hseg Hpcs.
  - exists []. split; [constructor|]. intros d. reflexivity.
  - destruct (schedule_step_param a ps w Hseg Hpcs) as (cs1 & Hcs1 & H1).
    destruct (IH (schedule_step tx fetch a ps w) Hseg
                 (schedule_step_pcs_ok a ps w Hseg Hpcs)) as (cs2 & Hcs2 & H2).
    exists (cs1 ++ cs2). split; [apply Forall_app; auto|].
    intros d.
    change (run_schedule tx fetch a (w :: rest) (ps_with_dd d ps))
      with (run_schedule tx fetch a rest (schedule_step tx fetch a (ps_with_dd d ps) w)).
    rewrite H1, H2, replay_app. reflexivity.
Qed.

Lemma process_segment_parallel_param a workers sched st :
  walk_segment a ∈ segs ->
  (forall d, _process_segment_parallel_pages tx fetch a workers sched (with_dd d st)
             = None)
  \/ exists cs st',
       Forall (attempt_ok segs) cs
       /\ (tickets_ok segs (global_retry_list st)
           -> tickets_ok segs (global_retry_list st'))
       /\ forall d, _process_segment_parallel_pages tx fetch a workers sched
                      (with_dd d st)
                    = Some (with_dd (replay tx cs d) st').
Proof.
  intros Hseg. unfold _process_segment_parallel_pages.
  set (ps0 := PState st 1 false (replicate workers AtTop)).
  assert (Forall pc_ok (workers_pc ps0)) as Hpcs.
  { subst ps0. cbn [workers_pc]. apply Forall_replicate. exact I. }
  destruct (run_schedule_param a sched ps0 Hseg Hpcs) as (cs & Hcs & H).
  destruct (run_schedule_summary tx fetch segs fetch_ok a sched ps0 Hseg Hpcs)
    as (_ & _ & _ & Ht).
  assert (forall d, PState (with_dd d st) 1 false (replicate workers AtTop)
                    = ps_with_dd d ps0) as Hps0 by reflexivity.
  destruct (all_returned (run_schedule tx fetch a sched ps0)) eqn:Hall.
  - right. exists cs, (shared (run_schedule tx fetch a sched ps0)).
    split3; [exact Hcs|exact Ht|].
    intros d. rewrite Hps0, H.
    change (all_returned (ps_with_dd ?x ?y)) with (all_returned y).
    rewrite Hall. reflexivity.
  - left. intros d. rewrite Hps0, H.
    change (all_returned (ps_with_dd ?x ?y)) with (all_returned y).
    rewrite Hall. reflexivity.
Qed.

(** The loop over the partitions, with one worker or several: for given
    interleavings, the requests and the record ids that reach the locked
    region do not depend on the deduplication state. *)
Lemma walk_segments_param args last_pages scheds :
  forall todo st,
    (forall seg, seg ∈ todo -> seg ∈ segs) ->
    (forall d, walk_segments tx fetch args last_pages scheds todo (with_dd d st) = None)
    \/ exists cs st',
         Forall (attempt_ok segs) cs
         /\ (tickets_ok segs (global_retry_list st)
             -> tickets_ok segs (global_retry_list st'))
         /\ forall d, walk_segments tx fetch args last_pages scheds todo (with_dd d st)
                      = Some (with_dd (replay tx cs d) st').
Proof.
  induction todo as [|seg rest IH]; intros st Hsub.
  - right. exists [], st. split3; [constructor|auto|intros d; reflexivity].
  - cbn [walk_segments].
    destruct (last_pages !! seg) as [last|]; [|left; intros d; reflexivity].
    assert (walk_segment (segment_args args seg last) ∈ segs) as Hseg.
    { destruct seg as [c s]. apply Hsub. left. }
    assert ((forall d,
               (if bool_decide (effective_workers args <= 1)
                then Some (_process_one_segment tx fetch (segment_args args seg last)
                             (with_dd d st)).2
                else _process_segment_parallel_pages tx fetch
                       (segment_args args seg last)
                       (Z.to_nat (effective_workers args)) (scheds seg) (with_dd d st))
               = None)
            \/ exists cs1 st1,
                 Forall (attempt_ok segs) cs1
                 /\ (tickets_ok segs (global_retry_list st)
                     -> tickets_ok segs (global_retry_list st1))
                 /\ forall d,
                      (if bool_decide (effective_workers args <= 1)
                       then Some (_process_one_segment tx fetch
                                    (segment_args args seg last) (with_dd d st)).2
                       else _process_segment_parallel_pages tx fetch
                              (segment_args args seg last)
                              (Z.to_nat (effective_workers args)) (scheds seg)
                              (with_dd d st))
                      = Some (with_dd (replay tx cs1 d) st1)) as Hone.
    { destruct (bool_decide (effective_workers args <= 1)).
      - right.
        destruct (process_one_segment_param tx fetch segs fetch_ok
                    (segment_args args seg last) st Hseg)
          as (cs1 & st1 & Hcs1 & Ht1 & H1).
        exists cs1, st1. split3; [exact Hcs1|exact Ht1|].
        intros d. rewrite H1. reflexivity.
      - apply process_segment_parallel_param. exact Hseg. }
    destruct Hone as [Hnone|(cs1 & st1 & Hcs1 & Ht1 & H1)].
    + left. intros d. rewrite Hnone. reflexivity.
    + destruct (IH st1) as [Hnone|(cs2 & st2 & Hcs2 & Ht2 & H2)].
      { intros s Hs. apply Hsub. right. exact Hs. }
      * left. intros d. rewrite H1. apply Hnone.
      * right. exists (cs1 ++ cs2), st2.
        split3; [apply Forall_app; auto|auto|].
        intros d. rewrite H1, H2, replay_app. reflexivity.
Qed.

(** The interleavings are read only when there are two workers or more, and
    only at the partitions of the run. *)
Lemma walk_segments_scheds args last_pages scheds scheds' :
  (effective_workers args <= 1 \/ forall seg, scheds' seg = scheds seg) ->
  forall todo st,
    walk_segments tx fetch args last_pages scheds' todo st
    = walk_segments tx fetch args last_pages scheds todo st.
Proof.
  intros Hsame. induction todo as [|seg rest IH]; intros st; [reflexivity|].
  cbn [walk_segments]. destruct (last_pages !! seg) as [last|]; [|reflexivity].
  destruct Hsame as [Hw|Heq].
  - rewrite bool_decide_eq_true_2 by exact Hw. apply IH.
  - rewrite Heq.
    destruct (if bool_decide (effective_workers args <= 1) then _ else _);
      [apply IH|reflexivity].
Qed.

End ParametricParallel.

(** ** Keys of rows and the final merge *)

Section Merge.
Import Collect Notions.

Variable tx : taxonomy.

Lemma ruid_ok_hex r : ruid_ok r = true -> Text.all_hex r = true.
Proof. unfold ruid_ok. intros H. apply andb_true_iff in H as [H _]. exact H. Qed.

Lemma ruid_ok_nonempty r : ruid_ok r = true -> Text.is_empty r = false.
Proof.
  unfold ruid_ok. intros H. apply andb_true_iff in H as [_ H].
  destruct r; [discriminate H|reflexivity].
Qed.

Lemma lower_empty s : Text.lower s = ""%string <-> s = ""%string.
Proof. destruct s; cbn; split; congruence. Qed.

Lemma row_key_ruid row ruid key :
  row_key (_name_to_segment tx) row = Some (ruid, key) -> key.1.1 = Text.lower ruid.
Proof.
  unfold row_key. destruct row as [|r0 [|r1 [|r2 rest]]]; try discriminate.
  destruct (_name_to_segment tx !! _) as [[c s]|]; [|discriminate].
  intros [= <- <-]. reflexivity.
Qed.

Lemma key_of_Some row k :
  key_of tx row = Some k <-> exists ruid, row_key (_name_to_segment tx) row = Some (ruid, k).
Proof.
  unfold key_of. destruct (row_key (_name_to_segment tx) row) as [[ru k']|]; cbn.
  - split; [intros [= ->]; eauto|intros (ru' & [= _ ->]); reflexivity].
  - split; [discriminate|intros (ru' & H); discriminate].
Qed.

(** The row written for a key is filed under that key. *)
Lemma row_key_row_of r c s :
  names_ok tx (c, s) -> ruid_ok r = true ->
  row_key (_name_to_segment tx) (row_of tx (r, c, s)) = Some (r, (r, c, s)).
Proof.
  unfold names_ok, row_of, row_key. cbn [fst snd].
  destruct (get_category_and_subcategory_names tx c s) as [cn sn]. cbn [fst snd].
  intros (H1 & H2 & H3) Hr.
  rewrite (all_hex_strip r (ruid_ok_hex r Hr)), H1, H2.
  rewrite (all_hex_lower r (ruid_ok_hex r Hr)).
  match goal with |- match ?x with _ => _ end = _ =>
    replace x with (Some (c, s)) by (symmetry; exact H3) end.
  reflexivity.
Qed.

Lemma key_of_row_of r c s :
  names_ok tx (c, s) -> ruid_ok r = true ->
  key_of tx (row_of tx (r, c, s)) = Some (r, c, s).
Proof. intros Hn Hr. unfold key_of. rewrite row_key_row_of by assumption. reflexivity. Qed.

Lemma keys_of_rows_of ks :
  (forall r c s, (r, c, s) ∈ ks -> names_ok tx (c, s) /\ ruid_ok r = true) ->
  omap (key_of tx) (map (row_of tx) ks) = ks.
Proof.
  induction ks as [|[[r c] s] rest IH]; intros Hok; [reflexivity|].
  cbn [map omap list_omap]. destruct (Hok r c s) as [Hn Hr]; [left|].
  rewrite key_of_row_of by assumption. f_equal. apply IH.
  intros r' c' s' H. apply Hok. right. exact H.
Qed.

(** *** Counting the rows of a key *)

Lemma count_key_app k l1 l2 :
  count_key tx k (l1 ++ l2) = (count_key tx k l1 + count_key tx k l2)%nat.
Proof. unfold count_key. rewrite filter_app, length_app. reflexivity. Qed.

Lemma count_key_cons k row l :
  count_key tx k (row :: l)
  = ((if decide (key_of tx row = Some k) then 1 else 0) + count_key tx k l)%nat.
Proof.
  unfold count_key. rewrite filter_cons.
  destruct (decide (key_of tx row = Some k)); reflexivity.
Qed.

Lemma count_key_absent k l : k ∉ omap (key_of tx) l -> count_key tx k l = 0%nat.
Proof.
  induction l as [|row rest IH]; intros Hk; [reflexivity|].
  rewrite count_key_cons. cbn [omap list_omap] in Hk.
  destruct (decide (key_of tx row = Some k)) as [Heq|Hne].
  - exfalso. apply Hk. rewrite Heq. left.
  - cbn. apply IH. intros Hin. apply Hk.
    destruct (key_of tx row); [right|]; exact Hin.
Qed.

Lemma count_key_once k l :
  NoDup (omap (key_of tx) l) -> k ∈ omap (key_of tx) l -> count_key tx k l = 1%nat.
Proof.
  induction l as [|row rest IH]; intros Hnd Hk; [inversion Hk|].
  rewrite count_key_cons. cbn [omap list_omap] in Hnd, Hk.
  destruct (key_of tx row) as [k'|] eqn:Hrow.
  - apply NoDup_cons in Hnd as [Hnotin Hnd].
    destruct (decide (Some k' = Some k)) as [[= ->]|Hne].
    + rewrite count_key_absent by exact Hnotin. reflexivity.
    + cbn. apply IH; [exact Hnd|].
      apply elem_of_cons in Hk as [->|Hk]; [congruence|exact Hk].
  - destruct (decide (None = Some k)); [discriminate|]. cbn. apply IH; assumption.
Qed.

(** *** The merge *)

Lemma merge_step_eq sm out row :
  merge_step (_name_to_segment tx) (sm, out) row
  = match key_of tx row with
    | Some k => if bool_decide (k ∈ sm) then (sm, out) else ({[ k ]} ∪ sm, out ++ [row])
    | None => (sm, out)
    end.
Proof.
  unfold merge_step, key_of.
  destruct (row_key (_name_to_segment tx) row) as [[ru k]|]; reflexivity.
Qed.

Lemma merge_fold rows : forall sm out,
  exists added,
    fold_left (merge_step (_name_to_segment tx)) rows (sm, out)
    = (list_to_set (omap (key_of tx) added) ∪ sm, out ++ added)
    /\ NoDup (omap (key_of tx) added)
    /\ Forall (fun row => is_Some (key_of tx row)) added
    /\ forall k, k ∈ omap (key_of tx) added
                 <-> k ∈ omap (key_of tx) rows /\ k ∉ sm.
Proof.
  induction rows as [|row rest IH]; intros sm out.
  - exists []. cbn. rewrite app_nil_r. split; [f_equal; set_solver|].
    split; [constructor|]. split; [constructor|]. set_solver.
  - cbn [fold_left omap list_omap]. rewrite merge_step_eq.
    destruct (key_of tx row) as [k|] eqn:Hk.
    + destruct (bool_decide (k ∈ sm)) eqn:Hin.
      * apply bool_decide_eq_true in Hin.
        destruct (IH sm out) as (added & Heq & Hnd & Hall & Hkeys).
        exists added. split; [exact Heq|]. split; [exact Hnd|]. split; [exact Hall|].
        intros k'. rewrite Hkeys. set_solver.
      * apply bool_decide_eq_false in Hin.
        destruct (IH ({[ k ]} ∪ sm) (out ++ [row])) as (added & Heq & Hnd & Hall & Hkeys).
        exists (row :: added). cbn [omap list_omap]. rewrite Hk.
        split.
        { eapply eq_trans; [exact Heq|]. rewrite <- app_assoc. f_equal. set_solver. }
        split; [apply NoDup_cons; split; [rewrite Hkeys; set_solver|exact Hnd]|].
        split; [constructor; [rewrite Hk; eauto|exact Hall]|].
        intros k'. rewrite elem_of_cons, Hkeys.
        destruct (decide (k' = k)) as [->|Hne]; set_solver.
    + destruct (IH sm out) as (added & Heq & Hnd & Hall & Hkeys).
      exists added. split; [exact Heq|]. split; [exact Hnd|]. split; [exact Hall|].
      exact Hkeys.
Qed.

(** Rows with distinct keys that are all new are all kept. *)
Lemma merge_fold_fresh rows : forall sm out,
  Forall (fun row => is_Some (key_of tx row)) rows ->
  NoDup (omap (key_of tx) rows) ->
  (forall k, k ∈ omap (key_of tx) rows -> k ∉ sm) ->
  (fold_left (merge_step (_name_to_segment tx)) rows (sm, out)).2 = out ++ rows.
Proof.
  induction rows as [|row rest IH]; intros sm out Hall Hnd Hnew.
  - cbn. rewrite app_nil_r. reflexivity.
  - inversion Hall as [|? ? [k Hk] Hrest]; subst.
    cbn [omap list_omap] in Hnd, Hnew. rewrite Hk in Hnd, Hnew.
    apply NoDup_cons in Hnd as [Hnotin Hnd].
    cbn [fold_left]. rewrite merge_step_eq, Hk.
    rewrite bool_decide_eq_false_2 by (apply Hnew; left).
    eapply eq_trans; [apply IH; [exact Hrest|exact Hnd|]|].
    + intros k' Hk'. specialize (Hnew k' ltac:(right; exact Hk')). set_solver.
    + rewrite <- app_assoc. reflexivity.
Qed.

(** Rows whose keys are all known already add nothing. *)
Lemma merge_fold_known rows : forall sm out,
  (forall k, k ∈ omap (key_of tx) rows -> k ∈ sm) ->
  fold_left (merge_step (_name_to_segment tx)) rows (sm, out) = (sm, out).
Proof.
  induction rows as [|row rest IH]; intros sm out Hknown; [reflexivity|].
  cbn [fold_left]. rewrite merge_step_eq. cbn [omap list_omap] in Hknown.
  destruct (key_of tx row) as [k|].
  - rewrite bool_decide_eq_true_2 by (apply Hknown; left).
    apply IH. intros k' Hk'. apply Hknown. right. exact Hk'.
  - apply IH. exact Hknown.
Qed.

(** What [load_existing_ruids_from_csv] loads from a file with the header:
    the keys of its rows, but for the rows without record id. *)
Lemma load_existing_spec h (rows : list (list string)) (k : record_key) :
  header_ok h = true ->
  k ∈ load_existing_ruids_from_csv tx (h :: rows)
  <-> k ∈ omap (key_of tx) rows /\ k.1.1 <> ""%string.
Proof.
  intros Hh. unfold load_existing_ruids_from_csv. rewrite Hh.
  assert (forall acc : gset record_key,
             k ∈ fold_left
                   (fun seen row =>
                      match row_key (_name_to_segment tx) row with
                      | Some (ruid, key) =>
                          if Text.is_empty ruid then seen else {[ key ]} ∪ seen
                      | None => seen
                      end) rows acc
             <-> k ∈ acc \/ (k ∈ omap (key_of tx) rows /\ k.1.1 <> ""%string)) as Hgen.
  { induction rows as [|row rest IH]; intros acc.
    - cbn. set_solver.
    - cbn [fold_left omap list_omap]. rewrite IH. unfold key_of at 2.
      destruct (row_key (_name_to_segment tx) row) as [[ru key]|] eqn:Hrow;
        cbn [fmap option_fmap option_map snd]; [|tauto].
      pose proof (row_key_ruid row ru key Hrow) as Hru.
      destruct (Text.is_empty ru) eqn:Hempty.
      + destruct ru; [|discriminate Hempty]. cbn in Hru.
        rewrite elem_of_cons. split; [tauto|].
        intros [H|[[->|H] Hne]]; auto. contradiction.
      + assert (key.1.1 <> ""%string) as Hne.
        { rewrite Hru. intros H0. destruct ru; [discriminate Hempty|discriminate H0]. }
        rewrite elem_of_cons, elem_of_union, elem_of_singleton.
        split; [intros [[->|H]|H]; auto; tauto|].
        intros [H|[[->|H] Hk]]; auto. }
  rewrite Hgen. set_solver.
Qed.

End Merge.

(** ** A run of [main] with an output file *)

Section MainCsv.
Import Collect Notions.

Variable tx : taxonomy.
Variable fetch : oracle.
Variable args : arguments.
Variable last_pages : gmap segment Z.
Hypothesis fetch_ok : oracle_ok fetch.

Local Ltac split3 := split; [|split].

Lemma main_csv_output scheds existing run :
  main_csv tx fetch args last_pages scheds existing = Some run ->
  output run
  = match existing with
    | Some file => merge_output tx file (CSV_COLUMNS :: temp_rows (dd (rs (retried run))))
    | None => CSV_COLUMNS :: temp_rows (dd (rs (retried run)))
    end.
Proof.
  unfold main_csv.
  destruct (negb (forallb _ _)); [discriminate|].
  destruct (negb (forallb _ _)); [discriminate|].
  destruct (walk_segments _ _ _ _ _ _ _) as [st|]; [|discriminate].
  intros [= <-]. reflexivity.
Qed.

(** The deduplication state at the end of a run is the initial one after the
    record ids that reached the locked region, all of them of partitions of
    the run and as the extraction yields them. *)
Lemma main_csv_attempts scheds existing run :
  main_csv tx fetch args last_pages scheds existing = Some run ->
  exists cs,
    Forall (attempt_ok (segments_list tx args last_pages)) cs
    /\ dd (rs (retried run)) = replay tx cs (dd (initial_state tx existing)).
Proof.
  unfold main_csv.
  destruct (negb (forallb _ _)); [discriminate|].
  destruct (negb (forallb _ _)); [discriminate|].
  destruct (walk_segments _ _ _ _ _ _ _) as [st|] eqn:Hwalk; [|discriminate].
  intros [= <-]. cbn [retried].
  destruct (walk_segments_summary tx fetch (segments_list tx args last_pages) fetch_ok
              args last_pages scheds _ _ _ (fun _ H => H) Hwalk)
    as (cs1 & Hcs1 & Hdd1 & Ht1).
  destruct (global_retry_pass_param tx fetch (segments_list tx args last_pages)
              fetch_ok st) as (cs2 & r' & Hcs2 & H2).
  { apply Ht1. constructor. }
  exists (cs1 ++ cs2). split; [apply Forall_app; auto|].
  destruct (H2 (dd st)) as [Hdd2 _]. rewrite with_dd_id in Hdd2.
  rewrite Hdd2, Hdd1, replay_app. reflexivity.
Qed.

(** For given interleavings of the workers, the record ids that reach the
    locked region, and their order, do not depend on the output file found
    at start-up. *)
Lemma main_csv_same_attempts scheds :
  exists cs,
    Forall (attempt_ok (segments_list tx args last_pages)) cs
    /\ forall existing run,
         main_csv tx fetch args last_pages scheds existing = Some run ->
         dd (rs (retried run)) = replay tx cs (dd (initial_state tx existing)).
Proof.
  destruct (walk_segments_param tx fetch (segments_list tx args last_pages)
              fetch_ok args last_pages scheds (segments_list tx args last_pages)
              (initial_state tx None) (fun _ H => H))
    as [Hnone|(cs1 & st1 & Hcs1 & Ht1 & H1)].
  - exists []. split; [constructor|]. intros existing run. unfold main_csv.
    destruct (negb (forallb _ _)); [discriminate|].
    destruct (negb (forallb _ _)); [discriminate|].
    change (initial_state tx existing)
      with (with_dd (dd (initial_state tx existing)) (initial_state tx None)).
    rewrite Hnone. discriminate.
  - destruct (global_retry_pass_param tx fetch (segments_list tx args last_pages)
                fetch_ok st1) as (cs2 & r' & Hcs2 & H2).
    { apply Ht1. constructor. }
    exists (cs1 ++ cs2). split; [apply Forall_app; auto|].
    intros existing run. unfold main_csv.
    destruct (negb (forallb _ _)); [discriminate|].
    destruct (negb (forallb _ _)); [discriminate|].
    change (initial_state tx existing)
      with (with_dd (dd (initial_state tx existing)) (initial_state tx None)).
    rewrite H1. intros [= <-]. cbn [retried].
    destruct (H2 (replay tx cs1 (dd (initial_state tx existing)))) as [Hdd2 _].
    eapply eq_trans; [exact Hdd2|]. rewrite replay_app. reflexivity.
Qed.

(** Whether a run returns, for given interleavings, does not depend on the
    output file found at start-up. *)
Lemma main_csv_returns scheds existing existing' run :
  main_csv tx fetch args last_pages scheds existing = Some run ->
  exists run', main_csv tx fetch args last_pages scheds existing' = Some run'.
Proof.
  unfold main_csv.
  destruct (negb (forallb _ _)); [discriminate|].
  destruct (negb (forallb _ _)); [discriminate|].
  destruct (walk_segments_param tx fetch (segments_list tx args last_pages)
              fetch_ok args last_pages scheds (segments_list tx args last_pages)
              (initial_state tx None) (fun _ H => H))
    as [Hnone|(cs1 & st1 & _ & _ & H1)].
  - change (initial_state tx existing)
      with (with_dd (dd (initial_state tx existing)) (initial_state tx None)).
    rewrite Hnone. discriminate.
  - intros _.
    change (initial_state tx existing')
      with (with_dd (dd (initial_state tx existing')) (initial_state tx None)).
    rewrite H1. eauto.
Qed.

(** The interleavings matter only with two workers or more. *)
Lemma main_csv_scheds scheds scheds' existing :
  (effective_workers args <= 1 \/ forall seg, scheds' seg = scheds seg) ->
  main_csv tx fetch args last_pages scheds' existing
  = main_csv tx fetch args last_pages scheds existing.
Proof.
  intros Hsame. unfold main_csv.
  rewrite (walk_segments_scheds tx fetch args last_pages scheds scheds' Hsame).
  reflexivity.
Qed.

Lemma main_csv_consistent scheds existing run :
  main_csv tx fetch args last_pages scheds existing = Some run ->
  exists ks,
    consistent tx (initial_seen tx existing) (dd (rs (retried run))) ks
    /\ Forall (attempt_ok (segments_list tx args last_pages))
              (attempts (dd (rs (retried run)))).
Proof.
  intros Hrun. destruct (main_csv_attempts scheds existing run Hrun) as (cs & Hcs & Hdd).
  destruct (consistent_replay tx (initial_seen tx existing) cs _ []
              (consistent_start tx (initial_seen tx existing))) as (ks & Hks).
  exists ks. rewrite Hdd. split; [exact Hks|].
  rewrite replay_attempts. exact Hcs.
Qed.

End MainCsv.

(** ** The rows of the output file *)

Section Output.
Import Collect Notions.

Variable tx : taxonomy.
Variable fetch : oracle.
Variable args : arguments.
Variable last_pages : gmap segment Z.
Hypothesis fetch_ok : oracle_ok fetch.
Hypothesis tx_ok : taxonomy_ok tx (segments_list tx args last_pages).

Lemma header_ok_shape h :
  header_ok h = true ->
  exists rest, h = "RUID"%string :: "Category"%string :: "Subcategory"%string :: rest.
Proof.
  unfold header_ok. intros H. apply bool_decide_eq_true in H.
  destruct h as [|a [|b [|c rest]]]; try discriminate H.
  cbn in H. injection H as -> -> ->. eauto.
Qed.

(** The header is not filed under a record id of the service. *)
Lemma header_key h (k : record_key) :
  header_ok h = true -> key_of tx h = Some k -> ruid_ok k.1.1 = false.
Proof.
  intros Hh Hk. destruct (header_ok_shape h Hh) as (rest & ->).
  apply key_of_Some in Hk as (ru & Hk).
  apply row_key_ruid in Hk as Hru. rewrite Hru.
  unfold row_key in Hk.
  destruct (_name_to_segment tx !! _) as [[c s]|]; [|discriminate].
  injection Hk as <- _. reflexivity.
Qed.

Lemma count_key_header h (k : record_key) l :
  header_ok h = true -> ruid_ok k.1.1 = true ->
  count_key tx k (h :: l) = count_key tx k l.
Proof.
  intros Hh Hr. rewrite count_key_cons. case_decide as Hk; [|reflexivity].
  rewrite (header_key h k Hh Hk) in Hr. discriminate.
Qed.

(** The keys written by a run are of partitions of the run, with record ids
    as the extraction yields them. *)
Lemma written_keys_ok seen0 d ks :
  consistent tx seen0 d ks ->
  Forall (attempt_ok (segments_list tx args last_pages)) (attempts d) ->
  forall r c s, (r, c, s) ∈ ks -> names_ok tx (c, s) /\ ruid_ok r = true.
Proof.
  intros Hc Hok r c s Hk.
  apply (written_attempted _ _ _ _ Hc) in Hk.
  rewrite Forall_forall in Hok. destruct (Hok _ Hk) as [Hseg Hr].
  split; [apply tx_ok; exact Hseg|exact Hr].
Qed.

Lemma merge_output_shape h (rows temp : list (list string)) t :
  header_ok h = true ->
  exists added1 added2,
    merge_output tx (h :: rows) (t :: temp) = h :: added1 ++ added2
    /\ NoDup (omap (key_of tx) (added1 ++ added2))
    /\ Forall (fun row => is_Some (key_of tx row)) (added1 ++ added2)
    /\ forall k, k ∈ omap (key_of tx) (added1 ++ added2)
                 <-> k ∈ omap (key_of tx) rows \/ k ∈ omap (key_of tx) temp.
Proof.
  intros Hh. destruct (header_ok_shape h Hh) as (rest & ->).
  set (h := "RUID"%string :: _) in *.
  destruct (merge_fold tx rows ∅ [h]) as (added1 & E1 & Hnd1 & Hall1 & Hk1).
  destruct (merge_fold tx temp (list_to_set (omap (key_of tx) added1) ∪ ∅) ([h] ++ added1))
    as (added2 & E2 & Hnd2 & Hall2 & Hk2).
  exists added1, added2. split.
  { unfold merge_output. cbn [tail]. subst h. cbn match.
    set (h := "RUID"%string :: _) in *.
    eapply eq_trans; [apply (f_equal snd); eapply eq_trans; [|exact E2];
                      f_equal; exact E1|].
    cbn [snd]. rewrite <- app_assoc. reflexivity. }
  split.
  { rewrite omap_app. apply NoDup_app. split; [exact Hnd1|]. split; [|exact Hnd2].
    intros k Hin1 Hin2. apply Hk2 in Hin2 as [_ Hnot]. apply Hnot.
    apply elem_of_union. left. apply elem_of_list_to_set. exact Hin1. }
  split; [apply Forall_app; auto|].
  intros k. rewrite omap_app, elem_of_app, Hk1, Hk2.
  rewrite elem_of_union, elem_of_list_to_set, Hk1.
  destruct (decide (k ∈ omap (key_of tx) rows)); set_solver.
Qed.

(** The output file of a run: the header, then one row for each key written
    by the run or present in the output file found at start-up. *)
Lemma output_shape scheds existing run ks :
  valid_output existing ->
  main_csv tx fetch args last_pages scheds existing = Some run ->
  consistent tx (initial_seen tx existing) (dd (rs (retried run))) ks ->
  Forall (attempt_ok (segments_list tx args last_pages))
         (attempts (dd (rs (retried run)))) ->
  exists hdr data,
    output run = hdr :: data
    /\ header_ok hdr = true
    /\ NoDup (omap (key_of tx) data)
    /\ Forall (fun row => is_Some (key_of tx row)) data
    /\ forall k, k ∈ omap (key_of tx) data <-> k ∈ ks \/ k ∈ existing_keys tx existing.
Proof.
  intros Hvalid Hrun Hc Hok.
  pose proof (written_keys_ok _ _ _ Hc Hok) as Hks.
  rewrite (main_csv_output tx fetch args last_pages scheds existing run Hrun).
  rewrite (rows_follow _ _ _ _ Hc).
  pose proof (keys_of_rows_of tx ks Hks) as Hkeys.
  destruct existing as [file|].
  - destruct Hvalid as (h & rows & -> & Hh).
    destruct (merge_output_shape h rows (map (row_of tx) ks) CSV_COLUMNS Hh)
      as (added1 & added2 & Heq & Hnd & Hall & Hk).
    exists h, (added1 ++ added2). split; [exact Heq|]. split; [exact Hh|].
    split; [exact Hnd|]. split; [exact Hall|].
    intros k. rewrite Hk, Hkeys. cbn [existing_keys tail]. tauto.
  - exists CSV_COLUMNS, (map (row_of tx) ks). split; [reflexivity|].
    split; [reflexivity|]. rewrite Hkeys.
    split; [exact (written_once _ _ _ _ Hc)|]. split.
    + apply Forall_fmap, Forall_forall. intros [[r c] s] Hin.
      destruct (Hks r c s Hin) as [Hn Hr].
      change (is_Some (key_of tx (row_of tx (r, c, s)))).
      rewrite key_of_row_of by assumption. eauto.
    + intros k. cbn [existing_keys]. set_solver.
Qed.

End Output.

Section MergeFresh.
Import Collect Notions.

Variable tx : taxonomy.

(** Merging a file of rows with distinct keys with new rows of other,
    distinct keys keeps the file as it is and appends the new rows. *)
Lemma merge_output_fresh h (data temp : list (list string)) t :
  header_ok h = true ->
  Forall (fun row => is_Some (key_of tx row)) data ->
  NoDup (omap (key_of tx) data) ->
  Forall (fun row => is_Some (key_of tx row)) temp ->
  NoDup (omap (key_of tx) temp) ->
  (forall k, k ∈ omap (key_of tx) temp -> k ∉ omap (key_of tx) data) ->
  merge_output tx (h :: data) (t :: temp) = h :: data ++ temp.
Proof.
  intros Hh Hall Hnd Hall' Hnd' Hnew.
  destruct (header_ok_shape h Hh) as (rest & ->).
  set (h := "RUID"%string :: _) in *.
  destruct (merge_fold tx data ∅ [h]) as (added & E1 & _ & _ & Hk1).
  pose proof (merge_fold_fresh tx data ∅ [h] Hall Hnd ltac:(set_solver)) as E1'.
  rewrite E1 in E1'. cbn [snd] in E1'. apply app_inv_head in E1'. subst added.
  unfold merge_output. cbn [tail]. subst h. cbn match.
  set (h := "RUID"%string :: _) in *.
  eapply eq_trans;
    [apply (f_equal snd);
     apply (f_equal (fold_left (merge_step (_name_to_segment tx)) temp)); exact E1|].
  eapply eq_trans; [apply merge_fold_fresh; [exact Hall'|exact Hnd'|]|].
  - intros k Hk. specialize (Hnew k Hk). set_solver.
  - rewrite <- app_assoc. reflexivity.
Qed.

End MergeFresh.

(** ** The catch-all partition and re-runs *)

Section DedupClaims.
Import Collect Notions.

Variable tx : taxonomy.
Variable fetch : oracle.
Variable args : arguments.
Variable last_pages : gmap segment Z.

(** Two ways to split a list around an element name the same position, or one
    of the elements is before the other. *)
Lemma split_twice {A : Type} (x y : A) pre : forall post pre' post',
  pre ++ x :: post = pre' ++ y :: post' ->
  (pre = pre' /\ x = y) \/ x ∈ pre' \/ y ∈ pre.
Proof.
  induction pre as [|a pre IH]; intros post pre' post' Heq.
  - destruct pre' as [|b pre'].
    + injection Heq as -> _. auto.
    + injection Heq as -> _. right. left. left.
  - destruct pre' as [|b pre'].
    + injection Heq as -> _. right. right. left.
    + injection Heq as -> Heq. destruct (IH _ _ _ Heq) as [[-> ->]|[H|H]].
      * auto.
      * right. left. right. exact H.
      * right. right. right. exact H.
Qed.

(** C4 (amended).  In a run over partitions with well-formed names, with an
    output file that is absent at start-up or begins with the header, for a
    record id [R] that reaches the deduplication step under the specific
    subcategory [S] of category [C] before it reaches it under the catch-all
    partition of [C], and with no row keyed [(R, C, -1)] in the output file
    found at start-up: the final output has exactly one row keyed
    [(R, C, S)] and no row keyed [(R, C, -1)]. *)
Theorem catch_all_collapses scheds existing run R C S pre post :
  oracle_ok fetch ->
  taxonomy_ok tx (segments_list tx args last_pages) ->
  valid_output existing ->
  main_csv tx fetch args last_pages scheds existing = Some run ->
  S <> -1 ->
  attempts (dd (rs (retried run))) = pre ++ (C, S, R) :: post ->
  (C, -1, R) ∉ pre ->
  (R, C, -1) ∉ existing_keys tx existing ->
  count_key tx (R, C, S) (output run) = 1%nat
  /\ count_key tx (R, C, -1) (output run) = 0%nat.
Proof.
  intros Hfetch Htx Hvalid Hrun HS Hatt Hpre Hexist.
  destruct (main_csv_consistent tx fetch args last_pages Hfetch scheds existing run Hrun)
    as (ks & Hc & Hok).
  destruct (output_shape tx fetch args last_pages Hfetch Htx scheds existing run ks
              Hvalid Hrun Hc Hok)
    as (hdr & data & Hout & Hhdr & Hnd & _ & Hkeys).
  assert ((C, S, R) ∈ attempts (dd (rs (retried run)))) as Hin.
  { rewrite Hatt. apply elem_of_app. right. left. }
  assert (ruid_ok R = true) as HR.
  { rewrite Forall_forall in Hok. apply (Hok _ Hin). }
  rewrite Hout, !count_key_header by assumption. split.
  - apply count_key_once; [exact Hnd|]. apply Hkeys.
    pose proof (attempts_seen _ _ _ _ Hc C S R Hin) as Hseen.
    replace (S =? -1) with false in Hseen by (symmetry; apply Z.eqb_neq; exact HS).
    rewrite (seen_grows _ _ _ _ Hc) in Hseen.
    apply elem_of_union in Hseen as [Hseen|Hseen].
    + right. destruct existing as [file|]; [|cbn in Hseen; set_solver].
      destruct Hvalid as (h & rows & -> & Hh).
      cbn [initial_seen] in Hseen. apply load_existing_spec in Hseen as [Hseen _];
        [exact Hseen|exact Hh].
    + left. apply elem_of_list_to_set in Hseen. exact Hseen.
  - apply count_key_absent. rewrite Hkeys. intros [Hk|Hk]; [|exact (Hexist Hk)].
    destruct (catch_all_first _ _ _ _ Hc R C Hk) as (pre' & post' & Hatt' & Hfirst).
    rewrite Hatt in Hatt'.
    destruct (split_twice _ _ _ _ _ _ Hatt') as [[_ Heq]|[H|H]].
    + injection Heq as ->. apply HS. reflexivity.
    + exact (Hfirst S H).
    + exact (Hpre H).
Qed.

(** A record id that the state skips leaves it as it is, history apart. *)
Lemma replay_covered cs : forall d,
  Forall (covered d) cs ->
  replay tx cs d = Dedup (seen d) (seen_per_ruid_cat d) (temp_rows d) (attempts d ++ cs).
Proof.
  induction cs as [|[[c s] r] rest IH]; intros d Hcov.
  - cbn. rewrite app_nil_r. destruct d. reflexivity.
  - inversion Hcov as [|? ? Ha Hrest]; subst.
    change (replay tx (((c, s), r) :: rest) d)
      with (replay tx rest (commit_ruid tx c s r d)).
    assert (commit_ruid tx c s r d
            = Dedup (seen d) (seen_per_ruid_cat d) (temp_rows d)
                    (attempts d ++ [(c, s, r)])) as Hskip.
    { unfold commit_ruid. unfold covered in Ha. cbn [fst snd] in Ha.
      destruct (s =? -1); rewrite bool_decide_eq_true_2 by exact Ha; reflexivity. }
    rewrite Hskip, IH.
    + cbn [seen seen_per_ruid_cat temp_rows attempts]. rewrite <- app_assoc. reflexivity.
    + eapply Forall_impl; [exact Hrest|]. intros a Hcova. exact Hcova.
Qed.

(** What a re-run loads from the output of a run: every key the run has
    seen. *)
Lemma rerun_seen existing run ks hdr data :
  valid_output existing ->
  consistent tx (initial_seen tx existing) (dd (rs (retried run))) ks ->
  (forall r c s, (r, c, s) ∈ ks -> names_ok tx (c, s) /\ ruid_ok r = true) ->
  output run = hdr :: data ->
  header_ok hdr = true ->
  (forall k, k ∈ omap (key_of tx) data <-> k ∈ ks \/ k ∈ existing_keys tx existing) ->
  seen (dd (rs (retried run))) ⊆ initial_seen tx (Some (output run)).
Proof.
  intros Hvalid Hc Hks Hout Hhdr Hkeys k Hk. cbn [initial_seen]. rewrite Hout.
  apply load_existing_spec; [exact Hhdr|].
  rewrite (seen_grows _ _ _ _ Hc) in Hk. apply elem_of_union in Hk as [Hk|Hk].
  - destruct existing as [file|]; [|cbn in Hk; set_solver].
    destruct Hvalid as (h & rows & -> & Hh).
    cbn [initial_seen] in Hk. apply load_existing_spec in Hk as [Hk Hne]; [|exact Hh].
    split; [|exact Hne]. apply Hkeys. right. exact Hk.
  - apply elem_of_list_to_set in Hk. split; [apply Hkeys; left; exact Hk|].
    destruct k as [[r c] s]. destruct (Hks r c s Hk) as [_ Hr].
    cbn. intros ->. discriminate Hr.
Qed.

(** C7 (amended).  Over partitions with well-formed names and an output file
    that is absent or begins with the header, take a second run against the
    same service with the output of the first run as its output file.  With
    any number of workers and any interleaving of their steps, the second
    run keeps the file as it is and appends the rows it writes, and the data
    rows of the result have a key each, no two the same: no row is lost and
    no duplicate is added.  With one worker, or with the interleavings of
    the first run, the second run returns, writes no row and leaves the file
    as it is. *)
Theorem rerun_keeps_rows scheds scheds' existing run :
  oracle_ok fetch ->
  taxonomy_ok tx (segments_list tx args last_pages) ->
  valid_output existing ->
  main_csv tx fetch args last_pages scheds existing = Some run ->
  (forall run',
     main_csv tx fetch args last_pages scheds' (Some (output run)) = Some run' ->
     output run' = output run ++ temp_rows (dd (rs (retried run')))
     /\ NoDup (omap (key_of tx) (tail (output run')))
     /\ Forall (fun row => is_Some (key_of tx row)) (tail (output run')))
  /\ ((effective_workers args <= 1 \/ forall seg, scheds' seg = scheds seg) ->
      exists run',
        main_csv tx fetch args last_pages scheds' (Some (output run)) = Some run'
        /\ temp_rows (dd (rs (retried run'))) = []
        /\ output run' = output run).
Proof.
  intros Hfetch Htx Hvalid Hrun.
  destruct (main_csv_consistent tx fetch args last_pages Hfetch scheds existing run Hrun)
    as (ks & Hc & Hok).
  destruct (output_shape tx fetch args last_pages Hfetch Htx scheds existing run ks
              Hvalid Hrun Hc Hok)
    as (hdr & data & Hout & Hhdr & Hnd & Hall & Hkeys).
  pose proof (written_keys_ok tx args last_pages Htx _ _ _ Hc Hok) as Hks.
  pose proof (rerun_seen existing run ks hdr data Hvalid Hc Hks Hout Hhdr Hkeys)
    as Hseen.
  split.
  - (* any workers, any interleaving *)
    intros run' Hrun'.
    destruct (main_csv_consistent tx fetch args last_pages Hfetch scheds' _ run' Hrun')
      as (ks' & Hc' & Hok').
    pose proof (written_keys_ok tx args last_pages Htx _ _ _ Hc' Hok') as Hks'.
    pose proof (keys_of_rows_of tx ks' Hks') as Hkeys'.
    assert (forall k, k ∈ ks' -> k ∉ omap (key_of tx) data) as Hnew.
    { intros k Hk Hin. apply (written_new _ _ _ _ Hc' k Hk).
      cbn [initial_seen]. rewrite Hout. apply load_existing_spec; [exact Hhdr|].
      split; [exact Hin|]. destruct k as [[r c] s].
      destruct (Hks' r c s Hk) as [_ Hr]. cbn. intros ->. discriminate Hr. }
    assert (Forall (fun row => is_Some (key_of tx row)) (map (row_of tx) ks')) as Hall'.
    { apply Forall_fmap, Forall_forall. intros [[r c] s] Hin.
      destruct (Hks' r c s Hin) as [Hn Hr].
      change (is_Some (key_of tx (row_of tx (r, c, s)))).
      rewrite key_of_row_of by assumption. eauto. }
    assert (output run' = hdr :: data ++ map (row_of tx) ks') as Hout'.
    { rewrite (main_csv_output tx fetch args last_pages scheds' _ run' Hrun').
      rewrite (rows_follow _ _ _ _ Hc'), Hout.
      apply merge_output_fresh; try assumption.
      - rewrite Hkeys'. exact (written_once _ _ _ _ Hc').
      - rewrite Hkeys'. exact Hnew. }
    split; [rewrite Hout', Hout, (rows_follow _ _ _ _ Hc'); reflexivity|].
    rewrite Hout'. cbn [tail]. split.
    + rewrite omap_app, Hkeys'. apply NoDup_app. split; [exact Hnd|].
      split; [|exact (written_once _ _ _ _ Hc')].
      intros k Hin Hk. exact (Hnew k Hk Hin).
    + apply Forall_app. split; assumption.
  - (* one worker, or the interleavings of the first run *)
    intros Hsame.
    rewrite (main_csv_scheds tx fetch args last_pages scheds scheds' _ Hsame).
    destruct (main_csv_same_attempts tx fetch args last_pages Hfetch scheds)
      as (cs & Hcs & Hreplay).
    destruct (main_csv_returns tx fetch args last_pages Hfetch scheds existing
                (Some (output run)) run Hrun) as (run' & Hrun').
    exists run'. split; [exact Hrun'|].
    (* everything the second run meets is already seen *)
    assert (Forall (covered (dd (initial_state tx (Some (output run))))) cs) as Hcov.
    { pose proof (Hreplay existing run Hrun) as Hdd.
      assert (attempts (dd (rs (retried run))) = cs) as Hatt.
      { rewrite Hdd, replay_attempts. reflexivity. }
      apply Forall_forall. intros [[c s] r] Hin. rewrite <- Hatt in Hin.
      pose proof (attempts_seen _ _ _ _ Hc c s r Hin) as Ha.
      unfold covered. cbn [fst snd initial_state dd seen seen_per_ruid_cat].
      destruct (s =? -1).
      - rewrite (pairs_follow _ _ _ _ Hc) in Ha.
        apply ruid_cat_pairs_spec in Ha as (s' & Ha).
        apply ruid_cat_pairs_spec. exists s'. apply Hseen, Ha.
      - apply Hseen, Ha. }
    pose proof (Hreplay (Some (output run)) run' Hrun') as Hdd'.
    rewrite (replay_covered cs _ Hcov) in Hdd'.
    assert (temp_rows (dd (rs (retried run'))) = []) as Htemp.
    { rewrite Hdd'. reflexivity. }
    split; [exact Htemp|].
    rewrite (main_csv_output tx fetch args last_pages scheds _ run' Hrun'), Htemp, Hout.
    eapply eq_trans;
      [apply (merge_output_fresh tx hdr data [] CSV_COLUMNS Hhdr Hall Hnd);
       [constructor|constructor|intros k Hk; inversion Hk]|].
    rewrite app_nil_r. reflexivity.
Qed.

End DedupClaims.

(** ** The example services *)

Section Examples.
Import Collect Notions.

Lemma two_pages_ok : oracle_ok Fixtures.two_pages.
Proof.
  intros n seg page found H. unfold Fixtures.two_pages in H.
  repeat match type of H with
         | context [if ?b then _ else _] => destruct b
         end;
    injection H as <-; repeat constructor.
Qed.

Lemma first_request_fails_ok : oracle_ok Fixtures.first_request_fails.
Proof.
  intros n seg page found H. unfold Fixtures.first_request_fails in H.
  repeat match type of H with
         | context [if ?b then _ else _] => destruct b
         end;
    try discriminate; injection H as <-; repeat constructor.
Qed.

Lemma sprites_ok args hints :
  segments_list Fixtures.sprites args hints = [(0, 5); (0, -1)] ->
  taxonomy_ok Fixtures.sprites (segments_list Fixtures.sprites args hints).
Proof.
  intros ->. intros seg Hin.
  apply elem_of_cons in Hin as [->|Hin];
    [|apply elem_of_cons in Hin as [->|Hin]; [|inversion Hin]];
    repeat split; vm_compute; reflexivity.
Qed.

(** Reading a field of the run that [main] returns. *)
Lemma run_field {A : Type} (f : run -> A) (m : option run) r v :
  m = Some r -> f <$> m = Some v -> f r = v.
Proof. intros -> H. injection H as H. exact H. Qed.

(** A run that evaluates to a result has one. *)
Lemma run_returns (m : option run) : is_Some m -> exists r, m = Some r.
Proof. intros [r ->]. exists r. reflexivity. Qed.

End Examples.

Lemma catch_all_collapses_witness :
  exists run,
    Collect.main_csv Fixtures.sprites Fixtures.two_pages Fixtures.one_worker
      Fixtures.two_page_hints (fun _ => []) None = Some run
    /\ Notions.count_key Fixtures.sprites (Fixtures.ruid_a, 0, 5) (Collect.output run)
       = 1%nat
    /\ Notions.count_key Fixtures.sprites (Fixtures.ruid_a, 0, -1) (Collect.output run)
       = 0%nat.
Proof.
  destruct (run_returns (Collect.main_csv Fixtures.sprites Fixtures.two_pages Fixtures.one_worker
              Fixtures.two_page_hints (fun _ => []) None)) as [run E];
    [apply (bool_decide_eq_true_1 _); vm_compute; reflexivity|].
  exists run. split; [exact E|].
  apply (catch_all_collapses Fixtures.sprites Fixtures.two_pages Fixtures.one_worker
           Fixtures.two_page_hints (fun _ => []) None run Fixtures.ruid_a 0 5 []
           [(0, 5, Fixtures.ruid_b); (0, -1, Fixtures.ruid_a)]).
  - exact two_pages_ok.
  - apply sprites_ok. reflexivity.
  - exact I.
  - exact E.
  - lia.
  - apply (run_field
             (fun r => Collect.attempts (Collect.dd (Collect.rs (Collect.retried r))))
             _ _ _ E).
    vm_compute. reflexivity.
  - intros H. inversion H.
  - intros H. inversion H.
Defined.

(** C4 as stated fails when the page of the specific partition that lists
    the record fails in the primary walk: the catch-all partition writes the
    record first, and the retry pass then writes it under the specific
    subcategory as well. *)
Lemma retried_page_splits_record :
  ~ (forall tx fetch args last_pages scheds existing run R C S l1 l2,
        Notions.oracle_ok fetch ->
        Notions.taxonomy_ok tx (Collect.segments_list tx args last_pages) ->
        Notions.valid_output existing ->
        Collect.main_csv tx fetch args last_pages scheds existing = Some run ->
        S <> -1 ->
        Collect.segments_list tx args last_pages = l1 ++ (C, -1) :: l2 ->
        (C, S) ∈ l1 ->
        (forall s, (C, s) ∉ l2) ->
        (C, S, R) ∈ Collect.attempts (Collect.dd (Collect.rs (Collect.retried run))) ->
        (C, -1, R) ∈ Collect.attempts (Collect.dd (Collect.rs (Collect.retried run))) ->
        Notions.count_key tx (R, C, S) (Collect.output run) = 1%nat
        /\ Notions.count_key tx (R, C, -1) (Collect.output run) = 0%nat).
Proof.
  intros H.
  destruct (run_returns (Collect.main_csv Fixtures.sprites Fixtures.first_request_fails
              Fixtures.one_worker Fixtures.one_page_hints (fun _ => []) None)) as [run E];
    [apply (bool_decide_eq_true_1 _); vm_compute; reflexivity|].
  assert (Collect.attempts (Collect.dd (Collect.rs (Collect.retried run)))
          = [(0, -1, Fixtures.ruid_a); (0, 5, Fixtures.ruid_a)]) as Hatt.
  { apply (run_field
             (fun r => Collect.attempts (Collect.dd (Collect.rs (Collect.retried r))))
             _ _ _ E).
    vm_compute. reflexivity. }
  assert (Collect.output run
          = [Collect.CSV_COLUMNS;
             [Fixtures.ruid_a; "sprite"; "all"; ""; ""; ""]%string;
             [Fixtures.ruid_a; "sprite"; "object"; ""; ""; ""]%string]) as Hout.
  { apply (run_field Collect.output _ _ _ E). vm_compute. reflexivity. }
  specialize (H Fixtures.sprites Fixtures.first_request_fails Fixtures.one_worker
                Fixtures.one_page_hints (fun _ => []) None run Fixtures.ruid_a 0 5
                [(0, 5)] [] first_request_fails_ok
                (sprites_ok Fixtures.one_worker Fixtures.one_page_hints eq_refl) I E).
  destruct H as [_ H].
  - lia.
  - reflexivity.
  - left.
  - intros s Hs. inversion Hs.
  - rewrite Hatt. right. left.
  - rewrite Hatt. left.
  - rewrite Hout in H. vm_compute in H. discriminate H.
Qed.

(** The header matters: a run that finds an empty output file leaves a file
    without header, and the next run, which takes the first line of that
    file for the header, writes the record of that line again. *)
Lemma headerless_output_repeats_row :
  exists run run',
    Collect.main_csv Fixtures.sprites Fixtures.two_pages Fixtures.one_worker
      Fixtures.two_page_hints (fun _ => []) (Some []) = Some run
    /\ Collect.main_csv Fixtures.sprites Fixtures.two_pages Fixtures.one_worker
         Fixtures.two_page_hints (fun _ => []) (Some (Collect.output run)) = Some run'
    /\ Collect.output run
       = [[Fixtures.ruid_a; "sprite"; "object"; ""; ""; ""]%string;
          [Fixtures.ruid_b; "sprite"; "object"; ""; ""; ""]%string]
    /\ Notions.count_key Fixtures.sprites (Fixtures.ruid_a, 0, 5) (Collect.output run')
       = 2%nat.
Proof.
  destruct (run_returns (Collect.main_csv Fixtures.sprites Fixtures.two_pages
              Fixtures.one_worker Fixtures.two_page_hints (fun _ => []) (Some [])))
    as [run E]; [apply (bool_decide_eq_true_1 _); vm_compute; reflexivity|].
  assert (Collect.output run
          = [[Fixtures.ruid_a; "sprite"; "object"; ""; ""; ""]%string;
             [Fixtures.ruid_b; "sprite"; "object"; ""; ""; ""]%string]) as Hout.
  { apply (run_field Collect.output _ _ _ E). vm_compute. reflexivity. }
  destruct (run_returns (Collect.main_csv Fixtures.sprites Fixtures.two_pages
              Fixtures.one_worker Fixtures.two_page_hints (fun _ => [])
              (Some (Collect.output run)))) as [run' E'];
    [rewrite Hout; apply (bool_decide_eq_true_1 _); vm_compute; reflexivity|].
  exists run, run'. split; [exact E|]. split; [exact E'|]. split; [exact Hout|].
  assert (Collect.output run'
          = [[Fixtures.ruid_a; "sprite"; "object"; ""; ""; ""]%string;
             [Fixtures.ruid_b; "sprite"; "object"; ""; ""; ""]%string;
             [Fixtures.ruid_a; "sprite"; "object"; ""; ""; ""]%string]) as Hout'.
  { apply (run_field Collect.output _ _ _ E'). rewrite Hout. vm_compute. reflexivity. }
  rewrite Hout'. vm_compute. reflexivity.
Qed.

Lemma rerun_keeps_rows_witness :
  exists run run',
    Collect.main_csv Fixtures.sprites Fixtures.two_pages Fixtures.two_workers
      Fixtures.one_page_hints Fixtures.later_page_in_flight None = Some run
    /\ Collect.main_csv Fixtures.sprites Fixtures.two_pages Fixtures.two_workers
         Fixtures.one_page_hints Fixtures.later_page_in_flight
         (Some (Collect.output run)) = Some run'
    /\ Collect.temp_rows (Collect.dd (Collect.rs (Collect.retried run'))) = []
    /\ Collect.output run' = Collect.output run
    /\ NoDup (omap (Notions.key_of Fixtures.sprites) (tail (Collect.output run'))).
Proof.
  destruct (run_returns (Collect.main_csv Fixtures.sprites Fixtures.two_pages
              Fixtures.two_workers Fixtures.one_page_hints
              Fixtures.later_page_in_flight None)) as [run E];
    [apply (bool_decide_eq_true_1 _); vm_compute; reflexivity|].
  exists run.
  destruct (rerun_keeps_rows Fixtures.sprites Fixtures.two_pages Fixtures.two_workers
              Fixtures.one_page_hints Fixtures.later_page_in_flight
              Fixtures.later_page_in_flight None run) as [Hany Hsame].
  - exact two_pages_ok.
  - apply sprites_ok. reflexivity.
  - exact I.
  - exact E.
  - destruct (Hsame (or_intror (fun _ => eq_refl))) as (run' & Hrun' & Htemp & Hout).
    destruct (Hany run' Hrun') as (_ & Hnd & _).
    exists run'. split; [exact E|]. split; [exact Hrun'|]. split; [exact Htemp|].
    split; [exact Hout|exact Hnd].
Defined.

(** C7 as stated fails with two workers, whose pages 1 and 2 of a partition
    are requested together.  Page 1 is the final page of the partition (it
    has fewer records than a full page and is at the boundary of the
    discovery phase).  In the first run it is committed and ends the
    partition while the answer of page 2 is in flight, so that answer is
    dropped, as a walk with one worker would not have asked for it.  In the
    second run both answers are looked at before the partition is marked
    done, both pages are committed, and the record of page 2 is added to the
    file. *)
Lemma parallel_rerun_adds_row :
  ~ (forall tx fetch args last_pages scheds scheds' existing run run',
        Notions.oracle_ok fetch ->
        Notions.taxonomy_ok tx (Collect.segments_list tx args last_pages) ->
        Notions.valid_output existing ->
        (forall n m seg page, fetch n seg page = fetch m seg page) ->
        Collect.main_csv tx fetch args last_pages scheds existing = Some run ->
        Collect.main_csv tx fetch args last_pages scheds' (Some (Collect.output run))
        = Some run' ->
        forall row, row ∈ Collect.output run' <-> row ∈ Collect.output run).
Proof.
  intros H.
  destruct (run_returns (Collect.main_csv Fixtures.sprites Fixtures.two_pages
              Fixtures.two_workers Fixtures.one_page_hints
              Fixtures.later_page_in_flight None)) as [run E];
    [apply (bool_decide_eq_true_1 _); vm_compute; reflexivity|].
  assert (Collect.output run
          = [Collect.CSV_COLUMNS;
             [Fixtures.ruid_a; "sprite"; "object"; ""; ""; ""]%string]) as Hout.
  { apply (run_field Collect.output _ _ _ E). vm_compute. reflexivity. }
  destruct (run_returns (Collect.main_csv Fixtures.sprites Fixtures.two_pages
              Fixtures.two_workers Fixtures.one_page_hints
              Fixtures.both_pages_examined (Some (Collect.output run))))
    as [run' E'];
    [rewrite Hout; apply (bool_decide_eq_true_1 _); vm_compute; reflexivity|].
  assert (Collect.output run'
          = [Collect.CSV_COLUMNS;
             [Fixtures.ruid_a; "sprite"; "object"; ""; ""; ""]%string;
             [Fixtures.ruid_b; "sprite"; "object"; ""; ""; ""]%string]) as Hout'.
  { apply (run_field Collect.output _ _ _ E'). rewrite Hout. vm_compute. reflexivity. }
  specialize (H Fixtures.sprites Fixtures.two_pages Fixtures.two_workers
                Fixtures.one_page_hints Fixtures.later_page_in_flight
                Fixtures.both_pages_examined None run run' two_pages_ok
                (sprites_ok Fixtures.two_workers Fixtures.one_page_hints eq_refl) I
                (fun _ _ _ _ => eq_refl) E E'
                [Fixtures.ruid_b; "sprite"; "object"; ""; ""; ""]%string).
  destruct H as [H _]. rewrite Hout, Hout' in H.
  assert (~ [Fixtures.ruid_b; "sprite"; "object"; ""; ""; ""]%string
            ∈ [Collect.CSV_COLUMNS;
               [Fixtures.ruid_a; "sprite"; "object"; ""; ""; ""]%string]) as Hn.
  { apply (bool_decide_eq_false_1 _). vm_compute. reflexivity. }
  apply Hn. apply H. apply (bool_decide_eq_true_1 _). vm_compute. reflexivity.
Qed.

(** A walk with two workers can also lose a page before the final page:
    page 2 is committed and ends the partition while the answer of page 1 is
    in flight, and the record of page 1 is dropped.  A walk with one worker
    over the same service commits it. *)
Lemma earlier_page_lost_in_flight :
  exists run one,
    Collect.main_csv Fixtures.sprites Fixtures.two_pages Fixtures.two_workers
      Fixtures.two_page_hints Fixtures.page_2_commits_first None = Some run
    /\ Collect.main_csv Fixtures.sprites Fixtures.two_pages Fixtures.one_worker
         Fixtures.two_page_hints Fixtures.page_2_commits_first None = Some one
    /\ Notions.count_key Fixtures.sprites (Fixtures.ruid_a, 0, 5) (Collect.output run)
       = 0%nat
    /\ Notions.count_key Fixtures.sprites (Fixtures.ruid_a, 0, 5) (Collect.output one)
       = 1%nat.
Proof.
  destruct (run_returns (Collect.main_csv Fixtures.sprites Fixtures.two_pages
              Fixtures.two_workers Fixtures.two_page_hints
              Fixtures.page_2_commits_first None)) as [run E];
    [apply (bool_decide_eq_true_1 _); vm_compute; reflexivity|].
  destruct (run_returns (Collect.main_csv Fixtures.sprites Fixtures.two_pages
              Fixtures.one_worker Fixtures.two_page_hints
              Fixtures.page_2_commits_first None)) as [one E1];
    [apply (bool_decide_eq_true_1 _); vm_compute; reflexivity|].
  exists run, one. split; [exact E|]. split; [exact E1|].
  assert (Collect.output run
          = [Collect.CSV_COLUMNS;
             [Fixtures.ruid_b; "sprite"; "object"; ""; ""; ""]%string;
             [Fixtures.ruid_a; "sprite"; "all"; ""; ""; ""]%string]) as Hout.
  { apply (run_field Collect.output _ _ _ E). vm_compute. reflexivity. }
  assert (Collect.output one
          = [Collect.CSV_COLUMNS;
             [Fixtures.ruid_a; "sprite"; "object"; ""; ""; ""]%string;
             [Fixtures.ruid_b; "sprite"; "object"; ""; ""; ""]%string]) as Hone.
  { apply (run_field Collect.output _ _ _ E1). vm_compute. reflexivity. }
  rewrite Hout, Hone. split; vm_compute; reflexivity.
Qed.

(** ** Boundary discovery: what the requests decide *)

Section DiscoveryRequests.
Import FindLastPages.

Variable fetch : oracle.

(** [fetch_page_with_retries] gives up with [0] after exactly [max_attempts]
    empty answers, and otherwise returns the first non-zero count without
    issuing a further request. *)
Theorem fetch_page_with_retries_spec page max_attempts : forall n,
  ((fetch_page_with_retries fetch page max_attempts n).1 = 0%nat
   /\ (fetch_page_with_retries fetch page max_attempts n).2 = (n + max_attempts)%nat
   /\ forall i, (i < max_attempts)%nat -> fetch (n + i)%nat page = 0%nat)
  \/ (exists i, (i < max_attempts)%nat
        /\ (fetch_page_with_retries fetch page max_attempts n).2 = S (n + i)
        /\ (fetch_page_with_retries fetch page max_attempts n).1 = fetch (n + i)%nat page
        /\ (0 < fetch (n + i)%nat page)%nat
        /\ forall j, (j < i)%nat -> fetch (n + j)%nat page = 0%nat).
Proof.
  induction max_attempts as [|k IH]; intros n.
  - left. cbn. split; [reflexivity|]. split; [lia|]. intros i Hi. lia.
  - cbn [fetch_page_with_retries]. unfold bind, request.
    destruct (0 <? fetch n page)%nat eqn:Hdata.
    + apply Nat.ltb_lt in Hdata. right. exists 0%nat. unfold ret. cbn [fst snd].
      rewrite Nat.add_0_r. repeat split; lia.
    + apply Nat.ltb_ge in Hdata.
      destruct (IH (S n)) as [(H1 & H2 & H3)|(i & Hi & H2 & H1 & Hpos & Hbefore)].
      * left. split; [exact H1|]. split; [rewrite H2; lia|].
        intros i Hi. destruct i as [|i].
        -- rewrite Nat.add_0_r. lia.
        -- replace (n + S i)%nat with (S n + i)%nat by lia. apply H3. lia.
      * right. exists (S i).
        replace (n + S i)%nat with (S n + i)%nat by lia.
        repeat split; try assumption; try lia.
        intros j Hj. destruct j as [|j].
        -- rewrite Nat.add_0_r. lia.
        -- replace (n + S j)%nat with (S n + j)%nat by lia. apply Hbefore. lia.
Qed.

Lemma single_attempt page n :
  fetch_page_with_retries fetch page 1 n = (fetch n page, S n).
Proof.
  unfold fetch_page_with_retries, bind, request, ret.
  destruct (fetch n page); reflexivity.
Qed.

Lemma phase1_loop_seq max_page m : forall s n,
  let probes := map (fun k => PROBE_STEP * Z.of_nat k) (seq s m) in
  ((phase1_loop fetch probes max_page n).1 = max_page + PROBE_STEP
   /\ (phase1_loop fetch probes max_page n).2 = (n + m)%nat
   /\ forall i, (i < m)%nat ->
        (0 < fetch (n + i)%nat (PROBE_STEP * Z.of_nat (s + i))%Z)%nat)
  \/ (exists i, (i < m)%nat
        /\ (phase1_loop fetch probes max_page n).1 = PROBE_STEP * Z.of_nat (s + i)
        /\ (phase1_loop fetch probes max_page n).2 = S (n + i)
        /\ fetch (n + i)%nat (PROBE_STEP * Z.of_nat (s + i))%Z = 0%nat
        /\ forall j, (j < i)%nat ->
             (0 < fetch (n + j)%nat (PROBE_STEP * Z.of_nat (s + j))%Z)%nat).
Proof.
  induction m as [|m IH]; intros s n probes; subst probes.
  - left. cbn. split; [reflexivity|]. split; [lia|]. intros i Hi. lia.
  - cbn [seq map phase1_loop]. unfold bind. rewrite single_attempt.
    destruct (fetch n (PROBE_STEP * Z.of_nat s)%Z =? 0)%nat eqn:Hempty.
    + apply Nat.eqb_eq in Hempty. right. exists 0%nat. unfold ret. cbn [fst snd].
      rewrite !Nat.add_0_r. repeat split; lia.
    + apply Nat.eqb_neq in Hempty.
      destruct (IH (S s) (S n)) as [(H1 & H2 & H3)|(i & Hi & H1 & H2 & Hz & Hbefore)].
      * left. split; [exact H1|]. split; [rewrite H2; lia|].
        intros i Hi. destruct i as [|i].
        -- rewrite !Nat.add_0_r. lia.
        -- replace (n + S i)%nat with (S n + i)%nat by lia.
           replace (s + S i)%nat with (S s + i)%nat by lia. apply H3. lia.
      * right. exists (S i).
        replace (n + S i)%nat with (S n + i)%nat by lia.
        replace (s + S i)%nat with (S s + i)%nat by lia.
        repeat split; try assumption; try lia.
        intros j Hj. destruct j as [|j].
        -- rewrite !Nat.add_0_r. lia.
        -- replace (n + S j)%nat with (S n + j)%nat by lia.
           replace (s + S j)%nat with (S s + j)%nat by lia. apply Hbefore. lia.
Qed.

Lemma phase1_first_empty_cases max_page n :
  ((phase1_first_empty fetch max_page n).1 = max_page + PROBE_STEP
   /\ (phase1_first_empty fetch max_page n).2
      = (n + Z.to_nat (max_page / PROBE_STEP))%nat
   /\ forall k : nat, (1 <= k)%nat -> PROBE_STEP * Z.of_nat k <= max_page ->
        (0 < fetch (n + k - 1)%nat (PROBE_STEP * Z.of_nat k)%Z)%nat)
  \/ (exists k : nat, (1 <= k)%nat
        /\ (phase1_first_empty fetch max_page n).1 = PROBE_STEP * Z.of_nat k
        /\ PROBE_STEP * Z.of_nat k <= max_page
        /\ (phase1_first_empty fetch max_page n).2 = (n + k)%nat
        /\ fetch (n + k - 1)%nat (PROBE_STEP * Z.of_nat k)%Z = 0%nat
        /\ forall j : nat, (1 <= j < k)%nat ->
             (0 < fetch (n + j - 1)%nat (PROBE_STEP * Z.of_nat j)%Z)%nat).
Proof.
  unfold phase1_first_empty, probe_pages.
  set (m := Z.to_nat (max_page / PROBE_STEP)).
  assert (forall k : nat, (1 <= k)%nat ->
            PROBE_STEP * Z.of_nat k <= max_page <-> (k <= m)%nat) as Hm.
  { intros k Hk. unfold m, PROBE_STEP. split; intros H.
    - assert (Z.of_nat k <= max_page / 500) by (apply Z.div_le_lower_bound; lia). lia.
    - pose proof (Z.mul_div_le max_page 500 ltac:(lia)). nia. }
  destruct (phase1_loop_seq max_page m 1 n)
    as [(H1 & H2 & H3)|(i & Hi & H1 & H2 & Hz & Hbefore)].
  - left. split; [exact H1|]. split; [exact H2|].
    intros k Hk Hle. apply Hm in Hle; [|exact Hk].
    specialize (H3 (k - 1)%nat ltac:(lia)).
    replace (n + (k - 1))%nat with (n + k - 1)%nat in H3 by lia.
    replace (1 + (k - 1))%nat with k in H3 by lia. exact H3.
  - right. exists (S i). split; [lia|]. split; [exact H1|].
    split; [apply Hm; lia|]. split; [rewrite H2; lia|].
    replace (n + S i - 1)%nat with (n + i)%nat by lia. split; [exact Hz|].
    intros j Hj. specialize (Hbefore (j - 1)%nat ltac:(lia)).
    replace (n + (j - 1))%nat with (n + j - 1)%nat in Hbefore by lia.
    replace (1 + (j - 1))%nat with j in Hbefore by lia. exact Hbefore.
Qed.

(** Phase 1 probes the multiples of [PROBE_STEP] up to [max_page] in order,
    one request each, and returns the first that answers empty, with no
    request after it.  When every probe has data (or [max_page < PROBE_STEP]
    leaves nothing to probe) it returns [max_page + PROBE_STEP] after one
    request for each of the [max_page / PROBE_STEP] probes and no other. *)
Theorem phase1_first_empty_spec max_page n :
  ((phase1_first_empty fetch max_page n).1 = max_page + PROBE_STEP
   /\ (phase1_first_empty fetch max_page n).2
      = (n + Z.to_nat (max_page / PROBE_STEP))%nat
   /\ forall k : nat, (1 <= k)%nat -> PROBE_STEP * Z.of_nat k <= max_page ->
        (0 < fetch (n + k - 1)%nat (PROBE_STEP * Z.of_nat k)%Z)%nat)
  \/ (exists k : nat, (1 <= k)%nat
        /\ (phase1_first_empty fetch max_page n).1 = PROBE_STEP * Z.of_nat k
        /\ PROBE_STEP * Z.of_nat k <= max_page
        /\ (phase1_first_empty fetch max_page n).2 = (n + k)%nat
        /\ fetch (n + k - 1)%nat (PROBE_STEP * Z.of_nat k)%Z = 0%nat
        /\ forall j : nat, (1 <= j < k)%nat ->
             (0 < fetch (n + j - 1)%nat (PROBE_STEP * Z.of_nat j)%Z)%nat).
Proof. exact (phase1_first_empty_cases max_page n). Qed.

(** The halving step of the search: the range left after one request is at
    most half the range before it. *)
Lemma log2_halved d d' : 1 <= d -> 0 <= d' -> 2 * d' <= d ->
  (if d' =? 0 then 0 else Z.log2 d' + 1) + 1 <= Z.log2 d + 1.
Proof.
  intros Hd Hd' Hhalf. destruct (d' =? 0) eqn:E.
  - pose proof (Z.log2_nonneg d). lia.
  - apply Z.eqb_neq in E.
    assert (Z.log2 (2 * d') <= Z.log2 d) by (apply Z.log2_le_mono; lia).
    rewrite Z.log2_double in H by lia. lia.
Qed.

Lemma binary_search_loop_range fuel : forall low high n,
  low <= high -> (Z.to_nat (high - low) <= fuel)%nat ->
  exists c n',
    binary_search_loop fetch fuel low high n = ((c, c), n')
    /\ low <= c <= high
    /\ (n <= n')%nat
    /\ Z.of_nat (n' - n)
       <= (if high - low =? 0 then 0 else Z.log2 (high - low) + 1).
Proof.
  induction fuel as [|k IH]; intros low high n Hle Hfuel.
  - assert (low = high) by lia. subst. exists high, n. simpl.
    rewrite Z.sub_diag, Nat.sub_diag. cbn. repeat split; lia.
  - cbn [binary_search_loop]. destruct (low <? high) eqn:Hlt.
    + apply Z.ltb_lt in Hlt.
      set (mid := (low + high + 1) / 2).
      assert (low < mid <= high) as Hmid.
      { unfold mid. split.
        - apply Z.lt_le_trans with (low + 1); [lia|].
          apply Z.div_le_lower_bound; lia.
        - apply Z.div_le_upper_bound; lia. }
      assert (low + high <= 2 * mid) as Hup.
      { unfold mid.
        pose proof (Z.mod_pos_bound (low + high + 1) 2 ltac:(lia)).
        pose proof (Z.div_mod (low + high + 1) 2 ltac:(lia)). lia. }
      assert (2 * mid <= low + high + 1) as Hdown.
      { unfold mid. apply Z.mul_div_le. lia. }
      replace (high - low =? 0) with false by (symmetry; apply Z.eqb_neq; lia).
      unfold bind. rewrite single_attempt.
      destruct (0 <? fetch n mid)%nat.
      * destruct (IH mid high (S n)) as (c & n' & Heq & Hc & Hn & Hlog); [lia|lia|].
        exists c, n'. rewrite Heq. repeat split; try lia.
        pose proof (log2_halved (high - low) (high - mid) ltac:(lia) ltac:(lia)
                      ltac:(lia)). lia.
      * destruct (IH low (mid - 1) (S n)) as (c & n' & Heq & Hc & Hn & Hlog);
          [lia|lia|].
        exists c, n'. rewrite Heq. repeat split; try lia.
        pose proof (log2_halved (high - low) (mid - 1 - low) ltac:(lia) ltac:(lia)
                      ltac:(lia)). lia.
    + apply Z.ltb_ge in Hlt. assert (low = high) by lia. subst.
      exists high, n. unfold ret. rewrite Z.sub_diag, Nat.sub_diag. cbn.
      repeat split; lia.
Qed.

Lemma binary_search_range low high n :
  low <= high ->
  exists c n',
    binary_search fetch low high n = ((c, c), n')
    /\ low <= c <= high
    /\ (n <= n')%nat
    /\ Z.of_nat (n' - n) <= Z.log2 (high - low) + 1.
Proof.
  intros Hle. unfold binary_search.
  destruct (binary_search_loop_range (Z.to_nat (high - low)) low high n Hle
              ltac:(lia)) as (c & n' & Heq & Hc & Hn & Hlog).
  exists c, n'. split; [exact Heq|]. split; [exact Hc|]. split; [exact Hn|].
  pose proof (Z.log2_nonneg (high - low)).
  destruct (high - low =? 0); lia.
Qed.

(** Whatever the service answers, the binary search over a non-empty range
    ends with [low = high] on a page of the range, after at most
    [log2 (high - low) + 1] requests. *)
Theorem binary_search_converges low high n :
  low <= high ->
  exists c n',
    binary_search fetch low high n = ((c, c), n')
    /\ low <= c <= high
    /\ (n <= n')%nat
    /\ Z.of_nat (n' - n) <= Z.log2 (high - low) + 1.
Proof. exact (binary_search_range low high n). Qed.

End DiscoveryRequests.

(** ** Boundary discovery: what is returned *)

Section DiscoveryResults.
Import FindLastPages.

Variable fetch : oracle.

Lemma confirm_loop_unfold k attempt c first_empty n :
  confirm_loop fetch (S k) attempt c first_empty n
  = if (0 <? fetch n c)%nat && (fetch (S n) (c + 1)%Z =? 0)%nat then
      (Return (Some c), S (S n))
    else if (fetch n c =? 0)%nat && (attempt =? CONFIRM_ATTEMPTS - 1)%nat then
      (Return (if 1 <? c then Some (c - 1) else None), S (S n))
    else if (0 <? fetch (S n) (c + 1)%Z)%nat then
      (Break (c + 1) (first_empty - 1), S (S n))
    else confirm_loop fetch k (S attempt) c first_empty (S (S n)).
Proof.
  cbn [confirm_loop]. unfold bind.
  rewrite !single_attempt.
  destruct ((0 <? fetch n c)%nat && (fetch (S n) (c + 1)%Z =? 0)%nat); [reflexivity|].
  destruct ((fetch n c =? 0)%nat && (attempt =? CONFIRM_ATTEMPTS - 1)%nat);
    [reflexivity|].
  destruct (0 <? fetch (S n) (c + 1)%Z)%nat; reflexivity.
Qed.

(** The ways the confirmation loop can be left. *)
Lemma confirm_loop_exits c first_empty k : forall attempt n,
  match (confirm_loop fetch k attempt c first_empty n).1 with
  | Return (Some r) => r = c \/ (r = c - 1 /\ 1 < c)
  | Return None => True
  | Break l h => l = c + 1 /\ h = first_empty - 1
  | Exhausted => True
  end.
Proof.
  induction k as [|k IH]; intros attempt n.
  - exact I.
  - rewrite confirm_loop_unfold.
    destruct ((0 <? fetch n c)%nat && (fetch (S n) (c + 1)%Z =? 0)%nat);
      [cbn; auto|].
    destruct ((fetch n c =? 0)%nat && (attempt =? CONFIRM_ATTEMPTS - 1)%nat).
    { cbn [fst]. destruct (1 <? c) eqn:E; [|exact I].
      apply Z.ltb_lt in E. right. split; [reflexivity|exact E]. }
    destruct (0 <? fetch (S n) (c + 1)%Z)%nat; [cbn; auto|].
    apply IH.
Qed.

Lemma outer_loop_bounds first_empty iters : forall low high candidate n L n',
  1 <= low <= high -> high <= first_empty - 1 -> 1 <= candidate <= first_empty - 1 ->
  outer_loop fetch iters low high candidate first_empty n = (Some L, n') ->
  1 <= L <= first_empty - 1.
Proof.
  induction iters as [|k IH]; intros low high candidate n L n' Hlow Hhigh Hcand.
  - unfold outer_loop, ret. intros [= <- _]. exact Hcand.
  - cbn [outer_loop]. unfold bind.
    destruct (binary_search_range fetch low high n ltac:(lia))
      as (c & n1 & Heq & Hc & _).
    rewrite Heq. cbn [fst].
    pose proof (confirm_loop_exits c first_empty CONFIRM_ATTEMPTS 0%nat n1) as Hex.
    destruct (confirm_loop fetch CONFIRM_ATTEMPTS 0 c first_empty n1) as [ex n2].
    cbn [fst] in Hex. destruct ex as [[r|]|l h|].
    + unfold ret. intros [= <- _]. lia.
    + unfold ret. discriminate.
    + destruct Hex as [-> ->]. destruct (first_empty - 1 <? c + 1) eqn:E.
      * unfold ret. intros [= <- _]. lia.
      * apply Z.ltb_ge in E. apply IH; lia.
    + unfold ret. intros [= <- _]. lia.
Qed.

(** Whatever the service answers, a page returned by the two phases is at
    least 1 and below [max_page + PROBE_STEP]: step 0 never records a last
    page that step 1 would reject as smaller than 1. *)
Theorem find_last_page_bounds max_page n L n' :
  find_last_page fetch max_page n = (Some L, n') ->
  1 <= L <= max_page + PROBE_STEP - 1.
Proof.
  unfold find_last_page, bind.
  pose proof (phase1_first_empty_cases fetch max_page n) as Hp.
  destruct (phase1_first_empty fetch max_page n) as [first_empty n1].
  cbn [fst snd] in Hp.
  assert (first_empty <= max_page + PROBE_STEP) as Hfe.
  { unfold PROBE_STEP in *. destruct Hp as [[-> _]|(k & _ & -> & Hle & _)]; lia. }
  unfold phase2_binary_search_to_last.
  destruct (first_empty - 1 <? 1) eqn:E; [unfold ret; discriminate|].
  apply Z.ltb_ge in E. intros H.
  apply outer_loop_bounds in H; lia.
Qed.

(** With answers that are all empty the search moves down to [low]. *)
Lemma binary_search_loop_empty fuel : forall low high n,
  (forall m p, fetch m p = 0%nat) ->
  low <= high -> (Z.to_nat (high - low) <= fuel)%nat ->
  exists n', binary_search_loop fetch fuel low high n = ((low, low), n').
Proof.
  induction fuel as [|k IH]; intros low high n Hzero Hle Hfuel.
  - assert (low = high) by lia. subst. exists n. reflexivity.
  - cbn [binary_search_loop]. destruct (low <? high) eqn:Hlt.
    + apply Z.ltb_lt in Hlt.
      set (mid := (low + high + 1) / 2).
      assert (low < mid <= high) as Hmid.
      { unfold mid. split.
        - apply Z.lt_le_trans with (low + 1); [lia|].
          apply Z.div_le_lower_bound; lia.
        - apply Z.div_le_upper_bound; lia. }
      unfold bind. rewrite single_attempt, Hzero. cbn [Nat.ltb Nat.leb].
      apply IH; [exact Hzero|lia|lia].
    + apply Z.ltb_ge in Hlt. assert (low = high) by lia. subst.
      exists n. reflexivity.
Qed.

Lemma find_last_page_all_empty max_page n :
  (forall m p, fetch m p = 0%nat) ->
  (find_last_page fetch max_page n).1 = None.
Proof.
  intros Hzero. unfold find_last_page, bind.
  destruct (phase1_first_empty fetch max_page n) as [first_empty n1].
  unfold phase2_binary_search_to_last.
  destruct (first_empty - 1 <? 1) eqn:E; [reflexivity|].
  apply Z.ltb_ge in E.
  unfold max_outer. cbn [outer_loop]. unfold bind, binary_search.
  destruct (binary_search_loop_empty (Z.to_nat (first_empty - 1 - 1)) 1
              (first_empty - 1) n1 Hzero ltac:(lia) ltac:(lia)) as (n2 & ->).
  cbn [fst]. unfold CONFIRM_ATTEMPTS.
  rewrite !confirm_loop_unfold, !Hzero. reflexivity.
Qed.

(** A partition for which every request comes back empty has no last page:
    the two phases return [None]. *)
Theorem find_last_page_empty max_page n :
  (forall m p, fetch m p = 0%nat) ->
  (find_last_page fetch max_page n).1 = None.
Proof. exact (find_last_page_all_empty max_page n). Qed.

End DiscoveryResults.

Section DiscoveryMonotone.
Import FindLastPages.

Variable f : Z -> nat.

(** For a deterministic service whose pages [1 .. L] have data and whose
    later pages have none, with [1 <= L <= max_page], the two phases return
    [L]. *)
Theorem find_last_page_monotone L max_page n :
  1 <= L <= max_page ->
  (forall p, 1 <= p <= L -> (0 < f p)%nat) ->
  (forall p, L < p -> f p = 0%nat) ->
  (find_last_page (deterministic f) max_page n).1 = Some L.
Proof.
  intros HL Hdata Hnone. unfold find_last_page, bind.
  pose proof (phase1_first_empty_cases (deterministic f) max_page n) as Hp.
  destruct (phase1_first_empty (deterministic f) max_page n) as [first_empty n1].
  cbn [fst snd] in Hp. unfold deterministic in Hp at 1 2 3.
  assert (L < first_empty) as Hfe.
  { unfold PROBE_STEP in *.
    destruct Hp as [[-> _]|(k & Hk & -> & _ & _ & Hz & _)]; [lia|].
    destruct (Z.lt_ge_cases L (500 * Z.of_nat k)) as [?|Hin]; [assumption|].
    specialize (Hdata (500 * Z.of_nat k) ltac:(lia)). lia. }
  clear Hp. unfold phase2_binary_search_to_last.
  destruct (first_empty - 1 <? 1) eqn:E; [apply Z.ltb_lt in E; lia|].
  unfold max_outer. cbn [outer_loop]. unfold bind, binary_search.
  destruct (binary_search_loop_deterministic f
              (Z.to_nat (first_empty - 1 - 1)) 1 (first_empty - 1) n1)
    as (c & n2 & Heq & Hc & Hlo & Hhi); [lia|lia|].
  rewrite Heq. cbn [fst].
  assert (c = L) as ->.
  { assert (0 < f c)%nat as Hpos.
    { destruct Hlo as [->|?]; [apply Hdata; lia|assumption]. }
    assert (c <= L).
    { destruct (Z.le_gt_cases c L) as [?|Hgt]; [assumption|].
      specialize (Hnone c Hgt). lia. }
    destruct Hhi as [->|Hnext]; [lia|].
    destruct (Z.le_gt_cases L c) as [?|Hlt]; [lia|].
    specialize (Hdata (c + 1) ltac:(lia)). lia. }
  destruct (confirm_loop_deterministic f L first_empty n2) as (n3 & ->).
  assert ((0 <? f L)%nat && (f (L + 1) =? 0)%nat = true) as ->.
  { apply andb_true_iff. split.
    - apply Nat.ltb_lt. apply Hdata. lia.
    - apply Nat.eqb_eq. apply Hnone. lia. }
  reflexivity.
Qed.

End DiscoveryMonotone.

Section DiscoveryRun.
Import FindLastPages.

Lemma discover_aborts fetch api_total c s cn sn segs : forall results n,
  (c, s, cn, sn) ∈ segs ->
  (forall m p, fetch m (c, s) p = 0%nat) ->
  (discover fetch api_total segs results n).1 = None.
Proof.
  induction segs as [|[[[c' s'] cn'] sn'] rest IH]; intros results n Hin Hzero.
  - inversion Hin.
  - cbn [discover]. unfold bind.
    destruct (find_last_page (fun m page => fetch m (c', s') page)
                (max_page_estimate (api_total (c', s'))) n) as [last n1] eqn:E.
    destruct last as [l|]; [|reflexivity].
    apply elem_of_cons in Hin as [Heq|Hin].
    + injection Heq as <- <- <- <-.
      pose proof (find_last_page_all_empty (fun m page => fetch m (c, s) page)
                    (max_page_estimate (api_total (c, s))) n
                    (fun m p => Hzero m p)) as Hnone.
      rewrite E in Hnone. discriminate Hnone.
    + apply IH; assumption.
Qed.

(** Outside test mode, a run over a list of partitions of which one answers
    every request empty exits before the table is rewritten. *)
Theorem main_exits_on_empty_partition fetch api_total segments file c s cn sn :
  (c, s, cn, sn) ∈ segments ->
  (forall m p, fetch m (c, s) p = 0%nat) ->
  main false fetch api_total segments file = None.
Proof.
  intros Hin Hzero.
  pose proof (discover_aborts fetch api_total c s cn sn segments [] 0%nat Hin Hzero)
    as Hnone.
  destruct segments as [|seg rest]; [inversion Hin|].
  unfold main. cbv zeta. cbn match. rewrite Hnone. reflexivity.
Qed.

End DiscoveryRun.

Lemma binary_search_converges_witness :
  exists c n',
    FindLastPages.binary_search
      (FindLastPages.deterministic Fixtures.pages_1_to_42) 1 599 0%nat = ((c, c), n')
    /\ 1 <= c <= 599
    /\ (0 <= n')%nat
    /\ Z.of_nat (n' - 0) <= Z.log2 (599 - 1) + 1.
Proof.
  apply (binary_search_converges
           (FindLastPages.deterministic Fixtures.pages_1_to_42) 1 599 0%nat).
  lia.
Defined.

Lemma find_last_page_bounds_witness :
  (FindLastPages.find_last_page (FindLastPages.deterministic Fixtures.pages_1_to_42)
     100 0%nat).1 = Some 42
  /\ 1 <= 42 <= 100 + FindLastPages.PROBE_STEP - 1.
Proof.
  split; [vm_compute; reflexivity|].
  eapply (find_last_page_bounds
            (FindLastPages.deterministic Fixtures.pages_1_to_42) 100 0%nat 42 _).
  vm_compute. reflexivity.
Defined.

Lemma find_last_page_empty_witness :
  (FindLastPages.find_last_page (FindLastPages.deterministic (fun _ => 0%nat))
     8750 0%nat).1 = None.
Proof.
  apply (find_last_page_empty (FindLastPages.deterministic (fun _ => 0%nat))
           8750 0%nat).
  reflexivity.
Defined.

Lemma find_last_page_monotone_witness :
  (FindLastPages.find_last_page (FindLastPages.deterministic Fixtures.pages_1_to_42)
     100 0%nat).1 = Some 42.
Proof.
  apply (find_last_page_monotone Fixtures.pages_1_to_42 42 100 0%nat).
  - lia.
  - intros p Hp. unfold Fixtures.pages_1_to_42.
    replace (p <=? 42) with true by (symmetry; apply Z.leb_le; lia). lia.
  - intros p Hp. unfold Fixtures.pages_1_to_42.
    replace (p <=? 42) with false by (symmetry; apply Z.leb_gt; lia). reflexivity.
Defined.

Lemma main_exits_on_empty_partition_witness :
  FindLastPages.main false (fun _ _ _ => 0%nat) (fun _ => None)
    [(0, 5, "sprite", "object")] None = None.
Proof.
  apply (main_exits_on_empty_partition (fun _ _ _ => 0%nat) (fun _ => None)
           [(0, 5, "sprite", "object")] None 0 5 "sprite" "object").
  - left.
  - reflexivity.
Defined.

(** ** The boundary table as a file *)

Section TableFiles.
Import FindLastPages LastPages.

Lemma segment_le_total : Total segment_le.
Proof. intros [a1 a2] [b1 b2]. unfold segment_le. cbn. lia. Qed.

Lemma segment_le_trans : Transitive segment_le.
Proof. intros [a1 a2] [b1 b2] [c1 c2]. unfold segment_le. cbn. lia. Qed.

Lemma sorted_keys_elem m k : k ∈ sorted_keys m <-> is_Some (m !! k).
Proof.
  unfold sorted_keys. rewrite merge_sort_Permutation. split.
  - intros Hin. apply list_elem_of_fmap in Hin as ([k' v] & -> & Hin).
    apply elem_of_map_to_list in Hin. eauto.
  - intros [v Hv]. apply list_elem_of_fmap. exists (k, v). split; [reflexivity|].
    apply elem_of_map_to_list. exact Hv.
Qed.

Lemma sorted_keys_NoDup m : NoDup (sorted_keys m).
Proof.
  unfold sorted_keys. rewrite merge_sort_Permutation.
  apply NoDup_fst_map_to_list.
Qed.

Lemma write_table_keys m :
  map (fun '(c, s, _, _, _) => (c, s)) (write_table m) = sorted_keys m.
Proof.
  unfold write_table.
  assert (forall k, k ∈ sorted_keys m -> is_Some (m !! k)) as Hall.
  { intros k. apply sorted_keys_elem. }
  induction (sorted_keys m) as [|[c s] keys IH]; [reflexivity|].
  destruct (Hall (c, s) ltac:(left)) as [[[cn sn] last] Hv].
  change (omap ?g ((c, s) :: keys))
    with (match g (c, s) with
          | Some y => y :: omap g keys
          | None => omap g keys
          end).
  cbv beta.
  match goal with
  | |- context [@lookup ?K ?V ?M ?I (c, s) m] =>
      replace (@lookup K V M I (c, s) m) with (Some (cn, sn, last))
        by (symmetry; exact Hv)
  end.
  cbn [map fst snd]. f_equal.
  apply IH. intros k Hk. apply Hall. right. exact Hk.
Qed.

Lemma write_table_elem m c s cn sn last :
  (c, s, cn, sn, last) ∈ write_table m <-> m !! (c, s) = Some (cn, sn, last).
Proof.
  split.
  - unfold write_table. intros Hin.
    apply list_elem_of_omap in Hin as ([c' s'] & _ & Hrow).
    destruct (m !! (c', s')) as [[[cn' sn'] last']|] eqn:Hv; [|discriminate].
    cbn [fst snd] in Hrow. injection Hrow as H1 H2 H3 H4 H5. subst. exact Hv.
  - apply (write_table_lookup m (c, s)).
Qed.

(** The table step 0 writes is in ascending order of (category id,
    subcategory id), has one row per partition, and has exactly the rows of
    the merged dict. *)
Theorem write_table_sorted m :
  StronglySorted segment_le (map (fun '(c, s, _, _, _) => (c, s)) (write_table m))
  /\ NoDup (map (fun '(c, s, _, _, _) => (c, s)) (write_table m))
  /\ forall c s cn sn last,
       (c, s, cn, sn, last) ∈ write_table m <-> m !! (c, s) = Some (cn, sn, last).
Proof.
  rewrite write_table_keys. split; [|split].
  - unfold sorted_keys.
    apply (@StronglySorted_merge_sort _ segment_le _ segment_le_trans segment_le_total).
  - apply sorted_keys_NoDup.
  - apply write_table_elem.
Qed.

Lemma load_rows_absent rows : forall m k,
  (forall r, r ∈ rows -> row_segment r ≠ Some k) ->
  fold_left load_row rows m !! k = m !! k.
Proof.
  induction rows as [|r rows IH]; intros m k Hno; [reflexivity|].
  cbn [fold_left]. rewrite IH.
  - apply load_row_other. apply Hno. left.
  - intros r' Hr'. apply Hno. right. exact Hr'.
Qed.

Lemma read_back_segment w :
  row_segment (read_back w) = Some (w.1.1.1.1, w.1.1.1.2).
Proof. destruct w as [[[[c s] cn] sn] last]. reflexivity. Qed.

Lemma read_back_write_table m :
  fold_left load_row (map read_back (write_table m)) ∅ = m.
Proof.
  apply map_eq. intros [c s].
  destruct (m !! (c, s)) as [[[cn sn] last]|] eqn:Hv.
  - eapply eq_trans; [|symmetry; exact Hv].
    apply (load_rows_lookup (map read_back (write_table m)) ∅ c s cn sn last).
    + apply list_elem_of_fmap. exists (c, s, cn, sn, last). split; [reflexivity|].
      apply write_table_elem. exact Hv.
    + intros r' Hr' Hseg. apply list_elem_of_fmap in Hr' as (w & -> & Hw).
      rewrite read_back_segment in Hseg.
      destruct w as [[[[c' s'] cn'] sn'] last']. cbn [fst snd] in Hseg.
      injection Hseg as -> ->. apply write_table_elem in Hw.
      pose proof (eq_trans (eq_sym Hv) Hw) as Heq.
      injection Heq as -> -> ->. reflexivity.
  - eapply eq_trans; [|symmetry; exact Hv].
    rewrite load_rows_absent; [apply lookup_empty|].
    intros r Hr Hseg. apply list_elem_of_fmap in Hr as (w & -> & Hw).
    rewrite read_back_segment in Hseg.
    destruct w as [[[[c' s'] cn'] sn'] last']. cbn [fst snd] in Hseg.
    injection Hseg as -> ->. apply write_table_elem in Hw.
    pose proof (eq_trans (eq_sym Hv) Hw) as Heq. discriminate Heq.
Qed.

(** Step 0 reads its own table back unchanged: loading the rows it wrote
    gives the dict they were written from. *)
Theorem load_existing_last_pages_write_table m :
  load_existing_last_pages (Some (map read_back (write_table m))) = m.
Proof. exact (read_back_write_table m). Qed.

Lemma load_rows_entries rows : forall out m,
  load_rows rows out = inr m ->
  (forall seg last, out !! seg = Some last -> 1 <= last) ->
  forall seg last, m !! seg = Some last -> 1 <= last.
Proof.
  induction rows as [|row rows IH]; intros out m Hload Hout seg last Hm.
  - injection Hload as <-. exact (Hout seg last Hm).
  - cbn [load_rows] in Hload.
    destruct (category_id row) as [cid|]; [|discriminate].
    destruct (subcategory_id row) as [sid|]; [|discriminate].
    destruct (last_page row) as [l|]; [|discriminate].
    destruct (l <? 1) eqn:E; [discriminate|]. apply Z.ltb_ge in E.
    apply (IH _ _ Hload) with seg; [|exact Hm].
    intros seg' last' Hl. destruct (decide (seg' = (cid, sid))) as [->|Hne].
    + rewrite lookup_insert_eq in Hl. injection Hl as <-. exact E.
    + rewrite lookup_insert_ne in Hl by congruence. exact (Hout seg' last' Hl).
Qed.

(** When [load_last_pages] returns a dict, every last page in it is at least
    1, so that the later check of [main] for a last page below 1 cannot
    fail. *)
Theorem load_last_pages_valid file m seg last :
  load_last_pages file = inr m -> m !! seg = Some last -> 1 <= last.
Proof.
  destruct file as [rows|]; [|discriminate]. cbn [load_last_pages].
  intros Hload Hm. apply (load_rows_entries rows ∅ m Hload) with seg; [|exact Hm].
  intros seg' last' H. rewrite lookup_empty in H. discriminate.
Qed.

Lemma load_rows_written ws : forall out,
  Forall (fun w : written_row => 1 <= w.2) ws ->
  exists m, load_rows (map read_back ws) out = inr m
    /\ forall k, m !! k
         = match fold_left load_row (map read_back ws) ∅ !! k with
           | Some v => Some v.2
           | None => out !! k
           end.
Proof.
  induction ws as [|w ws IH] using rev_ind; intros out Hok.
  - exists out. split; [reflexivity|]. intros k. cbn. rewrite lookup_empty. reflexivity.
  - apply Forall_app in Hok as [Hws Hw]. inversion Hw as [|? ? Hlast _]; subst.
    destruct (IH out Hws) as (m & Hm & Hlook).
    destruct w as [[[[c s] cn] sn] last]. cbn [snd] in Hlast.
    exists (<[(c, s) := last]> m). split.
    + rewrite map_app. clear Hlook IH. revert out m Hm.
      induction (map read_back ws) as [|r rs IHr]; intros out m Hm.
      * injection Hm as <-. cbn.
        replace (last <? 1) with false by (symmetry; apply Z.ltb_ge; lia).
        reflexivity.
      * cbn [app load_rows] in *.
        destruct (category_id r) as [cid|]; [|discriminate].
        destruct (subcategory_id r) as [sid|]; [|discriminate].
        destruct (last_page r) as [l|]; [|discriminate].
        destruct (l <? 1); [discriminate|]. apply IHr. exact Hm.
    + intros k. rewrite map_app, fold_left_app. cbn [map fold_left load_row read_back
        category_id subcategory_id last_page category_name subcategory_name default].
      destruct (decide (k = (c, s))) as [->|Hne].
      * rewrite !lookup_insert_eq. reflexivity.
      * rewrite !lookup_insert_ne by congruence. apply Hlook.
Qed.

(** Step 1 reads the table of step 0: when every last page of the dict
    step 0 writes is at least 1, [load_last_pages] returns the last page of
    every partition of the table. *)
Theorem load_last_pages_write_table m :
  (forall k v, m !! k = Some v -> 1 <= v.2) ->
  load_last_pages (Some (map read_back (write_table m))) = inr (snd <$> m).
Proof.
  intros Hpos. cbn [load_last_pages].
  destruct (load_rows_written (write_table m) ∅) as (m' & -> & Hlook).
  { apply Forall_forall. intros [[[[c s] cn] sn] last] Hw.
    apply write_table_elem in Hw. exact (Hpos _ _ Hw). }
  f_equal. apply map_eq. intros k.
  rewrite Hlook, read_back_write_table, lookup_fmap.
  destruct (m !! k); [reflexivity|apply lookup_empty].
Qed.

(** A test run asks nothing of the rows of the table it finds: whatever the
    service answers and whatever rows the file holds (each with a field for
    every column of the header, as [table_row] has them), the rewritten
    table has last page 1 for each of the four test partitions. *)
Theorem main_test_mode fetch api_total segments file :
  exists table,
    main true fetch api_total segments file = Some table
    /\ forall c s cn sn,
         (c, s, cn, sn) ∈ TEST_SEGMENTS -> (c, s, cn, sn, 1) ∈ table.
Proof.
  eexists. split; [reflexivity|].
  intros c s cn sn Hin. apply write_table_elem. unfold TEST_SEGMENTS in *.
  cbn [map update_existing fold_left].
  repeat (apply elem_of_cons in Hin as [Heq|Hin];
          [injection Heq as -> -> -> ->;
           repeat (first [apply lookup_insert_eq
                         |rewrite lookup_insert_ne by discriminate])|]).
  all: try solve [inversion Hin].
Qed.

End TableFiles.

Lemma load_last_pages_valid_witness :
  LastPages.load_last_pages (Some Samples.one_row_table) = inr {[ (0, 5) := 42 ]}
  /\ 1 <= 42.
Proof.
  split; [reflexivity|].
  apply (load_last_pages_valid (Some Samples.one_row_table)
           {[ (0, 5) := 42 ]} (0, 5) 42); reflexivity.
Defined.

Lemma load_last_pages_write_table_witness :
  LastPages.load_last_pages
    (Some (map LastPages.read_back
             (FindLastPages.write_table {[ (0, 5) := ("sprite", "object", 42) ]})))
  = inr (snd <$> {[ (0, 5) := ("sprite", "object", 42) ]}).
Proof.
  apply (load_last_pages_write_table {[ (0, 5) := ("sprite", "object", 42) ]}).
  intros k v H. apply lookup_singleton_Some in H as [_ <-]. cbn. lia.
Defined.

(** ** Collection: the requests of a partition walk *)

Section Walks.
Import Collect Notions.

Variable tx : taxonomy.
Variable fetch : oracle.

(** One iteration of the sequential walk either stops without a request, or
    requests the current page and then moves to the next page or stops. *)
Lemma seq_iteration_shape a l st :
  ((seq_iteration tx fetch a l st).1.1 = Stop
   /\ (seq_iteration tx fetch a l st).1.2 = l
   /\ (seq_iteration tx fetch a l st).2 = st)
  \/ (requests (seq_iteration tx fetch a l st).2
        = requests st ++ [(walk_segment a, page l)]
      /\ above (max_page_cap a) (page l) = false
      /\ at_least (pages_per_category a) (pages_done l) = false
      /\ pages_done l <= pages_done (seq_iteration tx fetch a l st).1.2
         <= pages_done l + 1
      /\ (((seq_iteration tx fetch a l st).1.1 = Continue
           /\ page (seq_iteration tx fetch a l st).1.2 = page l + 1)
          \/ ((seq_iteration tx fetch a l st).1.1 = Stop
              /\ page (seq_iteration tx fetch a l st).1.2 = page l))).
Proof.
  unfold seq_iteration, do_request.
  destruct (total_reached a st); [left; auto|].
  destruct (at_least (pages_per_category a) (pages_done l)); [left; auto|].
  destruct (above (max_page_cap a) (page l)); [left; auto|].
  right.
  destruct (fetch (length (requests st)) (walk_segment a) (page l)) as [found|];
    [|cbn; repeat split; auto; lia].
  destruct (length found =? 0)%nat; [cbn; repeat split; auto; lia|].
  set (st1 := CState _ _ _ _ _).
  assert (requests
            match max_total_pages a with
            | Some _ => bump_total (note_content (walk_segment a) (page l) st1)
            | None => note_content (walk_segment a) (page l) st1
            end = requests st ++ [(walk_segment a, page l)]) as Hreq.
  { destruct (max_total_pages a); reflexivity. }
  destruct (total_reached a _); [cbn [fst snd pages_done page]; repeat split; auto; lia|].
  destruct (_ && _); cbn [fst snd pages_done page set_dd requests];
    repeat split; auto; lia.
Qed.

Lemma pages_from_cons seg p k :
  pages_from seg p (S k) = (seg, p) :: pages_from seg (p + 1) k.
Proof.
  unfold pages_from. cbn [seq map]. rewrite Z.add_0_r. f_equal.
  rewrite <- seq_shift, map_map. apply map_ext. intros i. f_equal. lia.
Qed.

Lemma seq_loop_requests a cap fuel : forall l st,
  max_page_cap a = Some cap ->
  exists k : nat,
    requests (seq_loop tx fetch a fuel l st).2
    = requests st ++ pages_from (walk_segment a) (page l) k
    /\ (k = 0%nat \/ page l + Z.of_nat k - 1 <= cap).
Proof.
  induction fuel as [|fuel IH]; intros l st Hcap.
  - exists 0%nat. cbn. rewrite app_nil_r. auto.
  - cbn [seq_loop]. pose proof (seq_iteration_shape a l st) as H.
    destruct (seq_iteration tx fetch a l st) as [[fl l'] st']. cbn [fst snd] in H.
    destruct H as [(-> & -> & ->)|(Hreq & Habove & _ & _ & Hflow)].
    + exists 0%nat. cbn. rewrite app_nil_r. auto.
    + assert (page l <= cap) as Hpage.
      { rewrite Hcap in Habove. cbn in Habove.
        apply bool_decide_eq_false in Habove. lia. }
      destruct Hflow as [[-> Hnext]|[-> _]].
      * destruct (IH l' st' Hcap) as (k & Hk & Hbound).
        exists (S k). rewrite Hk, Hreq, Hnext, pages_from_cons, <- app_assoc.
        split; [reflexivity|]. right. destruct Hbound as [->|Hb]; lia.
      * exists 1%nat. cbn [snd]. rewrite Hreq. split; [|right; lia].
        unfold pages_from. cbn. rewrite Z.add_0_r. reflexivity.
Qed.

(** The sequential walk of a partition requests its pages 1, 2, ..., [k] in
    this order, each once, and no page above the page cap. *)
Theorem process_one_segment_requests a cap st :
  max_page_cap a = Some cap ->
  exists k : nat,
    requests (_process_one_segment tx fetch a st).2
    = requests st ++ pages_from (walk_segment a) 1 k
    /\ Z.of_nat k <= Z.max 0 cap.
Proof.
  intros Hcap. unfold _process_one_segment.
  destruct (seq_loop_requests a cap (walk_fuel a) (SeqLocal 0 1 []) st Hcap)
    as (k & Hk & Hbound).
  destruct (seq_loop tx fetch a (walk_fuel a) (SeqLocal 0 1 []) st) as [l st'].
  cbn [snd page] in *. exists k. split; [exact Hk|]. lia.
Qed.

Lemma seq_loop_fuel a cap fuel : forall extra l st,
  max_page_cap a = Some cap ->
  (Z.to_nat (cap + 1 - page l) < fuel)%nat ->
  seq_loop tx fetch a (fuel + extra) l st = seq_loop tx fetch a fuel l st.
Proof.
  induction fuel as [|fuel IH]; intros extra l st Hcap Hfuel; [lia|].
  cbn [seq_loop Nat.add]. pose proof (seq_iteration_shape a l st) as H.
  destruct (seq_iteration tx fetch a l st) as [[fl l'] st']. cbn [fst snd] in H.
  destruct fl; [|reflexivity].
  destruct H as [(Hflow & _)|(_ & Habove & _ & _ & Hflow)]; [discriminate|].
  destruct Hflow as [[_ Hnext]|[Hflow _]]; [|discriminate].
  rewrite Hcap in Habove. cbn in Habove. apply bool_decide_eq_false in Habove.
  apply IH; [exact Hcap|]. rewrite Hnext. lia.
Qed.

(** The [while True] loop of the sequential walk ends by one of its breaks
    within [cap + 1] iterations: running it longer changes nothing. *)
Theorem process_one_segment_terminates a cap st extra :
  max_page_cap a = Some cap ->
  seq_loop tx fetch a (walk_fuel a + extra) (SeqLocal 0 1 []) st
  = seq_loop tx fetch a (walk_fuel a) (SeqLocal 0 1 []) st.
Proof.
  intros Hcap. apply seq_loop_fuel with cap; [exact Hcap|].
  unfold walk_fuel. rewrite Hcap.
  change (default 0 (Some cap)) with cap. cbn [page].
  replace (cap + 1 - 1) with cap by lia. lia.
Qed.

Lemma seq_loop_pages_done a n fuel : forall l st,
  pages_per_category a = Some n ->
  pages_done l <= n ->
  pages_done (seq_loop tx fetch a fuel l st).1 <= n.
Proof.
  induction fuel as [|fuel IH]; intros l st Hn Hdone; [exact Hdone|].
  cbn [seq_loop]. pose proof (seq_iteration_shape a l st) as H.
  destruct (seq_iteration tx fetch a l st) as [[fl l'] st']. cbn [fst snd] in H.
  assert (pages_done l' <= n) as Hdone'.
  { destruct H as [(_ & -> & _)|(_ & _ & Hleast & Hd & _)]; [exact Hdone|].
    rewrite Hn in Hleast. cbn in Hleast. apply bool_decide_eq_false in Hleast. lia. }
  destruct fl; [apply IH; assumption|exact Hdone'].
Qed.

(** With a limit on the pages per partition (the test mode sets it to 1) the
    sequential walk commits the records of at most that many pages. *)
Theorem process_one_segment_pages_done a n st :
  pages_per_category a = Some n -> 0 <= n ->
  (_process_one_segment tx fetch a st).1 <= n.
Proof.
  intros Hn Hpos. unfold _process_one_segment.
  pose proof (seq_loop_pages_done a n (walk_fuel a) (SeqLocal 0 1 []) st Hn Hpos) as H.
  destruct (seq_loop tx fetch a (walk_fuel a) (SeqLocal 0 1 []) st) as [l st'].
  exact H.
Qed.

Lemma retry_fuel_app q t : retry_fuel (q ++ [t]) = (retry_fuel q + ticket_budget t)%nat.
Proof.
  induction q as [|t' q IH]; cbn [app retry_fuel fold_right].
  - lia.
  - unfold retry_fuel in IH. rewrite IH. lia.
Qed.

(** Every iteration of the retry loop uses up part of the budget of the
    queue and issues at most one request. *)
Lemma retry_iteration_measure indefinite r :
  retry_queue r <> [] ->
  (retry_fuel (retry_queue (retry_iteration tx fetch indefinite r))
   < retry_fuel (retry_queue r))%nat
  /\ (length (requests (rs (retry_iteration tx fetch indefinite r)))
      <= S (length (requests (rs r))))%nat.
Proof.
  unfold retry_iteration. destruct (retry_queue r) as [|[[[c s] p] att] rest];
    [congruence|]. intros _.
  assert (1 <= ticket_budget (c, s, p, att))%nat as Hb.
  { unfold ticket_budget. lia. }
  change (retry_fuel ((c, s, p, att) :: rest))
    with (ticket_budget (c, s, p, att) + retry_fuel rest)%nat.
  destruct (bool_decide _); [cbn [retry_queue rs]; lia|].
  unfold do_request.
  set (is_indefinite := bool_decide _).
  assert (forall st1 : cstate,
             length (requests st1) = S (length (requests (rs r))) ->
             (retry_fuel
                (retry_queue
                   (if (att + 1 <?
                        (if is_indefinite then INDEFINITE_RETRY_MAX_ATTEMPTS
                         else MAX_PAGE_ATTEMPTS))%nat
                    then RState st1 (rest ++ [(c, s, p, (att + 1)%nat)])
                                (failed_indefinite_segments r)
                    else RState st1 rest
                                (if is_indefinite
                                 then {[ (c, s) ]} ∪ failed_indefinite_segments r
                                 else failed_indefinite_segments r)))
              < ticket_budget (c, s, p, att) + retry_fuel rest)%nat
             /\ (length
                   (requests
                      (rs
                         (if (att + 1 <?
                              (if is_indefinite then INDEFINITE_RETRY_MAX_ATTEMPTS
                               else MAX_PAGE_ATTEMPTS))%nat
                          then RState st1 (rest ++ [(c, s, p, (att + 1)%nat)])
                                      (failed_indefinite_segments r)
                          else RState st1 rest
                                      (if is_indefinite
                                       then {[ (c, s) ]} ∪ failed_indefinite_segments r
                                       else failed_indefinite_segments r))))
                 <= S (length (requests (rs r))))%nat) as Hagain.
  { intros st1 Hlen.
    destruct (att + 1 <? _)%nat eqn:E; cbn [retry_queue rs]; [|lia].
    apply Nat.ltb_lt in E. rewrite retry_fuel_app.
    unfold ticket_budget, INDEFINITE_RETRY_MAX_ATTEMPTS, MAX_PAGE_ATTEMPTS in *.
    cbn [snd]. destruct is_indefinite; lia. }
  assert (length (requests (rs r) ++ [(c, s, p)]) = S (length (requests (rs r))))
    as Hlen by (rewrite length_app; cbn; lia).
  destruct (fetch _ _ _) as [found|]; [|apply Hagain; exact Hlen].
  destruct (length found =? 0)%nat; [apply Hagain; exact Hlen|].
  cbn [retry_queue rs set_dd requests]. split; [lia|].
  rewrite length_app. cbn [length]. lia.
Qed.

Lemma retry_loop_drains indefinite fuel : forall r,
  (retry_fuel (retry_queue r) <= fuel)%nat ->
  retry_queue (retry_loop tx fetch indefinite fuel r) = []
  /\ (length (requests (rs (retry_loop tx fetch indefinite fuel r)))
      <= length (requests (rs r)) + retry_fuel (retry_queue r))%nat.
Proof.
  induction fuel as [|fuel IH]; intros r Hfuel.
  - destruct (retry_queue r) as [|t q] eqn:E.
    + cbn. rewrite E. split; [reflexivity|lia].
    + exfalso. cbn [retry_fuel fold_right] in Hfuel.
      unfold ticket_budget in Hfuel. lia.
  - cbn [retry_loop]. destruct (retry_queue r) as [|t q] eqn:E.
    + rewrite E. split; [reflexivity|lia].
    + destruct (retry_iteration_measure indefinite r) as [Hless Hreq];
        [rewrite E; discriminate|].
      rewrite E in Hless.
      destruct (IH (retry_iteration tx fetch indefinite r)) as [Hq Hlen]; [lia|].
      split; [exact Hq|]. lia.
Qed.

Lemma retry_fuel_ones (q : list ticket) :
  Forall (fun t : ticket => t.2 = 1%nat) q -> retry_fuel q = (4 * length q)%nat.
Proof.
  induction q as [|t q IH]; intros Hones; [reflexivity|].
  inversion Hones as [|? ? Ht Hq]; subst.
  change (retry_fuel (t :: q)) with (ticket_budget t + retry_fuel q)%nat.
  rewrite (IH Hq). unfold ticket_budget, INDEFINITE_RETRY_MAX_ATTEMPTS.
  rewrite Ht. cbn [length]. lia.
Qed.

(** The global retry pass empties its queue, and requests each page that
    the primary walks deferred at most four times. *)
Theorem global_retry_pass_drains st :
  Forall (fun t : ticket => t.2 = 1%nat) (global_retry_list st) ->
  retry_queue (global_retry_pass tx fetch st) = []
  /\ (length (requests (rs (global_retry_pass tx fetch st)))
      <= length (requests st) + 4 * length (global_retry_list st))%nat.
Proof.
  intros Hones. unfold global_retry_pass.
  destruct (retry_loop_drains (indefinite_retry_set st)
              (retry_fuel (global_retry_list st))
              (RState st (global_retry_list st) ∅)) as [Hq Hlen];
    [cbn [retry_queue]; apply Nat.le_refl|].
  split; [exact Hq|]. cbn [rs retry_queue] in Hlen.
  rewrite <- (retry_fuel_ones _ Hones). exact Hlen.
Qed.

End Walks.

Lemma process_one_segment_requests_witness :
  exists k : nat,
    Collect.requests
      (Collect._process_one_segment Fixtures.sprites Fixtures.two_pages
         (Collect.segment_args Fixtures.one_worker (0, 5) 2)
         (Collect.initial_state Fixtures.sprites None)).2
    = Collect.requests (Collect.initial_state Fixtures.sprites None)
      ++ Notions.pages_from
           (Collect.walk_segment (Collect.segment_args Fixtures.one_worker (0, 5) 2)) 1 k
    /\ Z.of_nat k <= Z.max 0 12.
Proof.
  apply (process_one_segment_requests Fixtures.sprites Fixtures.two_pages
           (Collect.segment_args Fixtures.one_worker (0, 5) 2) 12
           (Collect.initial_state Fixtures.sprites None)).
  reflexivity.
Defined.

Lemma process_one_segment_terminates_witness :
  Collect.seq_loop Fixtures.sprites Fixtures.two_pages
    (Collect.segment_args Fixtures.one_worker (0, 5) 2)
    (Collect.walk_fuel (Collect.segment_args Fixtures.one_worker (0, 5) 2) + 5)
    (Collect.SeqLocal 0 1 []) (Collect.initial_state Fixtures.sprites None)
  = Collect.seq_loop Fixtures.sprites Fixtures.two_pages
      (Collect.segment_args Fixtures.one_worker (0, 5) 2)
      (Collect.walk_fuel (Collect.segment_args Fixtures.one_worker (0, 5) 2))
      (Collect.SeqLocal 0 1 []) (Collect.initial_state Fixtures.sprites None).
Proof.
  apply (process_one_segment_terminates Fixtures.sprites Fixtures.two_pages
           (Collect.segment_args Fixtures.one_worker (0, 5) 2) 12
           (Collect.initial_state Fixtures.sprites None) 5).
  reflexivity.
Defined.

Lemma process_one_segment_pages_done_witness :
  (Collect._process_one_segment Fixtures.sprites Fixtures.two_pages
     (Collect.WalkArgs 0 5 (Some 1) None (Some 12) (Some 2))
     (Collect.initial_state Fixtures.sprites None)).1 <= 1.
Proof.
  apply (process_one_segment_pages_done Fixtures.sprites Fixtures.two_pages
           (Collect.WalkArgs 0 5 (Some 1) None (Some 12) (Some 2)) 1
           (Collect.initial_state Fixtures.sprites None)).
  - reflexivity.
  - lia.
Defined.

Lemma global_retry_pass_drains_witness :
  Collect.retry_queue
    (Collect.global_retry_pass Fixtures.sprites Fixtures.first_request_fails
       Samples.deferred_page) = []
  /\ (length
        (Collect.requests
           (Collect.rs
              (Collect.global_retry_pass Fixtures.sprites Fixtures.first_request_fails
                 Samples.deferred_page)))
      <= length (Collect.requests Samples.deferred_page)
         + 4 * length (Collect.global_retry_list Samples.deferred_page))%nat.
Proof.
  apply (global_retry_pass_drains Fixtures.sprites Fixtures.first_request_fails
           Samples.deferred_page).
  repeat constructor.
Defined.

(** ** Collection: the rows of a run *)

Section Rows.
Import Collect Notions.

Variable tx : taxonomy.
Variable fetch : oracle.
Variable args : arguments.
Variable last_pages : gmap segment Z.

(** Whatever the number of workers and their interleaving, the rows a run
    appends to its temp file are the rows of pairwise distinct keys, none of
    which was loaded from the output file at start-up. *)
Theorem collect_writes_new_keys_once scheds existing run :
  oracle_ok fetch ->
  main_csv tx fetch args last_pages scheds existing = Some run ->
  exists ks,
    temp_rows (dd (rs (retried run))) = map (row_of tx) ks
    /\ NoDup ks
    /\ forall k, k ∈ ks -> k ∉ initial_seen tx existing.
Proof.
  intros Hfetch Hrun.
  destruct (main_csv_consistent tx fetch args last_pages Hfetch scheds existing run Hrun)
    as (ks & Hc & _).
  exists ks. split; [exact (rows_follow _ _ _ _ Hc)|].
  split; [exact (written_once _ _ _ _ Hc)|exact (written_new _ _ _ _ Hc)].
Qed.

(** The final merge of the output file with the temp file keeps the header,
    drops the rows without a known key, and keeps one row for each key of
    either file: no two rows of the merged file have the same key. *)
Theorem merge_output_unique_keys h (rows temp : list (list string)) t :
  header_ok h = true ->
  exists data,
    merge_output tx (h :: rows) (t :: temp) = h :: data
    /\ NoDup (omap (key_of tx) data)
    /\ Forall (fun row => is_Some (key_of tx row)) data
    /\ forall k, k ∈ omap (key_of tx) data
                 <-> k ∈ omap (key_of tx) rows \/ k ∈ omap (key_of tx) temp.
Proof.
  intros Hh. destruct (header_ok_shape h Hh) as (rest & ->).
  set (h := "RUID"%string :: _) in *.
  destruct (merge_fold tx rows ∅ [h]) as (added1 & E1 & Hnd1 & Hall1 & Hk1).
  destruct (merge_fold tx temp (list_to_set (omap (key_of tx) added1) ∪ ∅) ([h] ++ added1))
    as (added2 & E2 & Hnd2 & Hall2 & Hk2).
  exists (added1 ++ added2). split.
  { unfold merge_output. cbn [tail]. subst h. cbn match.
    set (h := "RUID"%string :: _) in *.
    eapply eq_trans; [apply (f_equal snd); eapply eq_trans; [|exact E2];
                      f_equal; exact E1|].
    cbn [snd]. rewrite <- app_assoc. reflexivity. }
  split.
  { rewrite omap_app. apply NoDup_app. split; [exact Hnd1|]. split; [|exact Hnd2].
    intros k Hin1 Hin2. apply Hk2 in Hin2 as [_ Hnot]. apply Hnot.
    apply elem_of_union. left. apply elem_of_list_to_set. exact Hin1. }
  split; [apply Forall_app; split; assumption|].
  intros k. rewrite omap_app, elem_of_app, Hk1, Hk2.
  rewrite elem_of_union, elem_of_list_to_set, Hk1.
  destruct (decide (k ∈ omap (key_of tx) rows)); set_solver.
Qed.

End Rows.

Lemma collect_writes_new_keys_once_witness :
  exists run,
    Collect.main_csv Fixtures.sprites Fixtures.two_pages Fixtures.two_workers
      Fixtures.two_page_hints Fixtures.page_1_commits_first None = Some run
    /\ exists ks,
         Collect.temp_rows (Collect.dd (Collect.rs (Collect.retried run)))
         = map (Notions.row_of Fixtures.sprites) ks
         /\ NoDup ks
         /\ forall k, k ∈ ks -> k ∉ Collect.initial_seen Fixtures.sprites None.
Proof.
  destruct (run_returns
              (Collect.main_csv Fixtures.sprites Fixtures.two_pages Fixtures.two_workers
                 Fixtures.two_page_hints Fixtures.page_1_commits_first None))
    as [run E]; [apply (bool_decide_eq_true_1 _); vm_compute; reflexivity|].
  exists run. split; [exact E|].
  apply (collect_writes_new_keys_once Fixtures.sprites Fixtures.two_pages
           Fixtures.two_workers Fixtures.two_page_hints
           Fixtures.page_1_commits_first None run two_pages_ok E).
Defined.

Lemma merge_output_unique_keys_witness :
  exists data,
    Collect.merge_output Fixtures.sprites
      (Collect.CSV_COLUMNS :: [[Fixtures.ruid_a; "sprite"; "object"; ""; ""; ""]%string;
                               [Fixtures.ruid_a; "sprite"; "object"; "x"; ""; ""]%string])
      (Collect.CSV_COLUMNS :: [[Fixtures.ruid_b; "sprite"; "object"; ""; ""; ""]%string])
    = Collect.CSV_COLUMNS :: data
    /\ NoDup (omap (Notions.key_of Fixtures.sprites) data)
    /\ Forall (fun row => is_Some (Notions.key_of Fixtures.sprites row)) data
    /\ forall k,
         k ∈ omap (Notions.key_of Fixtures.sprites) data
         <-> k ∈ omap (Notions.key_of Fixtures.sprites)
                   [[Fixtures.ruid_a; "sprite"; "object"; ""; ""; ""]%string;
                    [Fixtures.ruid_a; "sprite"; "object"; "x"; ""; ""]%string]
             \/ k ∈ omap (Notions.key_of Fixtures.sprites)
                      [[Fixtures.ruid_b; "sprite"; "object"; ""; ""; ""]%string].
Proof.
  apply (merge_output_unique_keys Fixtures.sprites Collect.CSV_COLUMNS).
  reflexivity.
Defined.

(** ** Collection: the partitions of a run and their names *)

Section Segments.
Import Collect Notions Shapes.

Variable tx : taxonomy.

Lemma dict_get_elem {V : Type} k (d : list (Z * V)) :
  is_Some (dict_get k d) <-> k ∈ map fst d.
Proof.
  induction d as [|[k' v] d IH]; cbn [dict_get map fst].
  - split; [intros [? H]; discriminate|intros H; inversion H].
  - destruct (k =? k') eqn:E.
    + apply Z.eqb_eq in E. subst. split; [intros _; left|eauto].
    + apply Z.eqb_neq in E. rewrite IH. split; [intros H; right; exact H|].
      intros H. apply elem_of_cons in H as [H|H]; [congruence|exact H].
Qed.

Lemma dict_has_elem {V : Type} k (d : list (Z * V)) :
  dict_has k d = true <-> k ∈ map fst d.
Proof.
  rewrite <- dict_get_elem. unfold dict_has.
  destruct (dict_get k d); split; try discriminate; eauto.
  intros [? H]. discriminate.
Qed.

Lemma iter_segments_cons c cats all_only :
  iter_segments tx (c :: cats) all_only
  = category_block tx c all_only ++ iter_segments tx cats all_only.
Proof. reflexivity. Qed.

Lemma category_block_elem c0 all_only c s :
  (c, s) ∈ category_block tx c0 all_only
  <-> c = c0 /\ s ∈ map fst (subs_of tx c0) /\ (all_only = true -> s = -1).
Proof.
  unfold category_block.
  assert ((c, s) ∈ (if dict_has (-1) (subs_of tx c0) then [(c0, -1)] else [])
          <-> c = c0 /\ s = -1 /\ -1 ∈ map fst (subs_of tx c0)) as Hall.
  { destruct (dict_has (-1) (subs_of tx c0)) eqn:E.
    - apply dict_has_elem in E. rewrite list_elem_of_singleton. split.
      + intros [= -> ->]. auto.
      + intros (-> & -> & _). reflexivity.
    - split; [intros H; inversion H|]. intros (_ & _ & H).
      apply dict_has_elem in H. congruence. }
  assert ((c, s) ∈ map (fun sub => (c0, sub))
                     (merge_sort Z.le
                        (filter (fun sid => sid ≠ -1) (map fst (subs_of tx c0))))
          <-> c = c0 /\ s ≠ -1 /\ s ∈ map fst (subs_of tx c0)) as Hspec.
  { split.
    - intros H. apply list_elem_of_fmap in H as (s' & [= -> ->] & H).
      rewrite merge_sort_Permutation in H. apply list_elem_of_filter in H. tauto.
    - intros (-> & Hs & H). apply list_elem_of_fmap. exists s. split; [reflexivity|].
      rewrite merge_sort_Permutation. apply list_elem_of_filter. tauto. }
  destruct all_only.
  - rewrite Hall. split.
    + intros (-> & -> & H). auto.
    + intros (-> & H & Hs). specialize (Hs eq_refl). subst. auto.
  - rewrite elem_of_app, Hall, Hspec. split.
    + intros [(-> & _ & H)|(-> & -> & H)]; (split; [reflexivity|]);
        (split; [exact H|discriminate]).
    + intros (-> & H & _). destruct (decide (s = -1)) as [->|Hs]; auto.
Qed.

Lemma iter_segments_elem_of cats all_only c s :
  (c, s) ∈ iter_segments tx cats all_only
  <-> c ∈ cats /\ s ∈ map fst (subs_of tx c) /\ (all_only = true -> s = -1).
Proof.
  induction cats as [|c0 cats IH].
  - split; [intros H; inversion H|intros [H _]; inversion H].
  - rewrite iter_segments_cons, elem_of_app, category_block_elem, IH, elem_of_cons.
    split.
    + intros [(-> & H)|(Hc & H)]; auto.
    + intros ([->|Hc] & H); auto.
Qed.

(** [iter_segments] yields the partition (c, s) exactly when [c] is one of
    the requested categories and [s] a subcategory the taxonomy lists for
    it, the catch-all only with [--all-only]. *)
Theorem iter_segments_elem cats all_only c s :
  (c, s) ∈ iter_segments tx cats all_only
  <-> c ∈ cats /\ s ∈ map fst (subs_of tx c) /\ (all_only = true -> s = -1).
Proof. apply iter_segments_elem_of. Qed.

Lemma app_eq_split {A : Type} (x : A) (a : list A) : forall b l1 l2,
  a ++ b = l1 ++ x :: l2 ->
  (exists m, a = l1 ++ x :: m /\ l2 = m ++ b)
  \/ (exists m, b = m ++ x :: l2 /\ l1 = a ++ m).
Proof.
  induction a as [|y a IH]; intros b l1 l2 H.
  - right. exists l1. auto.
  - destruct l1 as [|z l1]; cbn [app] in H.
    + injection H as -> <-. left. exists a. auto.
    + injection H as -> H. destruct (IH _ _ _ H) as [(m & -> & ->)|(m & -> & ->)].
      * left. exists m. auto.
      * right. exists m. auto.
Qed.

(** In the order of [iter_segments], for categories requested once each, no
    partition of a category comes after its catch-all partition: the
    specific subcategories of a category are walked before its catch-all. *)
Theorem iter_segments_catch_all_last cats c l1 l2 :
  NoDup cats ->
  iter_segments tx cats false = l1 ++ (c, -1) :: l2 ->
  forall s, (c, s) ∉ l2.
Proof.
  revert l1. induction cats as [|c0 cats IH]; intros l1 Hnd Heq s.
  - destruct l1; discriminate.
  - apply NoDup_cons in Hnd as [Hc0 Hnd].
    rewrite iter_segments_cons in Heq.
    apply app_eq_split in Heq as [(m & Hblock & ->)|(m & Hrest & _)].
    + assert ((c, -1) ∈ category_block tx c0 false) as Hin.
      { rewrite Hblock. apply elem_of_app. right. left. }
      apply category_block_elem in Hin as (-> & _).
      assert (m = []) as ->.
      { unfold category_block in Hblock.
        apply app_eq_split in Hblock as [(m' & Hspec & _)|(m' & Hall & _)].
        - exfalso.
          assert ((c0, -1) ∈ map (fun sub => (c0, sub))
                    (merge_sort Z.le
                       (filter (fun sid => sid ≠ -1) (map fst (subs_of tx c0)))))
            as Hin.
          { rewrite Hspec. apply elem_of_app. right. left. }
          apply list_elem_of_fmap in Hin as (s' & [= <-] & Hin).
          rewrite merge_sort_Permutation in Hin.
          apply list_elem_of_filter in Hin as [Hne _]. congruence.
        - destruct (dict_has (-1) (subs_of tx c0)).
          + destruct m' as [|? m']; [injection Hall as <-; reflexivity|].
            injection Hall as _ Hall. destruct m'; discriminate.
          + destruct m'; discriminate. }
      cbn [app]. intros Hin. apply iter_segments_elem_of in Hin as [Hin _].
      exact (Hc0 Hin).
    + exact (IH m Hnd Hrest s).
Qed.

End Segments.

Lemma iter_segments_catch_all_last_witness :
  Collect.iter_segments Samples.two_kinds [0; 1] false
  = [(0, 5)] ++ (0, -1) :: [(1, -1)]
  /\ (0, 5) ∉ ([(1, -1)] : list Collect.segment).
Proof.
  split; [reflexivity|].
  apply (iter_segments_catch_all_last Samples.two_kinds [0; 1] 0 [(0, 5)] [(1, -1)]).
  - apply (bool_decide_eq_true_1 _). reflexivity.
  - reflexivity.
Defined.

(** ** Collection: names written and read back *)

Section Names.
Import Collect Notions Shapes.

Variable tx : taxonomy.

Lemma dict_get_of_elem {V : Type} k (v : V) (d : list (Z * V)) :
  NoDup (map fst d) -> (k, v) ∈ d -> dict_get k d = Some v.
Proof.
  induction d as [|[k' v'] d IH]; intros Hnd Hin; [inversion Hin|].
  cbn [map fst] in Hnd. apply NoDup_cons in Hnd as [Hk' Hnd].
  cbn [dict_get]. apply elem_of_cons in Hin as [[= -> ->]|Hin].
  - rewrite Z.eqb_refl. reflexivity.
  - destruct (k =? k') eqn:E; [|exact (IH Hnd Hin)].
    apply Z.eqb_eq in E. subst. exfalso. apply Hk'.
    apply list_elem_of_fmap. exists (k', v). auto.
Qed.

Lemma dict_get_Some_elem {V : Type} k (v : V) (d : list (Z * V)) :
  dict_get k d = Some v -> (k, v) ∈ d.
Proof.
  induction d as [|[k' v'] d IH]; cbn [dict_get]; [discriminate|].
  destruct (k =? k') eqn:E.
  - apply Z.eqb_eq in E. intros [= ->]. subst. left.
  - intros H. right. exact (IH H).
Qed.

(** The entries of one category in [_name_to_segment]. *)
Lemma sub_entries_other (c : Z) (cn cn' x : string) (subs : list (Z * string)) :
  forall o : gmap (string * string) segment,
  cn' <> cn ->
  fold_left (fun o '(sub_id, sub_name) => <[(cn', sub_name) := (c, sub_id)]> o) subs o
    !! (cn, x) = o !! (cn, x).
Proof.
  induction subs as [|[s n] subs IH]; intros o Hne; [reflexivity|].
  cbn [fold_left]. rewrite IH by exact Hne. apply lookup_insert_ne. congruence.
Qed.

Lemma sub_entries_absent (c : Z) (cn x : string) (subs : list (Z * string)) :
  forall o : gmap (string * string) segment,
  x ∉ map snd subs ->
  fold_left (fun o '(sub_id, sub_name) => <[(cn, sub_name) := (c, sub_id)]> o) subs o
    !! (cn, x) = o !! (cn, x).
Proof.
  induction subs as [|[s n] subs IH]; intros o Hx; [reflexivity|].
  cbn [fold_left]. cbn [map snd] in Hx. rewrite IH.
  - apply lookup_insert_ne. intros [= <-]. apply Hx. left.
  - intros H. apply Hx. right. exact H.
Qed.

Lemma sub_entries_elem (c s : Z) (cn n : string) (subs : list (Z * string)) :
  forall o : gmap (string * string) segment,
  NoDup (map snd subs) -> (s, n) ∈ subs ->
  fold_left (fun o '(sub_id, sub_name) => <[(cn, sub_name) := (c, sub_id)]> o) subs o
    !! (cn, n) = Some (c, s).
Proof.
  induction subs as [|[s' n'] subs IH]; intros o Hnd Hin; [inversion Hin|].
  cbn [map snd] in Hnd. apply NoDup_cons in Hnd as [Hn' Hnd].
  cbn [fold_left]. apply elem_of_cons in Hin as [[= -> ->]|Hin].
  - rewrite sub_entries_absent by exact Hn'. apply lookup_insert_eq.
  - apply IH; assumption.
Qed.

Lemma name_entries_other (cn x : string) (cats : list (Z * string)) :
  forall out : gmap (string * string) segment,
  cn ∉ map snd cats ->
  fold_left
    (fun out '(cat_id, cat_name) =>
       let out1 :=
         fold_left
           (fun o '(sub_id, sub_name) => <[(cat_name, sub_name) := (cat_id, sub_id)]> o)
           (subs_of tx cat_id) out in
       <[(cat_name, "all"%string) := (cat_id, -1)]>
         (<[(cat_name, ""%string) := (cat_id, -1)]> out1))
    cats out !! (cn, x) = out !! (cn, x).
Proof.
  induction cats as [|[c' cn'] cats IH]; intros out Hcn; [reflexivity|].
  cbn [map snd] in Hcn. cbn [fold_left]. rewrite IH.
  - assert (cn' <> cn) as Hne by (intros ->; apply Hcn; left).
    cbv zeta. rewrite !lookup_insert_ne by congruence.
    apply sub_entries_other. exact Hne.
  - intros H. apply Hcn. right. exact H.
Qed.

Lemma name_entries_elem (c : Z) (cn x : string) (cats : list (Z * string)) :
  forall out : gmap (string * string) segment,
  NoDup (map snd cats) -> (c, cn) ∈ cats ->
  exists o : gmap (string * string) segment,
    fold_left
      (fun out '(cat_id, cat_name) =>
         let out1 :=
           fold_left
             (fun o '(sub_id, sub_name) => <[(cat_name, sub_name) := (cat_id, sub_id)]> o)
             (subs_of tx cat_id) out in
         <[(cat_name, "all"%string) := (cat_id, -1)]>
           (<[(cat_name, ""%string) := (cat_id, -1)]> out1))
      cats out !! (cn, x)
    = (<[(cn, "all"%string) := (c, -1)]>
         (<[(cn, ""%string) := (c, -1)]>
            (fold_left
               (fun o '(sub_id, sub_name) => <[(cn, sub_name) := (c, sub_id)]> o)
               (subs_of tx c) o))) !! (cn, x).
Proof.
  induction cats as [|[c' cn'] cats IH]; intros out Hnd Hin; [inversion Hin|].
  cbn [map snd] in Hnd. apply NoDup_cons in Hnd as [Hcn' Hnd].
  cbn [fold_left]. apply elem_of_cons in Hin as [[= -> ->]|Hin].
  - exists out. rewrite name_entries_other by exact Hcn'. reflexivity.
  - apply IH; assumption.
Qed.

(** The names written for a partition of a well-formed taxonomy are free of
    surrounding white space and are read back as the partition. *)
Lemma names_round_trip c s :
  well_formed tx ->
  c ∈ map fst (CATEGORY_NAMES tx) ->
  s = -1 \/ s ∈ map fst (subs_of tx c) ->
  names_ok tx (c, s).
Proof.
  intros Hwf Hc Hs. unfold names_ok. cbn [fst snd].
  apply dict_get_elem in Hc as [cn Hcn].
  pose proof (dict_get_Some_elem _ _ _ Hcn) as Hcin.
  unfold get_category_and_subcategory_names. rewrite Hcn.
  change (default (pretty c) (Some cn)) with cn.
  destruct (name_entries_elem c cn
              (if s =? -1 then "all"%string
               else match dict_get s (subs_of tx c) with
                    | Some n => if Text.is_empty n then pretty s else n
                    | None => pretty s
                    end)
              (CATEGORY_NAMES tx) ∅ (category_names_distinct tx Hwf) Hcin)
    as (o & Ho).
  destruct (s =? -1) eqn:E.
  - apply Z.eqb_eq in E. subst s. cbn [fst snd].
    split; [exact (category_names_stripped tx Hwf c cn Hcin)|].
    split; [reflexivity|].
    unfold _name_to_segment. eapply eq_trans; [exact Ho|]. apply lookup_insert_eq.
  - apply Z.eqb_neq in E. destruct Hs as [Hs|Hs]; [congruence|].
    apply dict_get_elem in Hs as [n Hn].
    pose proof (dict_get_Some_elem _ _ _ Hn) as Hnin.
    destruct (sub_names_specific tx Hwf c s n Hnin E) as [Hne Hnall].
    rewrite Hn in Ho |- *.
    assert (Text.is_empty n = false) as Hemp by (destruct n; [congruence|reflexivity]).
    rewrite Hemp in Ho |- *. cbn [fst snd].
    split; [exact (category_names_stripped tx Hwf c cn Hcin)|].
    split; [exact (sub_names_stripped tx Hwf c s n Hnin)|].
    unfold _name_to_segment. eapply eq_trans; [exact Ho|].
    rewrite !lookup_insert_ne by congruence.
    apply sub_entries_elem; [exact (sub_names_distinct tx Hwf c)|exact Hnin].
Qed.

(** For a well-formed taxonomy and categories it names, every partition that
    [iter_segments] yields is written under names that
    [load_existing_ruids_from_csv] and the final merge read back as that
    partition. *)
Theorem iter_segments_names_ok cats all_only :
  well_formed tx ->
  (forall c, c ∈ cats -> c ∈ map fst (CATEGORY_NAMES tx)) ->
  taxonomy_ok tx (iter_segments tx cats all_only).
Proof.
  intros Hwf Hcats [c s] Hin. apply iter_segments_elem_of in Hin as (Hc & Hs & _).
  apply names_round_trip; [exact Hwf|exact (Hcats c Hc)|right; exact Hs].
Qed.

End Names.

Lemma sprites_subs c :
  Collect.subs_of Fixtures.sprites c = [(5, "object"%string); (-1, "all"%string)]
  \/ Collect.subs_of Fixtures.sprites c = [].
Proof.
  unfold Collect.subs_of, Fixtures.sprites. cbn [Collect.SUBCATS_BY_CATEGORY Collect.dict_get].
  destruct (c =? 0); [left|right]; reflexivity.
Qed.

Lemma sprites_well_formed : Shapes.well_formed Fixtures.sprites.
Proof.
  split.
  - apply (bool_decide_eq_true_1 _). reflexivity.
  - apply (bool_decide_eq_true_1 _). reflexivity.
  - intros c n H. apply list_elem_of_singleton in H as [= _ ->]. reflexivity.
  - intros c. destruct (sprites_subs c) as [-> | ->];
      apply (bool_decide_eq_true_1 _); reflexivity.
  - intros c. destruct (sprites_subs c) as [-> | ->];
      apply (bool_decide_eq_true_1 _); reflexivity.
  - intros c s n H. destruct (sprites_subs c) as [E|E]; rewrite E in H.
    + apply elem_of_cons in H as [[= _ ->]|H]; [reflexivity|].
      apply list_elem_of_singleton in H as [= _ ->]. reflexivity.
    + inversion H.
  - intros c s n H Hs. destruct (sprites_subs c) as [E|E]; rewrite E in H.
    + apply elem_of_cons in H as [[= _ ->]|H]; [split; discriminate|].
      apply list_elem_of_singleton in H as [= -> _]. congruence.
    + inversion H.
Qed.

Lemma iter_segments_names_ok_witness :
  Notions.taxonomy_ok Fixtures.sprites (Collect.iter_segments Fixtures.sprites [0] false).
Proof.
  apply (iter_segments_names_ok Fixtures.sprites [0] false sprites_well_formed).
  intros c H. apply list_elem_of_singleton in H as ->. left.
Defined.

(** ** Collection: the requests of a parallel walk *)

Section Parallel.
Import Collect Notions Shapes.

Variable tx : taxonomy.
Variable fetch : oracle.
Variable a : walk_args.

(** What one step of a worker does to the page counter, the requests and the
    worker's own position. *)
Lemma worker_step_shape pc ps :
  workers_pc (worker_step tx fetch a pc ps).2 = workers_pc ps
  /\ match pc with
     | AtTop =>
         (claimed_page (worker_step tx fetch a pc ps).1 = None
          /\ next_page (worker_step tx fetch a pc ps).2 = next_page ps
          /\ requests (shared (worker_step tx fetch a pc ps).2) = requests (shared ps))
         \/ ((worker_step tx fetch a pc ps).1 = Claimed (next_page ps)
             /\ next_page (worker_step tx fetch a pc ps).2 = next_page ps + 1
             /\ requests (shared (worker_step tx fetch a pc ps).2) = requests (shared ps)
             /\ above (max_page_cap a) (next_page ps) = false
             /\ above (pages_per_category a) (next_page ps) = false)
     | Claimed p =>
         claimed_page (worker_step tx fetch a pc ps).1 = None
         /\ next_page (worker_step tx fetch a pc ps).2 = next_page ps
         /\ (requests (shared (worker_step tx fetch a pc ps).2) = requests (shared ps)
             \/ requests (shared (worker_step tx fetch a pc ps).2)
                = requests (shared ps) ++ [(walk_segment a, p)])
     | _ =>
         claimed_page (worker_step tx fetch a pc ps).1 = None
         /\ next_page (worker_step tx fetch a pc ps).2 = next_page ps
         /\ requests (shared (worker_step tx fetch a pc ps).2) = requests (shared ps)
     end.
Proof.
  destruct pc as [|p|p r|p n rest|]; cbn [worker_step].
  - destruct (segment_done ps); [cbn; auto|].
    destruct (total_reached a (shared ps)); [cbn; auto|].
    destruct (above (pages_per_category a) (next_page ps)) eqn:E1; [cbn; auto|].
    destruct (above (max_page_cap a) (next_page ps)) eqn:E2; [cbn; auto|].
    cbn. split; [reflexivity|]. right. auto.
  - destruct (segment_done ps); [cbn; auto|]. unfold do_request. cbn. auto.
  - destruct (segment_done ps); [cbn; auto|].
    destruct r as [found|]; [|cbn; auto].
    destruct (length found =? 0)%nat; [cbn; auto|].
    cbn [fst snd workers_pc claimed_page next_page shared].
    destruct (max_total_pages a); cbn; auto.
  - destruct rest as [|[ruid ext] rest]; cbn; auto.
  - cbn. auto.
Qed.

Lemma claimed_split (l : list worker_pc) w pc pc' :
  l !! w = Some pc ->
  exists l1 l2,
    omap claimed_page l
    = omap claimed_page l1 ++ option_list (claimed_page pc) ++ omap claimed_page l2
    /\ omap claimed_page (<[w := pc']> l)
       = omap claimed_page l1 ++ option_list (claimed_page pc') ++ omap claimed_page l2.
Proof.
  intros Hw. apply list_elem_of_split_length in Hw as (l1 & l2 & -> & ->).
  exists l1, l2. split.
  - rewrite omap_app. f_equal.
    change (omap claimed_page (pc :: l2))
      with (match claimed_page pc with
            | Some y => y :: omap claimed_page l2
            | None => omap claimed_page l2
            end).
    destruct (claimed_page pc); reflexivity.
  - rewrite insert_app_r_alt by lia. rewrite Nat.sub_diag.
    change (<[0%nat := pc']> (pc :: l2)) with (pc' :: l2).
    rewrite omap_app. f_equal.
    change (omap claimed_page (pc' :: l2))
      with (match claimed_page pc' with
            | Some y => y :: omap claimed_page l2
            | None => omap claimed_page l2
            end).
    destruct (claimed_page pc'); reflexivity.
Qed.

Lemma NoDup_without (x y z : list Z) (o : option Z) :
  NoDup (x ++ y ++ option_list o ++ z) -> NoDup (x ++ y ++ z).
Proof.
  destruct o as [p|]; cbn [option_list option_rect app]; [|auto].
  intros H. rewrite app_assoc in H |- *.
  apply (NoDup_Permutation_proper _ _ (Permutation_middle (x ++ y) z p)) in H.
  apply NoDup_cons in H as [_ H]. exact H.
Qed.

(** The pages requested and the pages claimed stay pairwise distinct, below
    the page counter and within the limits. *)
Lemma schedule_step_walked before pages ps w :
  walked a before pages ps ->
  exists pages', walked a before pages' (schedule_step tx fetch a ps w).
Proof.
  intros (Hreq & Hlow & Hnd & Hbound). unfold schedule_step.
  destruct (workers_pc ps !! w) as [pc|] eqn:Hw;
    [|exists pages; repeat split; auto; apply Hbound; auto].
  destruct (worker_step_shape pc ps) as [Hpcs Hshape].
  destruct (worker_step tx fetch a pc ps) as [pc' ps']. cbn [fst snd] in *.
  destruct (claimed_split (workers_pc ps) w pc pc' Hw) as (l1 & l2 & Hold & Hnew).
  rewrite Hold in Hnd, Hbound. unfold walked.
  cbn [shared next_page workers_pc]. rewrite Hpcs, Hnew. clear Hold Hnew Hpcs Hw.
  assert (claimed_page pc' = None ->
          next_page ps' = next_page ps ->
          requests (shared ps') = requests (shared ps) ->
          exists pages',
            requests (shared ps')
            = before ++ map (fun p => (walk_segment a, p)) pages'
            /\ 1 <= next_page ps'
            /\ NoDup (pages' ++ omap claimed_page l1
                      ++ option_list (claimed_page pc') ++ omap claimed_page l2)
            /\ forall p, p ∈ pages' ++ omap claimed_page l1
                          ++ option_list (claimed_page pc') ++ omap claimed_page l2 ->
                 1 <= p < next_page ps'
                 /\ above (max_page_cap a) p = false
                 /\ above (pages_per_category a) p = false) as Hkeep.
  { intros Hc Hnext Hr. exists pages. rewrite Hc, Hnext, Hr. cbn [option_list option_rect app].
    split; [exact Hreq|]. split; [exact Hlow|].
    split; [exact (NoDup_without _ _ _ _ Hnd)|].
    intros p Hp. apply Hbound. rewrite !elem_of_app in Hp. rewrite !elem_of_app.
    tauto. }
  destruct pc as [|p|p r|p n rest|].
  - destruct Hshape as [(Hc & Hnext & Hr)|(-> & Hnext & Hr & Hcap & Hppc)];
      [exact (Hkeep Hc Hnext Hr)|].
    exists pages. rewrite Hr, Hnext. cbn [claimed_page option_list option_rect app] in *.
    assert (next_page ps ∉ pages ++ omap claimed_page l1 ++ omap claimed_page l2)
      as Hfresh.
    { intros Hin. apply Hbound in Hin. lia. }
    split; [exact Hreq|]. split; [lia|]. split.
    + rewrite !app_assoc, <- Permutation_middle. apply NoDup_cons.
      rewrite <- !app_assoc. split; assumption.
    + intros p Hp.
      assert (p = next_page ps
              \/ p ∈ pages ++ omap claimed_page l1 ++ omap claimed_page l2) as [->|Hin].
      { rewrite !elem_of_app, elem_of_cons in Hp. rewrite !elem_of_app. tauto. }
      * split; [lia|auto].
      * destruct (Hbound p Hin) as (? & ? & ?). split; [lia|auto].
  - destruct Hshape as (Hc & Hnext & [Hr|Hr]); [exact (Hkeep Hc Hnext Hr)|].
    exists (pages ++ [p]). rewrite Hr, Hnext, Hc, Hreq.
    cbn [claimed_page option_list option_rect app] in *.
    split; [rewrite map_app, <- app_assoc; reflexivity|]. split; [exact Hlow|].
    split.
    + rewrite <- app_assoc. cbn [app].
      rewrite <- Permutation_middle.
      rewrite !app_assoc, <- Permutation_middle, <- !app_assoc in Hnd. exact Hnd.
    + intros q Hq. apply Hbound.
      rewrite !elem_of_app, list_elem_of_singleton in Hq.
      rewrite !elem_of_app, elem_of_cons. tauto.
  - destruct Hshape as (Hc & Hnext & Hr). exact (Hkeep Hc Hnext Hr).
  - destruct Hshape as (Hc & Hnext & Hr). exact (Hkeep Hc Hnext Hr).
  - destruct Hshape as (Hc & Hnext & Hr). exact (Hkeep Hc Hnext Hr).
Qed.

Lemma run_schedule_walked before sched : forall pages ps,
  walked a before pages ps ->
  exists pages', walked a before pages' (run_schedule tx fetch a sched ps).
Proof.
  induction sched as [|w sched IH]; intros pages ps H; [exists pages; exact H|].
  destruct (schedule_step_walked before pages ps w H) as (pages1 & H1).
  exact (IH pages1 _ H1).
Qed.

Lemma omap_claimed_replicate n : omap claimed_page (replicate n AtTop) = [].
Proof. induction n as [|n IH]; [reflexivity|exact IH]. Qed.

(** Whatever the interleaving of the workers, a parallel walk requests no
    page of its partition twice, and no page outside [1 .. cap] or above the
    limit on pages per partition. *)
Theorem parallel_walk_requests workers sched st st' :
  _process_segment_parallel_pages tx fetch a workers sched st = Some st' ->
  exists pages,
    requests st' = requests st ++ map (fun p => (walk_segment a, p)) pages
    /\ NoDup pages
    /\ forall p, p ∈ pages ->
         1 <= p
         /\ above (max_page_cap a) p = false
         /\ above (pages_per_category a) p = false.
Proof.
  unfold _process_segment_parallel_pages.
  destruct (run_schedule_walked (requests st) sched []
              (PState st 1 false (replicate workers AtTop)))
    as (pages & Hreq & _ & Hnd & Hbound).
  { split; [cbn; rewrite app_nil_r; reflexivity|]. split; [cbn; lia|].
    cbn [workers_pc app]. rewrite omap_claimed_replicate.
    split; [constructor|]. intros p Hp. inversion Hp. }
  destruct (all_returned _); [|discriminate]. intros [= <-].
  exists pages. split; [exact Hreq|]. split.
  - apply NoDup_app in Hnd as [Hnd _]. exact Hnd.
  - intros p Hp. destruct (Hbound p) as (? & ? & ?);
      [apply elem_of_app; left; exact Hp|]. split; [lia|auto].
Qed.

End Parallel.

Lemma parallel_walk_requests_witness :
  exists st',
    Collect._process_segment_parallel_pages Fixtures.sprites Fixtures.second_page_fails
      (Collect.segment_args Fixtures.two_workers (0, 5) 1) 2
      Fixtures.page_1_finishes_first (Collect.initial_state Fixtures.sprites None)
    = Some st'
    /\ exists pages,
         Collect.requests st'
         = Collect.requests (Collect.initial_state Fixtures.sprites None)
           ++ map (fun p =>
                     (Collect.walk_segment
                        (Collect.segment_args Fixtures.two_workers (0, 5) 1), p))
                  pages
         /\ NoDup pages
         /\ forall p, p ∈ pages ->
              1 <= p
              /\ Collect.above
                   (Collect.max_page_cap
                      (Collect.segment_args Fixtures.two_workers (0, 5) 1)) p = false
              /\ Collect.above
                   (Collect.pages_per_category
                      (Collect.segment_args Fixtures.two_workers (0, 5) 1)) p = false.
Proof.
  destruct (Collect._process_segment_parallel_pages Fixtures.sprites
              Fixtures.second_page_fails
              (Collect.segment_args Fixtures.two_workers (0, 5) 1) 2
              Fixtures.page_1_finishes_first
              (Collect.initial_state Fixtures.sprites None)) as [st'|] eqn:E;
    [|vm_compute in E; discriminate].
  exists st'. split; [reflexivity|].
  apply (parallel_walk_requests Fixtures.sprites Fixtures.second_page_fails
           (Collect.segment_args Fixtures.two_workers (0, 5) 1) 2
           Fixtures.page_1_finishes_first
           (Collect.initial_state Fixtures.sprites None) st' E).
Defined.

(** ** Enrichment: record ids and formats *)

Section EnrichText.
Import Text Enrich Paths.

Lemma all_hex_filter_hex s : all_hex (filter_hex s) = true.
Proof.
  induction s as [|c s IH]; [reflexivity|]. cbn [filter_hex].
  destruct (is_hex c) eqn:E; [|exact IH]. cbn [all_hex]. rewrite E. exact IH.
Qed.

Lemma filter_hex_all_hex s : all_hex s = true -> filter_hex s = s.
Proof.
  induction s as [|c s IH]; [reflexivity|]. cbn [all_hex filter_hex].
  intros H. apply andb_true_iff in H as [Hc Hs]. rewrite Hc, (IH Hs). reflexivity.
Qed.

Lemma append_cons c s t : (String c s ++ t)%string = String c (s ++ t)%string.
Proof. reflexivity. Qed.

Lemma filter_hex_app s t : filter_hex (s ++ t) = (filter_hex s ++ filter_hex t)%string.
Proof.
  induction s as [|c s IH]; [reflexivity|]. rewrite ?append_cons. cbn [filter_hex].
  destruct (is_hex c); rewrite IH; reflexivity.
Qed.

Lemma lower_app s t : lower (s ++ t) = (lower s ++ lower t)%string.
Proof.
  induction s as [|c s IH]; [reflexivity|]. rewrite ?append_cons. cbn [lower].
  rewrite IH. reflexivity.
Qed.

Lemma length_app_string s t :
  String.length (s ++ t) = (String.length s + String.length t)%nat.
Proof.
  induction s as [|c s IH]; [reflexivity|]. rewrite ?append_cons. cbn [String.length].
  rewrite IH. reflexivity.
Qed.

Lemma substring_all s : substring 0 (String.length s) s = s.
Proof.
  induction s as [|c s IH]; [reflexivity|]. cbn [String.length substring].
  rewrite IH. reflexivity.
Qed.

Lemma substring_skip s t m :
  substring (String.length s) m (s ++ t) = substring 0 m t.
Proof.
  induction s as [|c s IH]; [reflexivity|]. rewrite ?append_cons. cbn [String.length substring].
  exact IH.
Qed.

Lemma all_hex_substring s : forall n m,
  all_hex s = true -> all_hex (substring n m s) = true.
Proof.
  induction s as [|c s IH]; intros n m H.
  - destruct n, m; reflexivity.
  - cbn [all_hex] in H. apply andb_true_iff in H as [Hc Hs].
    destruct n as [|n]; cbn [substring].
    + destruct m as [|m]; [reflexivity|]. cbn [all_hex]. rewrite Hc. apply IH, Hs.
    + apply IH, Hs.
Qed.

Lemma length_substring s : forall n m,
  (n + m <= String.length s)%nat -> String.length (substring n m s) = m.
Proof.
  induction s as [|c s IH]; intros n m H; cbn [String.length] in H.
  - assert (n = 0%nat) by lia. assert (m = 0%nat) by lia. subst. reflexivity.
  - destruct n as [|n]; cbn [substring].
    + destruct m as [|m]; [reflexivity|]. cbn [String.length]. rewrite IH; lia.
    + apply IH. lia.
Qed.

Lemma last_n_all s : String.length s = 32%nat -> last_n 32 s = s.
Proof.
  intros H. unfold last_n. rewrite H, Nat.sub_diag, <- H. apply substring_all.
Qed.

(** The normal form of a string of at most 32 hex digits is the string. *)
Lemma normalize_hex s :
  all_hex s = true -> (String.length s <= 32)%nat -> _normalize_ruid s = s.
Proof.
  intros Hhex Hlen. unfold _normalize_ruid.
  destruct (is_empty s) eqn:E; [apply is_empty_true in E; congruence|].
  rewrite (all_hex_strip s Hhex), (all_hex_lower s Hhex), (filter_hex_all_hex s Hhex).
  destruct (32 <=? String.length s)%nat eqn:E32; [|reflexivity].
  apply Nat.leb_le in E32. apply last_n_all. lia.
Qed.

Lemma normalize_shape r :
  all_hex (_normalize_ruid r) = true /\ (String.length (_normalize_ruid r) <= 32)%nat.
Proof.
  unfold _normalize_ruid. destruct (is_empty r); [cbn; split; [reflexivity|lia]|].
  set (h := filter_hex (lower (strip r))).
  pose proof (all_hex_filter_hex (lower (strip r))) as Hh. fold h in Hh.
  destruct (32 <=? String.length h)%nat eqn:E32.
  - apply Nat.leb_le in E32. unfold last_n. split.
    + apply all_hex_substring. exact Hh.
    + rewrite length_substring; lia.
  - apply Nat.leb_gt in E32. split; [exact Hh|lia].
Qed.

(** The canonical form of a record id has at most 32 characters, all of them
    lower-case hex digits, and normalising it again changes nothing. *)
Theorem normalize_ruid_idempotent r :
  all_hex (_normalize_ruid r) = true
  /\ (String.length (_normalize_ruid r) <= 32)%nat
  /\ _normalize_ruid (_normalize_ruid r) = _normalize_ruid r.
Proof.
  destruct (normalize_shape r) as [Hhex Hlen].
  split; [exact Hhex|]. split; [exact Hlen|]. apply normalize_hex; assumption.
Qed.

Lemma lstrip_app p g :
  lstrip g = g -> g <> ""%string -> lstrip (p ++ g) = (lstrip p ++ g)%string.
Proof.
  intros Hg Hne. induction p as [|c p IH]; [exact Hg|].
  rewrite ?append_cons. cbn [lstrip]. destruct (is_space c); [exact IH|reflexivity].
Qed.

Lemma rstrip_app q g :
  rstrip g = g -> g <> ""%string -> rstrip (q ++ g) = (q ++ g)%string.
Proof.
  intros Hg Hne. induction q as [|c q IH]; [exact Hg|].
  rewrite ?append_cons. cbn [rstrip]. rewrite IH.
  destruct (q ++ g)%string eqn:E; [|reflexivity].
  exfalso. destruct q; [exact (Hne E)|discriminate E].
Qed.

(** Whatever precedes it (an API prefix, white space, dashes), a record id
    of 32 lower-case hex digits at the end of a string is its canonical
    form. *)
Theorem normalize_ruid_ignores_prefix p g :
  all_hex g = true -> String.length g = 32%nat ->
  _normalize_ruid (p ++ g) = g.
Proof.
  intros Hhex Hlen.
  assert (g <> ""%string) as Hne by (intros ->; discriminate).
  unfold _normalize_ruid, strip.
  destruct (is_empty (p ++ g)) eqn:E.
  { exfalso. apply is_empty_true in E. destruct p; [exact (Hne E)|discriminate E]. }
  rewrite (lstrip_app p g (all_hex_lstrip g Hhex) Hne).
  rewrite (rstrip_app (lstrip p) g (all_hex_rstrip g Hhex) Hne).
  rewrite lower_app, (all_hex_lower g Hhex), filter_hex_app, (filter_hex_all_hex g Hhex).
  set (h := filter_hex (lower (lstrip p))).
  rewrite length_app_string, Hlen.
  replace (32 <=? String.length h + 32)%nat with true
    by (symmetry; apply Nat.leb_le; lia).
  unfold last_n. rewrite length_app_string, Hlen.
  replace (String.length h + 32 - 32)%nat with (String.length h) by lia.
  rewrite substring_skip, <- Hlen. apply substring_all.
Qed.

Lemma contains_app c s t : contains c (s ++ t) = contains c s || contains c t.
Proof.
  induction s as [|d s IH]; [reflexivity|]. rewrite ?append_cons. cbn [contains].
  rewrite IH. apply orb_assoc.
Qed.

Lemma after_last_none c s : contains c s = false -> after_last c s = s.
Proof.
  destruct s as [|d s]; [reflexivity|]. cbn [contains after_last].
  intros H. apply orb_false_iff in H as [Hd Hs]. rewrite Hs, Hd. reflexivity.
Qed.

Lemma after_last_app c s t :
  contains c t = false -> after_last c (s ++ String c t) = t.
Proof.
  intros Ht. induction s as [|d s IH].
  - change ("" ++ String c t)%string with (String c t). cbn [after_last].
    rewrite Ht, Ascii.eqb_refl. reflexivity.
  - rewrite append_cons. cbn [after_last]. rewrite contains_app. cbn [contains].
    rewrite Ascii.eqb_refl, orb_true_r. exact IH.
Qed.

Lemma after_last_clean c s : contains c (after_last c s) = false.
Proof.
  induction s as [|d s IH]; [reflexivity|]. cbn [after_last].
  destruct (contains c s) eqn:Hs; [exact IH|].
  destruct (Ascii.eqb c d) eqn:Hd; [exact Hs|].
  cbn [contains]. rewrite Hd, Hs. reflexivity.
Qed.

Lemma after_last_keeps c c' s :
  contains c' s = false -> contains c' (after_last c s) = false.
Proof.
  induction s as [|d s IH]; [reflexivity|]. cbn [contains after_last].
  intros H. apply orb_false_iff in H as [Hd Hs].
  destruct (contains c s); [exact (IH Hs)|].
  destruct (Ascii.eqb c d); [exact Hs|]. cbn [contains]. rewrite Hd, Hs. reflexivity.
Qed.

Lemma lower_ascii_dot d : Ascii.eqb "." (lower_ascii d) = Ascii.eqb "." d.
Proof. destruct d as [[] [] [] [] [] [] [] []]; reflexivity. Qed.

Lemma lower_ascii_slash d : Ascii.eqb "/" (lower_ascii d) = Ascii.eqb "/" d.
Proof. destruct d as [[] [] [] [] [] [] [] []]; reflexivity. Qed.

Lemma contains_lower_dot s : contains "." (lower s) = contains "." s.
Proof.
  induction s as [|d s IH]; [reflexivity|]. cbn [lower contains].
  rewrite lower_ascii_dot, IH. reflexivity.
Qed.

Lemma contains_lower_slash s : contains "/" (lower s) = contains "/" s.
Proof.
  induction s as [|d s IH]; [reflexivity|]. cbn [lower contains].
  rewrite lower_ascii_slash, IH. reflexivity.
Qed.

(** The format derived from a path has neither a dot nor a slash in it, and
    is empty when the last segment of the path has no dot. *)
Theorem format_from_path_clean path :
  contains "." (_format_from_path path) = false
  /\ contains "/" (_format_from_path path) = false
  /\ (contains "." (after_last "/" path) = false -> _format_from_path path = ""%string).
Proof.
  unfold _format_from_path. destruct (is_empty path); [auto|].
  destruct (contains "." (after_last "/" path)) eqn:E; [|auto].
  split; [|split; [|discriminate]].
  - rewrite contains_lower_dot. apply after_last_clean.
  - rewrite contains_lower_slash. apply after_last_keeps. apply after_last_clean.
Qed.

(** For a path that ends in [name.ext] after its last slash, the format is
    the extension in lower case. *)
Theorem format_from_path_extension dir name ext :
  contains "/" name = false -> contains "/" ext = false -> contains "." ext = false ->
  _format_from_path (dir ++ String "/" (name ++ String "." ext)) = lower ext.
Proof.
  intros Hname Hext Hdot. unfold _format_from_path.
  destruct (is_empty _) eqn:E.
  { apply is_empty_true in E. destruct dir; discriminate. }
  assert (contains "/" (name ++ String "." ext) = false) as Hseg.
  { rewrite contains_app. cbn [contains]. rewrite Hname, Hext. reflexivity. }
  rewrite (after_last_app "/" dir _ Hseg).
  rewrite contains_app. cbn [contains]. rewrite Ascii.eqb_refl, orb_true_r.
  rewrite (after_last_app "." name ext Hdot). reflexivity.
Qed.

End EnrichText.

Lemma normalize_ruid_ignores_prefix_witness :
  Enrich._normalize_ruid ("guid: " ++ Fixtures.ruid_a) = Fixtures.ruid_a.
Proof.
  apply (normalize_ruid_ignores_prefix "guid: " Fixtures.ruid_a); reflexivity.
Defined.

Lemma format_from_path_extension_witness :
  Paths._format_from_path ("a/b" ++ String "/" ("model.v2" ++ String "." "MOD"))
  = Text.lower "MOD".
Proof.
  apply (format_from_path_extension "a/b" "model.v2" "MOD"); reflexivity.
Defined.

(** ** Enrichment: the input rows and what is fetched *)

Section EnrichInput.
Import Enrich Notions Shapes.

Variable opts : options.
Variable already_enriched : gset row_id.

(** What one input row does to the rows kept and to the ids to fetch. *)
Lemma load_input_row_cases acc r :
  (rows (load_input_row opts already_enriched acc r) = rows acc
   /\ unique_needed (load_input_row opts already_enriched acc r) = unique_needed acc
   /\ seen_ruid (load_input_row opts already_enriched acc r) = seen_ruid acc
   /\ (stopped acc = true
       \/ match limit opts with
          | Some n =>
              (n <= length (rows acc))%nat
              /\ stopped (load_input_row opts already_enriched acc r) = true
          | None => False
          end
       \/ is_Some (limit_per_category opts)))
  \/ (rows (load_input_row opts already_enriched acc r) = rows acc ++ [r]
      /\ stopped acc = false
      /\ stopped (load_input_row opts already_enriched acc r) = false
      /\ match limit opts with
         | Some n => (length (rows acc) < n)%nat
         | None => True
         end
      /\ ((unique_needed (load_input_row opts already_enriched acc r)
           = unique_needed acc
           /\ seen_ruid (load_input_row opts already_enriched acc r) = seen_ruid acc
           /\ ((String.length (_normalize_ruid (RUID r)) < 32)%nat
               \/ (force opts = false /\ _row_key r ∈ already_enriched)
               \/ _normalize_ruid (RUID r) ∈ seen_ruid acc))
          \/ (unique_needed (load_input_row opts already_enriched acc r)
              = unique_needed acc ++ [_normalize_ruid (RUID r)]
              /\ seen_ruid (load_input_row opts already_enriched acc r)
                 = ({[ _normalize_ruid (RUID r) ]} ∪ seen_ruid acc)
              /\ (_normalize_ruid (RUID r) ∉ seen_ruid acc)
              /\ (32 <= String.length (_normalize_ruid (RUID r)))%nat
              /\ (force opts = true \/ _row_key r ∉ already_enriched)))).
Proof.
  unfold load_input_row.
  destruct (stopped acc) eqn:Hstop; [left; auto|].
  lazymatch goal with
  | |- context [if ?b then Loading _ _ _ _ true else _] => destruct b eqn:Hlim
  end.
  { left. cbn [rows unique_needed seen_ruid stopped]. do 3 (split; [reflexivity|]).
    right. left. destruct (limit opts); [|discriminate].
    apply Nat.leb_le in Hlim. auto. }
  assert (match limit opts with
          | Some n => (length (rows acc) < n)%nat
          | None => True
          end) as Hlim'.
  { destruct (limit opts); [apply Nat.leb_gt in Hlim; exact Hlim|exact I]. }
  lazymatch goal with
  | |- context [if ?b then acc else _] => destruct b eqn:Hcat
  end.
  { left. destruct (limit_per_category opts); [|discriminate].
    rewrite Hstop. do 3 (split; [reflexivity|]). right. right. eauto. }
  right. cbv zeta.
  destruct (Text.is_empty (_normalize_ruid (RUID r))) eqn:Hemp.
  { apply is_empty_true in Hemp. cbn [orb rows stopped unique_needed seen_ruid].
    do 4 (split; [auto|]). left. do 2 (split; [reflexivity|]).
    left. rewrite Hemp. cbn. lia. }
  cbn [orb].
  destruct (String.length (_normalize_ruid (RUID r)) <? 32)%nat eqn:Hlen.
  { apply Nat.ltb_lt in Hlen. cbn [rows stopped unique_needed seen_ruid].
    do 4 (split; [auto|]). left. do 2 (split; [reflexivity|]). left. exact Hlen. }
  apply Nat.ltb_ge in Hlen.
  assert (forall P : Prop, P ->
            let need :=
              if bool_decide (_normalize_ruid (RUID r) ∈ seen_ruid acc)
              then Loading (rows acc ++ [r]) (unique_needed acc) (seen_ruid acc)
                     match limit_per_category opts with
                     | Some _ =>
                         <[Text.strip (Category r) :=
                             default 0 (category_counts acc !! Text.strip (Category r))
                             + 1]> (category_counts acc)
                     | None => category_counts acc
                     end false
              else Loading (rows acc ++ [r])
                     (unique_needed acc ++ [_normalize_ruid (RUID r)])
                     ({[ _normalize_ruid (RUID r) ]} ∪ seen_ruid acc)
                     match limit_per_category opts with
                     | Some _ =>
                         <[Text.strip (Category r) :=
                             default 0 (category_counts acc !! Text.strip (Category r))
                             + 1]> (category_counts acc)
                     | None => category_counts acc
                     end false in
            rows need = rows acc ++ [r] /\ false = false /\ stopped need = false
            /\ match limit opts with
               | Some n => (length (rows acc) < n)%nat
               | None => True
               end
            /\ ((unique_needed need = unique_needed acc
                 /\ seen_ruid need = seen_ruid acc
                 /\ ((String.length (_normalize_ruid (RUID r)) < 32)%nat
                     \/ (force opts = false /\ _row_key r ∈ already_enriched)
                     \/ _normalize_ruid (RUID r) ∈ seen_ruid acc))
                \/ (unique_needed need = unique_needed acc ++ [_normalize_ruid (RUID r)]
                    /\ seen_ruid need = ({[ _normalize_ruid (RUID r) ]} ∪ seen_ruid acc)
                    /\ (_normalize_ruid (RUID r) ∉ seen_ruid acc)
                    /\ (32 <= String.length (_normalize_ruid (RUID r)))%nat
                    /\ P))) as Hneed.
  { intros P HP. cbv zeta.
    destruct (bool_decide (_normalize_ruid (RUID r) ∈ seen_ruid acc)) eqn:Hseen.
    - apply bool_decide_eq_true in Hseen. cbn [rows stopped unique_needed seen_ruid].
      do 4 (split; [auto|]). left. do 2 (split; [reflexivity|]). right. right.
      exact Hseen.
    - apply bool_decide_eq_false in Hseen. cbn [rows stopped unique_needed seen_ruid].
      do 4 (split; [auto|]). right. do 2 (split; [reflexivity|]). auto. }
  destruct (force opts) eqn:Hforce.
  { apply (Hneed (true = true \/ _row_key r ∉ already_enriched)). left. reflexivity. }
  destruct (bool_decide (_row_key r ∈ already_enriched)) eqn:Hae.
  - apply bool_decide_eq_true in Hae. cbn [rows stopped unique_needed seen_ruid].
    do 4 (split; [auto|]). left. do 2 (split; [reflexivity|]). right. left. auto.
  - apply bool_decide_eq_false in Hae.
    apply (Hneed (false = true \/ _row_key r ∉ already_enriched)). right. exact Hae.
Qed.

Lemma load_rows_limit input : forall acc,
  limit_per_category opts = None ->
  rows (fold_left (load_input_row opts already_enriched) input acc)
  = if stopped acc then rows acc
    else rows acc ++ match limit opts with
                     | Some n => take (n - length (rows acc)) input
                     | None => input
                     end.
Proof.
  induction input as [|r input IH]; intros acc Hcat.
  - cbn [fold_left]. destruct (stopped acc); [reflexivity|].
    destruct (limit opts); [rewrite take_nil|]; rewrite app_nil_r; reflexivity.
  - cbn [fold_left]. rewrite (IH _ Hcat).
    destruct (load_input_row_cases acc r)
      as [(Hrows & _ & _ & [Hstop|[Hlim|Hsome]])
         |(Hrows & Hstop & Hstop' & Hlim & _)].
    + assert (load_input_row opts already_enriched acc r = acc) as ->
        by (unfold load_input_row; rewrite Hstop; reflexivity).
      rewrite Hstop. reflexivity.
    + destruct (limit opts) as [n|]; [|contradiction]. destruct Hlim as [Hn ->].
      rewrite Hrows. destruct (stopped acc); [reflexivity|].
      replace (n - length (rows acc))%nat with 0%nat by lia.
      cbn [take]. rewrite app_nil_r. reflexivity.
    + rewrite Hcat in Hsome. destruct Hsome as [? Hsome]. discriminate.
    + rewrite Hstop, Hstop', Hrows, <- app_assoc. f_equal.
      destruct (limit opts) as [n|]; [|reflexivity].
      rewrite length_app. cbn [length app].
      replace (n - length (rows acc))%nat with (S (n - (length (rows acc) + 1)))
        by lia.
      reflexivity.
Qed.

(** Without a limit per category, the rows taken from the input file are
    its first [--limit] rows, in order, or all of them without [--limit]. *)
Theorem load_input_limit input :
  limit_per_category opts = None ->
  rows (load_input opts already_enriched input)
  = match limit opts with
    | Some n => take n input
    | None => input
    end.
Proof.
  intros Hcat. unfold load_input. rewrite (load_rows_limit input _ Hcat).
  cbn [stopped rows length app]. destruct (limit opts) as [n|]; [|reflexivity].
  rewrite Nat.sub_0_r. reflexivity.
Qed.

Lemma load_rows_from_input input : forall acc r,
  r ∈ rows (fold_left (load_input_row opts already_enriched) input acc) ->
  r ∈ rows acc \/ r ∈ input.
Proof.
  induction input as [|r0 input IH]; intros acc r Hin; [left; exact Hin|].
  cbn [fold_left] in Hin. apply IH in Hin as [Hin|Hin]; [|right; right; exact Hin].
  destruct (load_input_row_cases acc r0) as [(Hrows & _)|(Hrows & _)];
    rewrite Hrows in Hin; [left; exact Hin|].
  apply elem_of_app in Hin as [Hin|Hin]; [left; exact Hin|].
  apply list_elem_of_singleton in Hin as ->. right. left.
Qed.

(** The ids to fetch, kept in step with the rows taken so far. *)
Lemma load_input_row_needed acc r :
  needed_for opts already_enriched acc ->
  needed_for opts already_enriched (load_input_row opts already_enriched acc r).
Proof.
  intros (Hseen & Hnd & Hchar).
  destruct (load_input_row_cases acc r)
    as [(Hrows & Hun & Hsn & _)
       |(Hrows & _ & _ & _ & [(Hun & Hsn & Hwhy)|(Hun & Hsn & Hnew & Hlen & Hwant)])];
    unfold needed_for; rewrite Hrows, Hun, Hsn.
  - split; [exact Hseen|]. split; [exact Hnd|exact Hchar].
  - split; [exact Hseen|]. split; [exact Hnd|].
    intros u. rewrite Hchar. split.
    + intros (r' & Hr' & Hu). exists r'. split; [|exact Hu].
      apply elem_of_app. left. exact Hr'.
    + intros (r' & Hr' & -> & Hlen & Hwant).
      apply elem_of_app in Hr' as [Hr'|Hr']; [exists r'; auto|].
      apply list_elem_of_singleton in Hr' as ->.
      destruct Hwhy as [Hshort|[[Hforce Hae]|Hknown]].
      * lia.
      * destruct Hwant as [Hf|Hno]; [congruence|contradiction].
      * apply Hseen, Hchar in Hknown. exact Hknown.
  - split; [|split].
    + intros u. rewrite elem_of_union, elem_of_singleton, elem_of_app,
        list_elem_of_singleton, Hseen. tauto.
    + apply NoDup_app. split; [exact Hnd|]. split; [|apply NoDup_singleton].
      intros u Hu Hu'. apply list_elem_of_singleton in Hu' as ->.
      apply Hnew, Hseen, Hu.
    + intros u. rewrite elem_of_app, list_elem_of_singleton, Hchar. split.
      * intros [(r' & Hr' & Hu)| ->].
        -- exists r'. split; [apply elem_of_app; left; exact Hr'|exact Hu].
        -- exists r. split; [apply elem_of_app; right; left|]. auto.
      * intros (r' & Hr' & Hu). apply elem_of_app in Hr' as [Hr'|Hr'].
        -- left. exists r'. auto.
        -- apply list_elem_of_singleton in Hr' as ->. right. apply Hu.
Qed.

Lemma load_rows_needed input : forall acc,
  needed_for opts already_enriched acc ->
  needed_for opts already_enriched
    (fold_left (load_input_row opts already_enriched) input acc).
Proof.
  induction input as [|r input IH]; intros acc H; [exact H|].
  cbn [fold_left]. apply IH, load_input_row_needed, H.
Qed.

Lemma load_input_needed input :
  needed_for opts already_enriched (load_input opts already_enriched input).
Proof.
  apply load_rows_needed. split; [|split].
  - intros u. cbn. split; intros H; [apply elem_of_empty in H; contradiction|].
    inversion H.
  - constructor.
  - intros u. cbn. split; [intros H; inversion H|].
    intros (r & Hr & _). inversion Hr.
Qed.

(** The record ids handed to the fetchers are the canonical ids of at least
    32 characters of the rows taken whose key is not yet enriched in the
    output file (of every such row with [--force]), each id once. *)
Theorem load_input_unique_needed input :
  NoDup (unique_needed (load_input opts already_enriched input))
  /\ forall u,
       u ∈ unique_needed (load_input opts already_enriched input)
       <-> exists r,
             r ∈ rows (load_input opts already_enriched input)
             /\ u = _normalize_ruid (RUID r)
             /\ (32 <= String.length u)%nat
             /\ (force opts = true \/ _row_key r ∉ already_enriched).
Proof.
  destruct (load_input_needed input) as (_ & Hnd & Hchar).
  split; [exact Hnd|exact Hchar].
Qed.

End EnrichInput.

(** ** Enrichment: what a run does to the output file *)

Section EnrichMain.
Import Enrich Notions Shapes.

(** Without [--force], when the output file exists and every input row
    either has no usable record id or is already enriched in the output
    file, nothing is fetched and the run has no effect on the file system:
    the output file is left as it is. *)
Theorem main_leaves_enriched_output opts input fs temp_path output_path queue :
  force opts = false ->
  is_Some (fs !! output_path) ->
  (forall r, r ∈ input ->
     (String.length (_normalize_ruid (RUID r)) < 32)%nat
     \/ _row_key r ∈ (_load_existing_output (fs !! output_path)).1) ->
  main opts input fs temp_path output_path queue = Some [].
Proof.
  intros Hforce [content Hout] Hall. unfold main.
  destruct (_load_existing_output (fs !! output_path)) as [ae d]. cbn [fst] in Hall.
  destruct (unique_needed (load_input opts ae input)) as [|u us] eqn:Eu.
  - rewrite Hout. reflexivity.
  - exfalso. destruct (load_input_needed opts ae input) as (_ & _ & Hchar).
    destruct (proj1 (Hchar u)) as (r & Hr & -> & Hlen & Hwant).
    { rewrite Eu. left. }
    apply load_rows_from_input in Hr as [Hr|Hr]; [inversion Hr|].
    destruct (Hall r Hr) as [Hshort|Hae]; [lia|].
    destruct Hwant as [Hf|Hno]; [congruence|contradiction].
Qed.

Lemma apply_appends p lines : forall (fs : file_system) content,
  fs !! p = Some content ->
  apply_ops fs (map (fun line => Append p line) lines) !! p = Some (content ++ lines).
Proof.
  induction lines as [|line lines IH]; intros fs content Hp.
  - cbn. rewrite app_nil_r. exact Hp.
  - cbn [map apply_ops fold_left apply_op].
    change (fold_left apply_op ?ops ?fs0) with (apply_ops fs0 ops).
    rewrite (IH _ (content ++ [line])).
    + rewrite <- app_assoc. reflexivity.
    + rewrite Hp. apply lookup_insert_eq.
Qed.

(** When something is to be fetched and the queue ends with the sentinel,
    the run returns, the temp file is gone, and the output file holds the
    header followed by one line per row taken from the input, in order,
    each written for its row. *)
Theorem main_writes_output opts input fs temp_path output_path items rest :
  temp_path <> output_path ->
  unique_needed
    (load_input opts (_load_existing_output (fs !! output_path)).1 input) <> [] ->
  exists ops out_rows,
    main opts input fs temp_path output_path (arrivals items rest) = Some ops
    /\ apply_ops fs ops !! output_path = Some (CSV_COLUMNS :: map line_of out_rows)
    /\ apply_ops fs ops !! temp_path = None
    /\ Forall2 (written_for (_load_existing_output (fs !! output_path)).2 items)
         (rows (load_input opts (_load_existing_output (fs !! output_path)).1 input))
         out_rows.
Proof.
  intros Hne Hneeded. unfold main.
  pose proof (load_existing_output_keyed (fs !! output_path)) as Hkeyed.
  destruct (_load_existing_output (fs !! output_path)) as [ae d].
  cbn [fst snd] in *.
  destruct (unique_needed (load_input opts ae input)) as [|u us]; [congruence|].
  unfold _writer_worker.
  destruct (consume_from_start d (rows (load_input opts ae input)) items rest Hkeyed)
    as (w & -> & _ & Hwritten).
  eexists. exists (written w). split; [reflexivity|].
  split; [|split; [|exact Hwritten]].
  - cbn [apply_ops fold_left apply_op].
    change (fold_left apply_op ?ops ?fs0) with (apply_ops fs0 ops).
    rewrite apply_ops_app. cbn [apply_ops fold_left apply_op].
    rewrite <- (map_map line_of (fun line => Append temp_path line)).
    rewrite (apply_appends temp_path (map line_of (written w)) _ [CSV_COLUMNS]).
    + apply lookup_insert_eq.
    + eapply eq_trans; [apply lookup_insert_eq|].
      apply (f_equal (fun o : option csv_file => Some (default [] o ++ [CSV_COLUMNS]))
               (y := Some [])).
      apply lookup_insert_eq.
  - cbn [apply_ops fold_left apply_op].
    change (fold_left apply_op ?ops ?fs0) with (apply_ops fs0 ops).
    rewrite apply_ops_app. cbn [apply_ops fold_left apply_op].
    rewrite <- (map_map line_of (fun line => Append temp_path line)).
    rewrite (apply_appends temp_path (map line_of (written w)) _ [CSV_COLUMNS]).
    + eapply eq_trans; [apply lookup_insert_ne; congruence|apply lookup_delete_eq].
    + eapply eq_trans; [apply lookup_insert_eq|].
      apply (f_equal (fun o : option csv_file => Some (default [] o ++ [CSV_COLUMNS]))
               (y := Some [])).
      apply lookup_insert_eq.
Qed.

End EnrichMain.

Lemma load_input_limit_witness :
  Enrich.rows (Enrich.load_input (Enrich.Options false (Some 1%nat) None) ∅
                 Fixtures.two_categories)
  = take 1 Fixtures.two_categories.
Proof.
  apply (load_input_limit (Enrich.Options false (Some 1%nat) None) ∅
           Fixtures.two_categories).
  reflexivity.
Defined.

Lemma main_leaves_enriched_output_witness :
  Enrich.main Fixtures.defaults [Enrich.Row Fixtures.ruid_a "sprite" "object" "" "" ""]
    Fixtures.disk "tmp.csv" "out.csv" [] = Some [].
Proof.
  apply (main_leaves_enriched_output Fixtures.defaults
           [Enrich.Row Fixtures.ruid_a "sprite" "object" "" "" ""]
           Fixtures.disk "tmp.csv" "out.csv" []).
  - reflexivity.
  - apply (bool_decide_eq_true_1 _). vm_compute. reflexivity.
  - intros r Hr. apply list_elem_of_singleton in Hr as ->. right.
    apply (bool_decide_eq_true_1 _). vm_compute. reflexivity.
Defined.

Lemma main_writes_output_witness :
  exists ops out_rows,
    Enrich.main Fixtures.defaults Fixtures.two_categories Fixtures.disk
      "tmp.csv" "out.csv" (Notions.arrivals [] []) = Some ops
    /\ Enrich.apply_ops Fixtures.disk ops !! "out.csv"%string
       = Some (Enrich.CSV_COLUMNS :: map Enrich.line_of out_rows)
    /\ Enrich.apply_ops Fixtures.disk ops !! "tmp.csv"%string = None
    /\ Forall2
         (Notions.written_for
            (Enrich._load_existing_output (Fixtures.disk !! "out.csv"%string)).2 [])
         (Enrich.rows
            (Enrich.load_input Fixtures.defaults
               (Enrich._load_existing_output (Fixtures.disk !! "out.csv"%string)).1
               Fixtures.two_categories))
         out_rows.
Proof.
  apply (main_writes_output Fixtures.defaults Fixtures.two_categories Fixtures.disk
           "tmp.csv" "out.csv" [] []).
  - discriminate.
  - vm_compute. discriminate.
Defined.
